(** * Encrypt tutoring client: the chat turn, the visualization
      extractor and the workspace

    A shallow embedding of [src/App.tsx] (the handlers of the [App]
    component and the events that reach them), of the Gemini service
    it calls ([sendMessageToGemini], [generateImage]), of the template
    catalog and of the renderer of the feed, together with the
    properties of the specification that concern them and further
    properties of the code.

    - [JsString]: JavaScript strings, one [ascii] per code unit (code
      units U+0000..U+00FF), with [trim], [toLowerCase], [includes].
    - [Regex]: the fragment of ECMAScript regular expressions the
      regex literals of the source use, as a backtracking matcher that
      lists the ways a pattern matches in priority order, with [test],
      the [exec] loop and [matchAll].
    - [Types], [Eff]: the data of [src/types.ts], the state of the
      component, the world outside it, and the state-and-exception
      monad the [async] functions run in.
    - [Gemini]: the service functions over an oracle for the hosted
      backend.
    - [App]: the patterns and the two callbacks [extractVisualization]
      and [handleSendMessage].
    - [Spec], [Samples]: the vocabulary the properties are stated in,
      and worlds to run the callbacks in.
    - [Catalog]: the templates of [src/constants.ts] and the search
      over them ([filteredTemplates], with [split]).
    - [Desk]: the rest of the component state and the other handlers
      ([handleFileUpload], [handleGenerateImage], [handleSynthesize],
      the suggestion chips), and the events of the page.
    - [Visualizer]: the rendering URL of a diagram ([VisualRenderer]),
      with [encodeURIComponent], [unescape] and [btoa].
    - [Terms], [Scenes]: further vocabulary and sample worlds.
    - [StringFacts] to [FeedFacts]: the lemmas; [Claims]: the
      properties C1 to C10.
    - [ServiceProperties] to [SessionProperties]: further properties
      of the code, X1 to X26. *)

From Stdlib Require Import Bool Arith Lia List String Ascii ZArith.
From Stdlib Require Import Sorting.Sorted Numbers.DecimalString.
From Stdlib Require Import ZifyNat.
Import ListNotations.

Set Implicit Arguments.

Local Open Scope list_scope.
Local Open Scope string_scope.

(* ===================================================================== *)
(** * JavaScript strings *)
(* ===================================================================== *)

Module JsString.

(** A string is its sequence of code units; [string] carries the units
    U+0000..U+00FF, one per [ascii]. *)

Definition code (c : ascii) : nat := nat_of_ascii c.

Definition in_range (lo hi : nat) (c : ascii) : bool :=
  ((lo <=? code c) && (code c <=? hi))%nat.

(** ECMAScript [LineTerminator]: LF and CR in this range. *)
Definition isLineTerminator (c : ascii) : bool :=
  ((code c =? 10) || (code c =? 13))%nat.

(** ECMAScript [WhiteSpace] and [LineTerminator], the set both [\s] and
    [String.prototype.trim] use: TAB, LF, VT, FF, CR, SP and NBSP. *)
Definition isWhiteSpace (c : ascii) : bool :=
  (in_range 9 13 c || (code c =? 32) || (code c =? 160))%nat.

(** [String.prototype.toLowerCase] on one code unit: A-Z and the
    Latin-1 capitals U+00C0..U+00DE (U+00D7 is the multiplication sign). *)
Definition lower (c : ascii) : ascii :=
  if in_range 65 90 c
     || (in_range 192 222 c && negb (code c =? 215)%nat)
  then ascii_of_nat (code c + 32) else c.

(** [Canonicalize] of a case-insensitive regex without the [u] flag:
    the upper case of the unit when that is again a single unit and
    does not turn a non-ASCII unit into an ASCII one.  In this range
    that moves a-z and U+00E0..U+00FE (U+00F7 is the division sign);
    the upper cases of U+00B5 and U+00FF lie above U+00FF and are the
    canonical form of no other unit of the range, U+00DF has none. *)
Definition canonicalize (c : ascii) : ascii :=
  if in_range 97 122 c
     || (in_range 224 254 c && negb (code c =? 247)%nat)
  then ascii_of_nat (code c - 32) else c.

Fixpoint map (f : ascii -> ascii) (s : string) : string :=
  match s with
  | EmptyString => EmptyString
  | String c s' => String (f c) (map f s')
  end.

Definition toLowerCase (s : string) : string := map lower s.

Fixpoint forallb (p : ascii -> bool) (s : string) : bool :=
  match s with
  | EmptyString => true
  | String c s' => p c && forallb p s'
  end.

Fixpoint trimStart (s : string) : string :=
  match s with
  | EmptyString => EmptyString
  | String c s' => if isWhiteSpace c then trimStart s' else s
  end.

Fixpoint trimEnd (s : string) : string :=
  match s with
  | EmptyString => EmptyString
  | String c s' =>
      match trimEnd s' with
      | EmptyString => if isWhiteSpace c then EmptyString else String c EmptyString
      | t => String c t
      end
  end.

(** [String.prototype.trim] *)
Definition trim (s : string) : string := trimEnd (trimStart s).

(** A JavaScript string is truthy when it is not empty. *)
Definition truthy (s : string) : bool :=
  match s with EmptyString => false | _ => true end.

(** Code-unit comparison, case-folded by [Canonicalize] when [ic]. *)
Definition char_eq (ic : bool) (a b : ascii) : bool :=
  if ic then Ascii.eqb (canonicalize a) (canonicalize b) else Ascii.eqb a b.

(** [strip_prefix ic l s]: what follows [l] when [s] starts with [l]. *)
Fixpoint strip_prefix (ic : bool) (l s : string) : option string :=
  match l with
  | EmptyString => Some s
  | String a l' =>
      match s with
      | EmptyString => None
      | String b s' => if char_eq ic a b then strip_prefix ic l' s' else None
      end
  end.

Definition startsWith (ic : bool) (l s : string) : bool :=
  match strip_prefix ic l s with Some _ => true | None => false end.

(** [indexOf ic l s]: the position of the first occurrence of [l]. *)
Fixpoint indexOf (ic : bool) (l s : string) : option nat :=
  if startsWith ic l s then Some 0
  else match s with
       | EmptyString => None
       | String _ s' => option_map S (indexOf ic l s')
       end.

(** [String.prototype.includes] is [includes_ci false]. *)
Definition includes_ci (ic : bool) (l s : string) : bool :=
  match indexOf ic l s with Some _ => true | None => false end.

Definition includes (l s : string) : bool := includes_ci false l s.

(** Two strings that differ by letter case only. *)
Fixpoint ci_eq (a b : string) : bool :=
  match a, b with
  | EmptyString, EmptyString => true
  | String x a', String y b' => char_eq true x y && ci_eq a' b'
  | _, _ => false
  end.

Definition LF : string := String (ascii_of_nat 10) EmptyString.

(** [v === 's'] for a value that is a string or [undefined]. *)
Definition strict_eq (v : option string) (s : string) : bool :=
  match v with Some x => String.eqb x s | None => false end.

End JsString.

(* ===================================================================== *)
(** * Regular expressions *)
(* ===================================================================== *)

Module Regex.
Import JsString.

(** The character classes of the source's patterns: [.], [\s],
    [[\s\S]] and a negated single character such as [[^\]]]. *)
Inductive cls : Type :=
| CDot
| CSpace
| CAll
| CNot (c : ascii).

(** The pattern fragment in use.  Quantifiers apply to a character
    class ([\s*], [[\s\S]*?], [.*], [[^\]]+]) or, for [?], to a group. *)
Inductive regex : Type :=
| Lit (l : string)                  (* a run of pattern characters *)
| Bol                               (* ^ *)
| Star (greedy : bool) (k : cls)    (* k* and k*? *)
| Plus (k : cls)                    (* k+ *)
| Opt (r : regex)                   (* (?:r)? *)
| Alt (r1 r2 : regex)               (* r1|r2 *)
| Seq (r1 r2 : regex)               (* r1r2 *)
| Group (n : nat) (r : regex).      (* the n-th capturing group (r) *)

Declare Scope regex_scope.
Delimit Scope regex_scope with re.
Infix ">>" := Seq (at level 61, right associativity) : regex_scope.
Infix "<|>" := Alt (at level 62, right associativity) : regex_scope.

(** Captured groups, the most recent first. *)
Definition captures : Type := list (nat * string).

Fixpoint capture (n : nat) (c : captures) : option string :=
  match c with
  | [] => None
  | (m, v) :: c' => if Nat.eqb m n then Some v else capture n c'
  end.

(** The first [length s - length s'] code units of [s]: what a match
    that started at [s] and stopped at its suffix [s'] went over. *)
Definition consumed (s s' : string) : string :=
  substring 0 (String.length s - String.length s') s.

Section Matcher.

(** [ic] is the [i] flag; [input] is the whole string under match, of
    which every [s] below is a suffix. *)
Variable ic : bool.
Variable input : string.

Definition cls_match (k : cls) (c : ascii) : bool :=
  match k with
  | CDot => negb (isLineTerminator c)
  | CSpace => isWhiteSpace c
  | CAll => true
  | CNot x => negb (char_eq ic x c)
  end.

(** The suffixes a greedy [k*] can stop at, longest run first. *)
Fixpoint star_greedy (k : cls) (s : string) : list string :=
  match s with
  | EmptyString => [s]
  | String c s' => if cls_match k c then (star_greedy k s' ++ [s])%list else [s]
  end.

(** The suffixes a lazy [k*?] can stop at, shortest run first. *)
Fixpoint star_lazy (k : cls) (s : string) : list string :=
  match s with
  | EmptyString => [s]
  | String c s' => s :: (if cls_match k c then star_lazy k s' else [])
  end.

Definition plus_greedy (k : cls) (s : string) : list string :=
  match s with
  | EmptyString => []
  | String c s' => if cls_match k c then star_greedy k s' else []
  end.

(** [ms r s c]: every way [r] matches at the start of [s] with captures
    [c] so far, as (captures, rest), in the order a backtracking
    matcher tries them; its head is the match the engine returns. *)
Fixpoint ms (r : regex) (s : string) (c : captures) : list (captures * string) :=
  match r with
  | Lit l =>
      match strip_prefix ic l s with
      | Some s' => [(c, s')]
      | None => []
      end
  | Bol => if Nat.eqb (String.length s) (String.length input) then [(c, s)] else []
  | Star true k => List.map (pair c) (star_greedy k s)
  | Star false k => List.map (pair c) (star_lazy k s)
  | Plus k => List.map (pair c) (plus_greedy k s)
  | Opt r1 => (ms r1 s c ++ [(c, s)])%list
  | Alt r1 r2 => (ms r1 s c ++ ms r2 s c)%list
  | Seq r1 r2 => flat_map (fun x => ms r2 (snd x) (fst x)) (ms r1 s c)
  | Group n r1 =>
      List.map (fun x => ((n, consumed s (snd x)) :: fst x, snd x)) (ms r1 s c)
  end.

(** A successful match: [index] where it starts, its groups, the
    matched text and what follows it (the text from [lastIndex] on). *)
Record MatchResult : Type := mkMatch {
  index : nat;
  groups : captures;
  matched : string;
  rest : string
}.

(** The n-th group of a match; a group that did not take part is
    [undefined], which no pattern of the source can produce for the
    groups it reads. *)
Definition group (n : nat) (m : MatchResult) : string :=
  match capture n (groups m) with Some v => v | None => EmptyString end.

(** The leftmost match at or after the position of [s]. *)
Fixpoint search (r : regex) (s : string) : option MatchResult :=
  match ms r s [] with
  | (c, s') :: _ =>
      Some (mkMatch (String.length input - String.length s) c (consumed s s') s')
  | [] =>
      match s with
      | EmptyString => None
      | String _ s' => search r s'
      end
  end.

(** [while ((m = re.exec(input)) !== null)] for a global [re], from the
    position of [s]: [exec] leaves [lastIndex] at the end of the match,
    so a pattern that matched the empty string would be found there
    again for ever; [None] is running out of [fuel]. *)
Fixpoint exec_loop (fuel : nat) (r : regex) (s : string) : option (list MatchResult) :=
  match fuel with
  | O => None
  | S fuel' =>
      match search r s with
      | None => Some []
      | Some m => option_map (cons m) (exec_loop fuel' r (rest m))
      end
  end.

(** [input.matchAll(re)] from the position of [s]: as [exec_loop], but
    the position moves one code unit on after an empty match.  [skip]
    counts the code units of the last match still to be passed. *)
Fixpoint matchAll_from (r : regex) (s : string) (skip : nat) : list MatchResult :=
  match skip with
  | S k =>
      match s with
      | EmptyString => []
      | String _ s' => matchAll_from r s' k
      end
  | O =>
      match ms r s [] with
      | (c, s') :: _ =>
          mkMatch (String.length input - String.length s) c (consumed s s') s'
          :: match s with
             | EmptyString => []
             | String _ t =>
                 matchAll_from r t (String.length s - String.length s' - 1)
             end
      | [] =>
          match s with
          | EmptyString => []
          | String _ t => matchAll_from r t 0
          end
      end
  end.

End Matcher.

(** [re.test(text)] of a regex without the [g] flag. *)
Definition test (ic : bool) (r : regex) (text : string) : bool :=
  match search ic text r text with Some _ => true | None => false end.

(** The matches the [exec] loop of a global regex goes through.  The
    fuel is enough for a pattern that never matches the empty string
    ([RegexFacts.exec_loop_matchAll]), as the fenced-block pattern of
    the component is ([ExtractorFacts.exec_all_mermaid]). *)
Definition exec_all (ic : bool) (r : regex) (text : string) : list MatchResult :=
  match exec_loop ic text (S (String.length text)) r text with
  | Some l => l
  | None => []
  end.

Definition matchAll (ic : bool) (r : regex) (text : string) : list MatchResult :=
  matchAll_from ic text r text 0.

(** A pattern without [^]. *)
Fixpoint bol_free (r : regex) : bool :=
  match r with
  | Bol => false
  | Lit _ | Star _ _ | Plus _ => true
  | Opt r1 | Group _ r1 => bol_free r1
  | Alt r1 r2 | Seq r1 r2 => bol_free r1 && bol_free r2
  end.

(** A match without its position. *)
Definition unplaced (m : MatchResult) : captures * string * string :=
  (groups m, matched m, rest m).

(** [r] never matches the empty string. *)
Definition consumes (ic : bool) (input : string) (r : regex) : Prop :=
  forall s c x, In x (ms ic input r s c) -> String.length (snd x) < String.length s.

(** Whether a pattern with the [i] flag matches at the start of [s]. *)
Definition matches (input : string) (r : regex) (s : string) : bool :=
  match ms true input r s [] with [] => false | _ => true end.

End Regex.

(* ===================================================================== *)
(** * Data model ([src/types.ts]) and the world the callbacks run in *)
(* ===================================================================== *)

Module Types.

Inductive KnowledgeLevel : Type := BEGINNER | INTERMEDIATE | ADVANCED.

Inductive PaneTab : Type := VISUALIZER | TEMPLATES | UPLOAD | IMAGE_GEN.

Inductive Role : Type := user | model | system.

Record Message : Type := mkMessage {
  msg_id : string;
  role : Role;
  text : string;
  msg_timestamp : Z
}.

Inductive VisualType : Type := mermaid | image.

Record VisualItem : Type := mkVisualItem {
  id : string;
  type : VisualType;
  content : string;
  timestamp : Z
}.

Record LogicDiagram : Type := mkLogicDiagram {
  items : list VisualItem;
  title : option string
}.

Inductive MobileView : Type := chat | workspace.

(** A thrown JavaScript value, as far as the handlers look into it:
    [e.status] and [e.message]. *)
Record JsError : Type := mkError {
  status : option Z;
  message : option string
}.

(** The parts of [response.candidates?.[0]?.content?.parts]. *)
Record Blob : Type := mkBlob {
  mimeType : option string;
  data : option string
}.

Record FunctionCall : Type := mkCall {
  name : option string;
  args : option (option string)   (* [args], and in it [args.status] *)
}.

Record Part : Type := mkPart {
  part_text : option string;
  functionCall : option FunctionCall;
  inlineData : option Blob
}.

(** What the handlers read of a [GenerateContentResponse]: the parts of
    its first candidate, [None] when the optional chain yields
    [undefined]. *)
Record GenerateContentResponse : Type := mkResponse {
  parts : option (list Part)
}.

Record Content : Type := mkContent {
  content_role : Role;
  content_text : string
}.

(** The two shapes of [ai.models.generateContent] request in the
    service.  The system instruction of a chat request is a function
    of the knowledge level; an image request carries its size when the
    model takes one. *)
Inductive Request : Type :=
| ChatRequest (model : string) (contents : list Content) (level : KnowledgeLevel)
| ImageRequest (model : string) (prompt : string) (imageSize : option string).

(** The state of the [App] component that the two callbacks read or
    write. *)
Record AppState : Type := mkApp {
  messages : list Message;
  input : string;
  isLoading : bool;
  knowledgeLevel : KnowledgeLevel;
  activeTab : PaneTab;
  visualization : LogicDiagram;
  mentorMode : bool;
  showToast : bool;
  toastMessage : string;
  mobileView : MobileView;
  isGeneratingImage : bool
}.

Definition setMessages (f : list Message -> list Message) (a : AppState) : AppState :=
  mkApp (f (messages a)) (input a) (isLoading a) (knowledgeLevel a) (activeTab a)
        (visualization a) (mentorMode a) (showToast a) (toastMessage a)
        (mobileView a) (isGeneratingImage a).

Definition setInput (v : string) (a : AppState) : AppState :=
  mkApp (messages a) v (isLoading a) (knowledgeLevel a) (activeTab a)
        (visualization a) (mentorMode a) (showToast a) (toastMessage a)
        (mobileView a) (isGeneratingImage a).

Definition setIsLoading (v : bool) (a : AppState) : AppState :=
  mkApp (messages a) (input a) v (knowledgeLevel a) (activeTab a)
        (visualization a) (mentorMode a) (showToast a) (toastMessage a)
        (mobileView a) (isGeneratingImage a).

Definition setActiveTab (v : PaneTab) (a : AppState) : AppState :=
  mkApp (messages a) (input a) (isLoading a) (knowledgeLevel a) v
        (visualization a) (mentorMode a) (showToast a) (toastMessage a)
        (mobileView a) (isGeneratingImage a).

Definition setVisualization (f : LogicDiagram -> LogicDiagram) (a : AppState) : AppState :=
  mkApp (messages a) (input a) (isLoading a) (knowledgeLevel a) (activeTab a)
        (f (visualization a)) (mentorMode a) (showToast a) (toastMessage a)
        (mobileView a) (isGeneratingImage a).

Definition setMentorMode (v : bool) (a : AppState) : AppState :=
  mkApp (messages a) (input a) (isLoading a) (knowledgeLevel a) (activeTab a)
        (visualization a) v (showToast a) (toastMessage a)
        (mobileView a) (isGeneratingImage a).

Definition setShowToast (v : bool) (a : AppState) : AppState :=
  mkApp (messages a) (input a) (isLoading a) (knowledgeLevel a) (activeTab a)
        (visualization a) (mentorMode a) v (toastMessage a)
        (mobileView a) (isGeneratingImage a).

Definition setToastMessage (v : string) (a : AppState) : AppState :=
  mkApp (messages a) (input a) (isLoading a) (knowledgeLevel a) (activeTab a)
        (visualization a) (mentorMode a) (showToast a) v
        (mobileView a) (isGeneratingImage a).

Definition setMobileView (v : MobileView) (a : AppState) : AppState :=
  mkApp (messages a) (input a) (isLoading a) (knowledgeLevel a) (activeTab a)
        (visualization a) (mentorMode a) (showToast a) (toastMessage a)
        v (isGeneratingImage a).

Definition setIsGeneratingImage (v : bool) (a : AppState) : AppState :=
  mkApp (messages a) (input a) (isLoading a) (knowledgeLevel a) (activeTab a)
        (visualization a) (mentorMode a) (showToast a) (toastMessage a)
        (mobileView a) v.

(** What a run leaves behind outside the component state. *)
Inductive Event : Type :=
| EGenerateContent (req : Request)
| EOpenSelectKey
| EConsoleError (label : string)
| EConsoleWarn (label : string).

(** The world: the component state, how many backend requests, key
    selections and clock or random reads there have been, and the
    record of what went out, oldest first. *)
Record World : Type := mkWorld {
  app : AppState;
  sent : nat;
  asked : nat;
  ticks : nat;
  log : list Event
}.

(** [window.aistudio], when the host provides it. *)
Record AIStudio : Type := mkAIStudio {
  hasSelectedApiKey : nat -> JsError + bool;
  openSelectKey : nat -> option JsError      (* [None]: the promise resolves *)
}.

(** The outside: the hosted backend as a function of the request and
    of how many requests came before it, the host's key selection
    likewise, the wall clock and the text [Math.random()] is rendered
    to in a template literal as functions of the number of earlier
    reads. *)
Record Env : Type := mkEnv {
  generateContent : nat -> Request -> JsError + GenerateContentResponse;
  aistudio : option AIStudio;
  date_now : nat -> Z;
  math_random : nat -> string
}.

End Types.

(* ===================================================================== *)
(** * Effects: state and exceptions *)
(* ===================================================================== *)

Module Eff.
Import Types.

Inductive Res (A : Type) : Type :=
| Ok (a : A)
| Throw (e : JsError).
Arguments Throw {A} e.

(** An [async] function body: from a world to a normal or abrupt
    completion and the world after it. *)
Definition M (A : Type) : Type := World -> Res A * World.

Definition ret {A} (a : A) : M A := fun w => (Ok a, w).

Definition throw {A} (e : JsError) : M A := fun w => (Throw e, w).

Definition bind {A B} (m : M A) (k : A -> M B) : M B :=
  fun w =>
    match m w with
    | (Ok a, w1) => k a w1
    | (Throw e, w1) => (Throw e, w1)
    end.

(** [try { body } catch (e) { handler e }] *)
Definition try_catch {A} (body : M A) (handler : JsError -> M A) : M A :=
  fun w =>
    match body w with
    | (Ok a, w1) => (Ok a, w1)
    | (Throw e, w1) => handler e w1
    end.

(** [try { body } finally { final }]: [final] runs on both exits, and
    its own abrupt completion would replace that of [body]. *)
Definition try_finally {A} (body : M A) (final : M unit) : M A :=
  fun w =>
    match body w with
    | (r, w1) =>
        match final w1 with
        | (Ok _, w2) => (r, w2)
        | (Throw e, w2) => (Throw e, w2)
        end
    end.

Declare Scope eff_scope.
Delimit Scope eff_scope with eff.
Notation "x <- m ;; k" := (bind m (fun x => k))
  (at level 100, m at next level, right associativity) : eff_scope.
Notation "m ;; k" := (bind m (fun _ => k))
  (at level 100, right associativity) : eff_scope.

Local Open Scope eff_scope.

Definition get_app : M AppState := fun w => (Ok (app w), w).

Definition modify (f : AppState -> AppState) : M unit :=
  fun w => (Ok tt, mkWorld (f (app w)) (sent w) (asked w) (ticks w) (log w)).

Definition emit (e : Event) (w : World) : World :=
  mkWorld (app w) (sent w) (asked w) (ticks w) (log w ++ [e])%list.

Definition tick (w : World) : World :=
  mkWorld (app w) (sent w) (asked w) (S (ticks w)) (log w).

Definition console_error (label : string) : M unit :=
  fun w => (Ok tt, emit (EConsoleError label) w).

Definition console_warn (label : string) : M unit :=
  fun w => (Ok tt, emit (EConsoleWarn label) w).

(** [for (const x of l) { body x }] over an accumulator the body
    updates (a local array it pushes to). *)
Fixpoint for_of {X A} (l : list X) (body : A -> X -> M A) (acc : A) : M A :=
  match l with
  | [] => ret acc
  | x :: l' => acc' <- body acc x ;; for_of l' body acc'
  end.

Section Outside.
Variable env : Env.

Definition Date_now : M Z :=
  fun w => (Ok (date_now env (ticks w)), tick w).

Definition Math_random : M string :=
  fun w => (Ok (math_random env (ticks w)), tick w).

(** [await ai.models.generateContent(req)] *)
Definition await_generateContent (req : Request) : M GenerateContentResponse :=
  fun w =>
    let w' := mkWorld (app w) (S (sent w)) (asked w) (ticks w)
                      (log w ++ [EGenerateContent req])%list in
    match generateContent env (sent w) req with
    | inr r => (Ok r, w')
    | inl e => (Throw e, w')
    end.

(** [await studio.openSelectKey()] *)
Definition await_openSelectKey (studio : AIStudio) : M unit :=
  fun w =>
    let w' := mkWorld (app w) (sent w) (S (asked w)) (ticks w)
                      (log w ++ [EOpenSelectKey])%list in
    match openSelectKey studio (asked w) with
    | None => (Ok tt, w')
    | Some e => (Throw e, w')
    end.

End Outside.

End Eff.

(* ===================================================================== *)
(** * The Gemini service ([sendMessageToGemini], [generateImage]) *)
(* ===================================================================== *)

Module Gemini.
Import JsString Types Eff.
Local Open Scope eff_scope.

(** [ChatResponse]: [mentorStatus] is whatever [args.status] held,
    declared as ['searching' | 'satisfied']. *)
Record ChatResponse : Type := mkChatResponse {
  response_text : string;
  mentorStatus : option string;
  imagePart : option string
}.

(** [`${v}`] of an optional string. *)
Definition render (v : option string) : string :=
  match v with Some s => s | None => "undefined" end.

(** [`data:${b.mimeType};base64,${b.data}`] *)
Definition data_url (b : Blob) : string :=
  "data:" ++ render (mimeType b) ++ ";base64," ++ render (data b).

(** [parts?.filter(p => p.functionCall).map(p => p.functionCall)] *)
Fixpoint functionCalls_of (ps : list Part) : list FunctionCall :=
  match ps with
  | [] => []
  | p :: ps' =>
      match functionCall p with
      | Some c => c :: functionCalls_of ps'
      | None => functionCalls_of ps'
      end
  end.

Definition TypeError_args : JsError :=
  mkError None (Some "Cannot read properties of undefined (reading 'status')").

(** The loop over the function calls: every [updateMentorStatus] call
    overwrites [mentorStatus] with its [args.status]; reading [status]
    of absent [args] throws. *)
Fixpoint scan_calls (calls : list FunctionCall) (mentorStatus : option string)
  : JsError + option string :=
  match calls with
  | [] => inr mentorStatus
  | call :: calls' =>
      if strict_eq (name call) "updateMentorStatus"
      then match args call with
           | Some st => scan_calls calls' st
           | None => inl TypeError_args
           end
      else scan_calls calls' mentorStatus
  end.

(** The loop over the parts: text parts are concatenated, the last
    inline image wins. *)
Fixpoint scan_parts (ps : list Part) (finalText : string) (imagePart : option string)
  : string * option string :=
  match ps with
  | [] => (finalText, imagePart)
  | p :: ps' =>
      let finalText' :=
        match part_text p with
        | Some t => if truthy t then finalText ++ t else finalText
        | None => finalText
        end in
      let imagePart' :=
        match inlineData p with
        | Some b => Some (data_url b)
        | None => imagePart
        end in
      scan_parts ps' finalText' imagePart'
  end.

Definition STATUS_ONLY_TEXT : string :=
  "I have updated my mentor status and am analyzing your logic further.".

(** What [sendMessageToGemini] makes of the response it awaited
    (everything after the [generateContent] call). *)
Definition read_response (response : GenerateContentResponse) : JsError + ChatResponse :=
  let functionCalls := option_map functionCalls_of (parts response) in
  let has_calls :=
    match functionCalls with
    | Some (_ :: _) => true
    | _ => false
    end in
  match (if has_calls
         then scan_calls (match functionCalls with Some l => l | None => [] end) None
         else inr None) with
  | inl e => inl e
  | inr mentorStatus =>
      let '(finalText, imagePart) :=
        scan_parts (match parts response with Some ps => ps | None => [] end)
                   EmptyString None in
      let finalText' :=
        if has_calls && negb (truthy finalText) then STATUS_ONLY_TEXT else finalText in
      inr (mkChatResponse finalText' mentorStatus imagePart)
  end.

(** [extractImage]: the first inline image of the response. *)
Fixpoint first_inline (ps : list Part) : option string :=
  match ps with
  | [] => None
  | p :: ps' =>
      match inlineData p with
      | Some b => Some (data_url b)
      | None => first_inline ps'
      end
  end.

Definition extractImage (response : GenerateContentResponse) : option string :=
  first_inline (match parts response with Some ps => ps | None => [] end).

(** [error.status === 403 || error.message?.includes('403') ||
    error.message?.includes('Permission denied')] *)
Definition permission_denied (e : JsError) : bool :=
  (match status e with Some 403%Z => true | _ => false end)
  || (match message e with Some m => includes "403" m | None => false end)
  || (match message e with Some m => includes "Permission denied" m | None => false end).

(** Both functions build their client before the request; a client
    that cannot be built makes the function fail as a failed request
    does, and is taken as one. *)
Section Service.
Variable env : Env.

Definition sendMessageToGemini
    (history : list Content) (currentMessage : string) (level : KnowledgeLevel)
  : M ChatResponse :=
  let contents := (history ++ [mkContent user currentMessage])%list in
  response <- await_generateContent env
                (ChatRequest "gemini-3-flash-preview" contents level) ;;
  match read_response response with
  | inl e => throw e
  | inr r => ret r
  end.

Definition generateImage (prompt size : string) : M (option string) :=
  try_catch
    (response <- await_generateContent env
                   (ImageRequest "gemini-3-pro-image-preview" prompt (Some size)) ;;
     ret (extractImage response))
    (fun error =>
       (if permission_denied error
        then
          console_warn "Pro image gen failed (403), falling back to Flash model." ;;
          try_catch
            (fallbackResponse <- await_generateContent env
                                   (ImageRequest "gemini-2.5-flash-image" prompt None) ;;
             ret (extractImage fallbackResponse))
            (fun fallbackError =>
               console_error "Fallback image gen error" ;;
               throw error)
        else
          console_error "Image gen error" ;;
          throw error)).

End Service.

End Gemini.

(* ===================================================================== *)
(** * The [App] component: [extractVisualization], [handleSendMessage] *)
(* ===================================================================== *)

Module App.
Import JsString Regex Types Eff Gemini.
Local Open Scope eff_scope.
Local Open Scope regex_scope.

(** [/```(?:mermaid|flowchart|text|sequenceDiagram)?\s*([\s\S]*?)```/gi] *)
Definition mermaidRegex : regex :=
  Lit "```"
  >> Opt (Lit "mermaid" <|> Lit "flowchart" <|> Lit "text" <|> Lit "sequenceDiagram")
  >> Star true CSpace
  >> Group 1 (Star false CAll)
  >> Lit "```".

(** [/\[CONCEPTUAL_VISUAL:\s*([^\]]+)\]/gi] *)
Definition conceptualRegex : regex :=
  Lit "[CONCEPTUAL_VISUAL:"
  >> Star true CSpace
  >> Group 1 (Plus (CNot "]"))
  >> Lit "]".

(** [/^(graph|flowchart|sequenceDiagram|classDiagram|stateDiagram|erDiagram|gantt|pie|gitGraph|journey|C4Context)/i] *)
Definition diagramRegex : regex :=
  Bol
  >> Group 1 (Lit "graph" <|> Lit "flowchart" <|> Lit "sequenceDiagram"
              <|> Lit "classDiagram" <|> Lit "stateDiagram" <|> Lit "erDiagram"
              <|> Lit "gantt" <|> Lit "pie" <|> Lit "gitGraph" <|> Lit "journey"
              <|> Lit "C4Context").

(** [/(give|write|show).*(code|answer|solution|full)/i] *)
Definition cheatRegex : regex :=
  Group 1 (Lit "give" <|> Lit "write" <|> Lit "show")
  >> Star true CDot
  >> Group 2 (Lit "code" <|> Lit "answer" <|> Lit "solution" <|> Lit "full").

(** [n.toString()] of an integer. *)
Definition toString (n : Z) : string :=
  DecimalString.NilZero.string_of_int (Z.to_int n).

(** The test on the content of a fenced block:
    [content.match(/^(graph|...)/i) || content.includes('-->')] *)
Definition looks_like_diagram (content : string) : bool :=
  test true diagramRegex content || includes "-->" content.

(** The anti-cheating test of [handleSendMessage]. *)
Definition asks_for_answer (messageText : string) : bool :=
  test true cheatRegex messageText
  && negb (includes "logic" (toLowerCase messageText))
  && negb (includes "explain" (toLowerCase messageText))
  && negb (includes "diagram" (toLowerCase messageText)).

Definition REJECTION_NOTICE : string :=
  "Think First! I cannot provide code directly. Let's discuss the logic.".

Definition PLACEHOLDER_TEXT : string :=
  "I see. Let's explore the structure of this logic.".

Definition ERROR_TEXT : string :=
  "Logical connection reset. Please rephrase.".

(** An optional string argument that is truthy: present and not
    empty.  For [customPrompt] this is what tells a quick-action
    prompt from a typed message. *)
Definition given (customPrompt : option string) : bool :=
  match customPrompt with Some p => truthy p | None => false end.

(** [customPrompt || input] *)
Definition messageText_of (customPrompt : option string) (input : string) : string :=
  match customPrompt with
  | Some p => if truthy p then p else input
  | None => input
  end.

(** [messages.map(m => ({ role: m.role, parts: [{ text: m.text }] }))] *)
Definition history_of (messages : list Message) : list Content :=
  List.map (fun m => mkContent (role m) (text m)) messages.

(** The state the component is mounted with; [welcome] is its greeting
    message. *)
Definition initialState (welcome : Message) : AppState :=
  mkApp [welcome] EmptyString false BEGINNER VISUALIZER (mkLogicDiagram [] None)
        false false "Think First! No direct code." chat false.

Section Callbacks.
Variable env : Env.

(** [{ id: `${tag}-${Date.now()}-${Math.random()}`, type, content,
    timestamp: Date.now() }] *)
Definition new_item (tag : string) (ty : VisualType) (content : string) : M VisualItem :=
  t <- Date_now env ;;
  r <- Math_random env ;;
  ts <- Date_now env ;;
  ret (mkVisualItem (tag ++ "-" ++ toString t ++ "-" ++ r) ty content ts).

(** The body of the [while] loop over the fenced blocks. *)
Definition mermaid_step (newItems : list VisualItem) (m : MatchResult)
  : M (list VisualItem) :=
  let content := trim (group 1 m) in
  if looks_like_diagram content
  then item <- new_item "mermaid" mermaid content ;;
       ret (newItems ++ [item])%list
  else ret newItems.

(** The body of the [for] loop over the [CONCEPTUAL_VISUAL] matches. *)
Definition conceptual_step (newItems : list VisualItem) (cMatch : MatchResult)
  : M (list VisualItem) :=
  let prompt := trim (group 1 cMatch) in
  modify (setIsGeneratingImage true) ;;
  try_finally
    (try_catch
       (conceptualImg <- generateImage env prompt "1K" ;;
        match conceptualImg with
        | Some img =>
            if truthy img
            then item <- new_item "concept" image img ;;
                 ret (newItems ++ [item])%list
            else ret newItems
        | None => ret newItems
        end)
       (fun e =>
          console_error "Conceptual image generation failed" ;;
          match aistudio env with
          | Some studio =>
              if permission_denied e
              then try_catch (await_openSelectKey studio)
                             (fun err => console_error EmptyString) ;;
                   ret newItems
              else ret newItems
          | None => ret newItems
          end))
    (modify (setIsGeneratingImage false)).

(** The [while] loop: the items of the fenced blocks of [text]. *)
Definition extract_diagrams (text : string) (newItems : list VisualItem)
  : M (list VisualItem) :=
  for_of (exec_all true mermaidRegex text) mermaid_step newItems.

(** The [for] loop: the directives of [text], resolved one after the
    other. *)
Definition resolve_images (text : string) (newItems : list VisualItem)
  : M (list VisualItem) :=
  let conceptualMatches := matchAll true conceptualRegex text in
  for_of conceptualMatches conceptual_step newItems.

(** [extractVisualization]: [newItems] is the local array the three
    parts push to, in this order. *)
Definition extractVisualization (text : string) (imagePart : option string) : M unit :=
  newItems <- extract_diagrams text [] ;;
  newItems <- match imagePart with
              | Some img =>
                  if truthy img
                  then item <- new_item "img" image img ;;
                       ret (newItems ++ [item])%list
                  else ret newItems
              | None => ret newItems
              end ;;
  newItems <- resolve_images text newItems ;;
  if (0 <? List.length newItems)%nat
  then modify (setVisualization
                 (fun prev => mkLogicDiagram (items prev ++ newItems) (title prev))) ;;
       modify (setActiveTab VISUALIZER) ;;
       modify (setMobileView workspace)
  else ret tt.

(** [handleSendMessage]: [input], [messages] and [knowledgeLevel] are
    those of the render the callback was made in, the state on entry;
    the two early [return]s are the first two branches. *)
Definition handleSendMessage (customPrompt : option string) : M unit :=
  a <- get_app ;;
  let messageText := messageText_of customPrompt (input a) in
  if negb (truthy (trim messageText)) then ret tt
  else if negb (given customPrompt) && asks_for_answer messageText
  then modify (setToastMessage REJECTION_NOTICE) ;;
       modify (setShowToast true)
  else
    t <- Date_now env ;;
    ts <- Date_now env ;;
    let newUserMsg := mkMessage (toString t) user messageText ts in
    modify (setMessages (fun prev => prev ++ [newUserMsg])%list) ;;
    (if negb (given customPrompt) then modify (setInput EmptyString) else ret tt) ;;
    modify (setIsLoading true) ;;
    try_finally
      (try_catch
         (let history := history_of (messages a) in
          response <- sendMessageToGemini env history (text newUserMsg)
                                          (knowledgeLevel a) ;;
          t <- Date_now env ;;
          ts <- Date_now env ;;
          let newAiMsg :=
            mkMessage (toString (t + 1)) model
                      (if truthy (response_text response)
                       then response_text response else PLACEHOLDER_TEXT)
                      ts in
          modify (setMessages (fun prev => prev ++ [newAiMsg])%list) ;;
          extractVisualization (response_text response) (imagePart response) ;;
          if strict_eq (mentorStatus response) "satisfied"
          then modify (setMentorMode true)
          else if strict_eq (mentorStatus response) "searching"
          then modify (setMentorMode false)
          else ret tt)
         (fun error =>
            console_error "API Error" ;;
            t <- Date_now env ;;
            ts <- Date_now env ;;
            modify (setMessages
                      (fun prev => prev ++ [mkMessage (toString t) model ERROR_TEXT ts])%list)))
      (modify (setIsLoading false)).

End Callbacks.

End App.

Unset Implicit Arguments.

(* ===================================================================== *)
(** * Vocabulary of the specification *)
(* ===================================================================== *)

Module Spec.
Import JsString Regex Types Eff Gemini App.
Local Open Scope regex_scope.

(** ** What a run may change *)

(** [steps w w']: between [w] and [w'] nothing of the conversation
    moved (messages, input, busy flag, level, mentor flag, notice) and
    the record of the outside only grew. *)
Record steps (w w' : World) : Prop := mkSteps {
  st_messages : messages (app w') = messages (app w);
  st_input : input (app w') = input (app w);
  st_isLoading : isLoading (app w') = isLoading (app w);
  st_level : knowledgeLevel (app w') = knowledgeLevel (app w);
  st_mentor : mentorMode (app w') = mentorMode (app w);
  st_showToast : showToast (app w') = showToast (app w);
  st_toast : toastMessage (app w') = toastMessage (app w);
  st_log : exists l, log w' = (log w ++ l)%list
}.

(** [keeps m]: whatever the outcome, [m] leaves the conversation alone. *)
Definition keeps {A} (m : M A) : Prop := forall w, steps w (snd (m w)).

(** [total m]: [m] completes normally from every world. *)
Definition total {A} (m : M A) : Prop := forall w, exists a, fst (m w) = Ok a.

(** The prompts of the image requests to the primary image model, in
    the order they went out. *)
Definition image_prompts (l : list Event) : list string :=
  flat_map (fun e =>
              match e with
              | EGenerateContent (ImageRequest m p _) =>
                  if (m =? "gemini-3-pro-image-preview")%string then [p] else []
              | _ => []
              end) l.

(** How many times the key selection of the host was opened. *)
Definition key_selections (l : list Event) : nat :=
  List.length (List.filter (fun e => match e with EOpenSelectKey => true | _ => false end) l).

(** ** The chat turn *)

(** The world a refused submission leaves: the notice is up, nothing
    else moved. *)
Definition rejected (w : World) : World :=
  mkWorld (setShowToast true (setToastMessage REJECTION_NOTICE (app w)))
          (sent w) (asked w) (ticks w) (log w).

(** The request of a chat turn for [messageText] from the state [a]. *)
Definition chat_request (a : AppState) (messageText : string) : Request :=
  ChatRequest "gemini-3-flash-preview"
              (history_of (messages a) ++ [mkContent user messageText])%list
              (knowledgeLevel a).

(** A submission passes the two guards of [handleSendMessage]. *)
Definition proceeds (customPrompt : option string) (a : AppState) : bool :=
  let messageText := messageText_of customPrompt (input a) in
  truthy (trim messageText)
  && (given customPrompt || negb (asks_for_answer messageText)).

(** The world in which the backend is called: the user turn is in the
    history, the input is cleared for a typed message, the busy flag
    is up. *)
Definition calling (env : Env) (customPrompt : option string) (w : World) : World :=
  let a := app w in
  let newUserMsg :=
    mkMessage (toString (date_now env (ticks w))) user
              (messageText_of customPrompt (input a)) (date_now env (S (ticks w))) in
  let a1 := setMessages (fun prev => prev ++ [newUserMsg])%list a in
  let a2 := if negb (given customPrompt) then setInput EmptyString a1 else a1 in
  mkWorld (setIsLoading true a2) (sent w) (asked w) (S (S (ticks w))) (log w).

(** The mentor flag after a turn whose response declared [st]. *)
Definition mentor_after (st : option string) (before : bool) : bool :=
  if strict_eq st "satisfied" then true
  else if strict_eq st "searching" then false
  else before.

(** The [updateMentorStatus] calls of a response, in order. *)
Definition mentor_status_calls (response : GenerateContentResponse) : list FunctionCall :=
  List.filter (fun c => strict_eq (name c) "updateMentorStatus")
              (functionCalls_of (match parts response with Some ps => ps | None => [] end)).

(** The [status] argument of a call, [None] when it has none. *)
Definition status_arg (c : FunctionCall) : option string :=
  match args c with Some st => st | None => None end.

(** What the response declares: the status of its last
    [updateMentorStatus] call, nothing when it has no such call. *)
Definition declared_status (response : GenerateContentResponse) : option string :=
  List.last (List.map status_arg (mentor_status_calls response)) None.

(** A response has text when some part carries a non-empty [text]. *)
Definition has_text (response : GenerateContentResponse) : bool :=
  existsb (fun p => match part_text p with Some t => truthy t | None => false end)
          (match parts response with Some ps => ps | None => [] end).

(** Every [updateMentorStatus] call carries its [args] object. *)
Definition calls_have_args (response : GenerateContentResponse) : bool :=
  List.forallb (fun c => match args c with Some _ => true | None => false end)
               (mentor_status_calls response).

(** ** The request test of the guard *)

Definition VERBS : list string := ["give"; "write"; "show"].
Definition NOUNS : list string := ["code"; "answer"; "solution"; "full"].

(** No line terminator in [v]. *)
Definition same_line (v : string) : bool :=
  forallb (fun b => negb (isLineTerminator b)) v.

(** A verb of the list and, later on the same line, a noun of the
    list, whatever the letter case. *)
Definition verb_then_noun (text : string) : Prop :=
  exists u verb0 verb v noun0 noun t,
    text = u ++ verb ++ v ++ noun ++ t
    /\ In verb0 VERBS /\ ci_eq verb0 verb = true
    /\ In noun0 NOUNS /\ ci_eq noun0 noun = true
    /\ same_line v = true.

(** A verb of the list and, anywhere later in the text, a noun of the
    list, whatever the letter case. *)
Definition verb_then_noun_anywhere (text : string) : Prop :=
  exists u verb0 verb v noun0 noun t,
    text = u ++ verb ++ v ++ noun ++ t
    /\ In verb0 VERBS /\ ci_eq verb0 verb = true
    /\ In noun0 NOUNS /\ ci_eq noun0 noun = true.

(** ** Fenced blocks and directives *)

Definition FENCE : string := "```".
Definition TAG : string := "[CONCEPTUAL_VISUAL:".

(** The language hints the fenced-block pattern lets follow a fence. *)
Definition HINTS : regex :=
  Lit "mermaid" <|> Lit "flowchart" <|> Lit "text" <|> Lit "sequenceDiagram".

(** The text after an opening fence without the language hint the
    pattern allows there. *)
Definition strip_hint (after : string) : string :=
  match strip_prefix true "mermaid" after with
  | Some s => s
  | None =>
      match strip_prefix true "flowchart" after with
      | Some s => s
      | None =>
          match strip_prefix true "text" after with
          | Some s => s
          | None =>
              match strip_prefix true "sequenceDiagram" after with
              | Some s => s
              | None => after
              end
          end
      end
  end.

(** What both loops make of a match: its first group, trimmed. *)
Definition payload (m : MatchResult) : string := trim (group 1 m).

(** The trimmed contents of the fenced blocks of a text. *)
Definition blocks (text : string) : list string :=
  List.map payload (exec_all true mermaidRegex text).

(** The diagram candidates of a text: the trimmed contents of its
    fenced blocks that pass the diagram test, in the order of the loop. *)
Definition diagram_candidates (text : string) : list string :=
  List.filter looks_like_diagram
    (List.map (fun m => trim (group 1 m)) (exec_all true mermaidRegex text)).

(** The image-request candidates of a text: the trimmed payloads of its
    directives, in the order of the loop. *)
Definition image_candidates (text : string) : list string :=
  List.map (fun m => trim (group 1 m)) (matchAll true conceptualRegex text).

(** No closing bracket in [s]. *)
Definition no_bracket (s : string) : bool :=
  forallb (fun b => negb (Ascii.eqb "]" b)) s.

(** No backtick in [s]. *)
Definition no_backtick (s : string) : bool :=
  forallb (fun b => negb (Ascii.eqb "`" b)) s.

(** The keywords of the diagram test. *)
Definition KEYWORDS : list string :=
  ["graph"; "flowchart"; "sequenceDiagram"; "classDiagram"; "stateDiagram";
   "erDiagram"; "gantt"; "pie"; "gitGraph"; "journey"; "C4Context"].

(** [Fenced text bodies]: the fenced blocks of [text], from left to
    right, hold [bodies].  A block runs from the first fence of the
    text, past the language hint the pattern allows, to the next fence;
    the blocks of what follows it come after; a fence that nothing
    closes opens no block. *)
Inductive Fenced : string -> list string -> Prop :=
| Fenced_none text :
    indexOf true FENCE text = None -> Fenced text []
| Fenced_open pre after :
    indexOf true FENCE (pre ++ FENCE ++ after) = Some (String.length pre) ->
    indexOf true FENCE after = None ->
    Fenced (pre ++ FENCE ++ after) []
| Fenced_block pre after body post bodies :
    indexOf true FENCE (pre ++ FENCE ++ after) = Some (String.length pre) ->
    strip_hint after = body ++ FENCE ++ post ->
    indexOf true FENCE (body ++ FENCE ++ post) = Some (String.length body) ->
    Fenced post bodies ->
    Fenced (pre ++ FENCE ++ after) (body :: bodies).

(** ** The feed *)

(** What the feed shows of an item. *)
Definition shown (it : VisualItem) : VisualType * string := (type it, content it).

(** The items an optional result stands for. *)
Definition of_option {A} (o : option A) : list A :=
  match o with Some a => [a] | None => [] end.

(** The inline image delivered with a response, as the feed shows it. *)
Definition inline_image (imagePart : option string) : list (VisualType * string) :=
  match imagePart with
  | Some img => if truthy img then [(image, img)] else []
  | None => []
  end.

(** The image a call of [generateImage] leaves for the feed: the one it
    returned, none when it threw or returned nothing. *)
Definition returned (r : Res (option string)) : list string :=
  match r with
  | Ok (Some img) => if truthy img then [img] else []
  | _ => []
  end.

(** The images [generateImage] returns for [prompts], asked for one
    after the other from the world [w] on: what a prompt gets depends
    on the requests that went out before it. *)
Fixpoint directive_images (env : Env) (prompts : list string) (w : World) : list string :=
  match prompts with
  | [] => []
  | prompt :: prompts' =>
      let r := generateImage env prompt "1K" w in
      (returned (fst r) ++ directive_images env prompts' (snd r))%list
  end.

(** ** Directives left open *)

(** Every tag of [s] is closed in [s]: no suffix of [s] starts with the
    tag, in any letter case, and holds no closing bracket.  A directive
    that follows such a text does not start inside an earlier one. *)
Fixpoint tags_closed (s : string) : bool :=
  match s with
  | EmptyString => true
  | String _ s' => negb (startsWith true TAG s && no_bracket s) && tags_closed s'
  end.

End Spec.

(* ===================================================================== *)
(** * Sample worlds *)
(* ===================================================================== *)

Module Samples.
Import JsString Regex Types Eff Gemini App Spec.

Definition QUOTE : string := String (ascii_of_nat 34) EmptyString.

(** [print("hello")] *)
Definition PRINT_HELLO : string := "print(" ++ QUOTE ++ "hello" ++ QUOTE ++ ")".

Definition welcome : Message := mkMessage "welcome" model "Greetings. I am Encrypt." 0.

(** The component as mounted, with [text] typed into the input. *)
Definition typing (text : string) : World :=
  mkWorld (setInput text (initialState welcome)) 0 0 0 [].

Definition clock (n : nat) : Z := (1700000000000 + Z.of_nat n)%Z.

Definition text_part (t : string) : Part := mkPart (Some t) None None.

Definition status_part (st : string) : Part :=
  mkPart None (Some (mkCall (Some "updateMentorStatus") (Some (Some st)))) None.

(** A backend that answers every request with a line of text. *)
Definition env_plain : Env :=
  mkEnv (fun _ _ => inr (mkResponse (Some [text_part "What is the base case?"])))
        None clock (fun _ => "0.5").

(** A backend that answers with a diagram and declares the learner
    satisfied. *)
Definition DIAGRAM_REPLY : string :=
  "Here: ```mermaid" ++ LF ++ "flowchart TD; A-->B``` Good.".

Definition env_satisfied : Env :=
  mkEnv (fun _ _ => inr (mkResponse (Some [text_part DIAGRAM_REPLY;
                                            status_part "satisfied"])))
        None clock (fun _ => "0.5").

(** A backend that is down. *)
Definition env_down : Env :=
  mkEnv (fun _ _ => inl (mkError (Some 500%Z) (Some "Internal error")))
        None clock (fun _ => "0.5").

(** A backend that denies every request, in a host without key
    selection. *)
Definition DENIED : JsError := mkError (Some 403%Z) (Some "Permission denied").

Definition env_denied : Env :=
  mkEnv (fun _ _ => inl DENIED) None clock (fun _ => "0.5").

(** A backend that answers every request with an inline image. *)
Definition env_image : Env :=
  mkEnv (fun _ _ => inr (mkResponse
                           (Some [mkPart None None
                                         (Some (mkBlob (Some "image/png") (Some "AAAA")))])))
        None clock (fun _ => "0.5").

(** A text whose directive comes before its diagram. *)
Definition DIRECTIVE_FIRST : string :=
  "[CONCEPTUAL_VISUAL: x] ```graph TD; A-->B```".

(** A text with a diagram block and a block of program text. *)
Definition TWO_BLOCKS : string :=
  "Flow: ```mermaid" ++ LF ++ "flowchart TD; A-->B``` and ```"
  ++ PRINT_HELLO ++ "``` done".

(** A response that only declares a status. *)
Definition STATUS_ONLY : GenerateContentResponse :=
  mkResponse (Some [status_part "searching"; status_part "satisfied"]).

(** A response that is one status call without its arguments, and a
    backend that answers with it. *)
Definition ARGLESS_STATUS : GenerateContentResponse :=
  mkResponse (Some [mkPart None (Some (mkCall (Some "updateMentorStatus") None)) None]).

Definition env_argless : Env :=
  mkEnv (fun _ _ => inr ARGLESS_STATUS) None clock (fun _ => "0.5").

(** A backend that answers an image request with an image that holds
    the prompt. *)
Definition env_echo : Env :=
  mkEnv (fun _ req =>
           match req with
           | ImageRequest _ prompt _ =>
               inr (mkResponse
                      (Some [mkPart None None
                                    (Some (mkBlob (Some "image/png") (Some prompt)))]))
           | ChatRequest _ _ _ => inr (mkResponse (Some [text_part "What is the base case?"]))
           end)
        None clock (fun _ => "0.5").

(** A text with a diagram between two directives. *)
Definition TWO_DIRECTIVES : string :=
  "[CONCEPTUAL_VISUAL: first] ```graph TD; A-->B``` [CONCEPTUAL_VISUAL: second]".

(** A block whose inner text starts with the keyword [flowchart], which
    is also a language hint, and one that starts with the hint [text]. *)
Definition HINTED_FLOWCHART : string := "flowchart LR" ++ LF ++ "A --- B".

Definition HINTED_TEXT : string := "text pieces of data".

End Samples.

(* ===================================================================== *)
(** * The template catalog ([src/types.ts], [src/constants.ts], [filteredTemplates]) *)
(* ===================================================================== *)

Module Catalog.
Import JsString Regex Types.

(** [TemplateCategory], and the string each member stands for. *)
Inductive TemplateCategory : Type :=
| ALL | CODING | ALGORITHMS | MATH | SCIENCE
| WRITING | SYSTEMS | DATABASE | PHILOSOPHY | ECONOMICS.

Definition value (c : TemplateCategory) : string :=
  match c with
  | ALL => "All"
  | CODING => "Coding"
  | ALGORITHMS => "Algorithms"
  | MATH => "Mathematics"
  | SCIENCE => "Science"
  | WRITING => "Writing"
  | SYSTEMS => "Systems"
  | DATABASE => "Database"
  | PHILOSOPHY => "Philosophy"
  | ECONOMICS => "Economics"
  end.

(** [a === b] of two members: the comparison of their strings. *)
Definition same_category (a b : TemplateCategory) : bool :=
  String.eqb (value a) (value b).

Record Template : Type := mkTemplate {
  tpl_id : string;
  tpl_title : string;
  description : string;
  tpl_content : string;
  category : TemplateCategory;
  isSynthesized : option bool
}.

(** [TEMPLATES] of [src/constants.ts] *)
Definition TEMPLATES : list Template :=
  [ mkTemplate "alg-1" "Recursive Function Model"
      "Structural template for thinking about recursive logic and base cases."
      ("FUNCTION RecursiveName(input):" ++ LF
       ++ "  1. BASE CASE:" ++ LF
       ++ "     IF (stop_condition) THEN:" ++ LF
       ++ "       RETURN simple_result" ++ LF
       ++ "  2. RECURSIVE STEP:" ++ LF
       ++ "     ELSE:" ++ LF
       ++ "       modified_input = change(input)" ++ LF
       ++ "       RETURN combine(input, RecursiveName(modified_input))")
      ALGORITHMS None;
    mkTemplate "alg-2" "Binary Search Logic"
      "Divide-and-conquer strategy for finding elements in a sorted array."
      ("BinarySearch(Array, Target):" ++ LF
       ++ "  low = 0, high = len - 1" ++ LF
       ++ "  WHILE low <= high:" ++ LF
       ++ "    mid = floor((low+high)/2)" ++ LF
       ++ "    IF Array[mid] == Target: RETURN mid" ++ LF
       ++ "    ELSE IF Array[mid] < Target: low = mid + 1" ++ LF
       ++ "    ELSE: high = mid - 1" ++ LF
       ++ "  RETURN NOT_FOUND")
      ALGORITHMS None;
    mkTemplate "math-1" "Proof by Induction"
      "Logical flow for proving a statement for all natural numbers."
      ("1. BASE CASE: Show P(1) is true." ++ LF
       ++ "2. INDUCTIVE HYPOTHESIS: Assume P(k) is true for some integer k." ++ LF
       ++ "3. INDUCTIVE STEP: Show that P(k) implies P(k+1)." ++ LF
       ++ "4. CONCLUSION: Therefore, P(n) is true for all n.")
      MATH None ].

Definition INITIAL_KNOWLEDGE_LEVEL : KnowledgeLevel := BEGINNER.

(** [s.split(re)] from the position of [s], for a pattern without
    capturing groups: the pattern is tried at every position in turn;
    a match that ends where the current piece starts is passed over;
    any other match closes the piece and the next one starts where the
    match ends.  [piece] is the piece so far, [skip] counts the code
    units of the last match still to be passed. *)
Fixpoint split_from (ic : bool) (input : string) (r : regex)
    (s piece : string) (skip : nat) : list string :=
  match s with
  | EmptyString => [piece]
  | String a t =>
      match skip with
      | S k => split_from ic input r t piece k
      | O =>
          match ms ic input r s [] with
          | (_, s') :: _ =>
              match String.length s - String.length s' with
              | O =>
                  match piece with
                  | EmptyString => split_from ic input r t (String a EmptyString) 0
                  | _ => piece :: split_from ic input r t (String a EmptyString) 0
                  end
              | S k => piece :: split_from ic input r t EmptyString k
              end
          | [] => split_from ic input r t (piece ++ String a EmptyString) 0
          end
      end
  end.

(** [text.split(re)]; of the empty string it is one empty piece unless
    the pattern matches the empty string. *)
Definition split (ic : bool) (r : regex) (text : string) : list string :=
  match text with
  | EmptyString =>
      match ms ic text r text [] with
      | [] => [EmptyString]
      | _ => []
      end
  | _ => split_from ic text r text EmptyString 0
  end.

(** [/\s+/] *)
Definition spacesRegex : regex := Plus CSpace.

(** [`${tpl.title} ${tpl.description} ${tpl.content}`.toLowerCase()] *)
Definition searchableText (tpl : Template) : string :=
  toLowerCase (tpl_title tpl ++ " " ++ description tpl ++ " " ++ tpl_content tpl).

(** [query.split(/\s+/).filter(k => k.length > 0)] *)
Definition keywords_of (query : string) : list string :=
  List.filter (fun k => (0 <? String.length k)%nat) (split false spacesRegex query).

(** The [useMemo] of [filteredTemplates], as a function of the three
    state variables it depends on. *)
Definition filteredTemplates
    (templateSearch : string) (selectedCategory : TemplateCategory)
    (sessionTemplates : list Template) : list Template :=
  let allTemplates := (TEMPLATES ++ sessionTemplates)%list in
  let list :=
    if negb (same_category selectedCategory ALL)
    then List.filter (fun tpl => same_category (category tpl) selectedCategory) allTemplates
    else allTemplates in
  let query := toLowerCase (trim templateSearch) in
  if negb (truthy query) then list
  else
    let keywords := keywords_of query in
    List.filter
      (fun tpl =>
         let searchableText := searchableText tpl in
         List.forallb (fun kw => includes kw searchableText) keywords)
      list.

End Catalog.

(* ===================================================================== *)
(** * The other handlers of the [App] component *)
(* ===================================================================== *)

Module Desk.
Import JsString Regex Types Eff Gemini App Samples Catalog.

(** The state of the component beside [AppState]: the template pane,
    the image pane, and the file input [fileInputRef] points to with
    its value ([None] while the input is not mounted). *)
Record Pane : Type := mkPane {
  sessionTemplates : list Template;
  templateSearch : string;
  selectedCategory : TemplateCategory;
  isSynthesizing : bool;
  imagePrompt : string;
  imageSize : string;
  generatedImageUrl : option string;
  fileInput : option string
}.

Definition setSessionTemplates (f : list Template -> list Template) (p : Pane) : Pane :=
  mkPane (f (sessionTemplates p)) (templateSearch p) (selectedCategory p)
         (isSynthesizing p) (imagePrompt p) (imageSize p) (generatedImageUrl p)
         (fileInput p).

Definition setIsSynthesizing (v : bool) (p : Pane) : Pane :=
  mkPane (sessionTemplates p) (templateSearch p) (selectedCategory p)
         v (imagePrompt p) (imageSize p) (generatedImageUrl p) (fileInput p).

Definition setGeneratedImageUrl (v : option string) (p : Pane) : Pane :=
  mkPane (sessionTemplates p) (templateSearch p) (selectedCategory p)
         (isSynthesizing p) (imagePrompt p) (imageSize p) v (fileInput p).

Definition setTemplateSearch (v : string) (p : Pane) : Pane :=
  mkPane (sessionTemplates p) v (selectedCategory p)
         (isSynthesizing p) (imagePrompt p) (imageSize p) (generatedImageUrl p)
         (fileInput p).

Definition setSelectedCategory (v : TemplateCategory) (p : Pane) : Pane :=
  mkPane (sessionTemplates p) (templateSearch p) v
         (isSynthesizing p) (imagePrompt p) (imageSize p) (generatedImageUrl p)
         (fileInput p).

Definition setImagePrompt (v : string) (p : Pane) : Pane :=
  mkPane (sessionTemplates p) (templateSearch p) (selectedCategory p)
         (isSynthesizing p) v (imageSize p) (generatedImageUrl p) (fileInput p).

Definition setImageSize (v : string) (p : Pane) : Pane :=
  mkPane (sessionTemplates p) (templateSearch p) (selectedCategory p)
         (isSynthesizing p) (imagePrompt p) v (generatedImageUrl p) (fileInput p).

(** [if (fileInputRef.current) fileInputRef.current.value = ''] *)
Definition resetFileInput (p : Pane) : Pane :=
  mkPane (sessionTemplates p) (templateSearch p) (selectedCategory p)
         (isSynthesizing p) (imagePrompt p) (imageSize p) (generatedImageUrl p)
         (match fileInput p with Some _ => Some EmptyString | None => None end).

Definition setKnowledgeLevel (v : KnowledgeLevel) (a : AppState) : AppState :=
  mkApp (messages a) (input a) (isLoading a) v (activeTab a)
        (visualization a) (mentorMode a) (showToast a) (toastMessage a)
        (mobileView a) (isGeneratingImage a).

(** The world of these handlers: that of the two callbacks, and the
    rest of the component state. *)
Record Desk : Type := mkDesk {
  world : World;
  pane : Pane
}.

(** An [async] handler over the whole of it. *)
Definition D (A : Type) : Type := Desk -> Res A * Desk.

Definition dret {A} (a : A) : D A := fun d => (Ok a, d).

Definition dbind {A B} (m : D A) (k : A -> D B) : D B :=
  fun d =>
    match m d with
    | (Ok a, d1) => k a d1
    | (Throw e, d1) => (Throw e, d1)
    end.

Definition dtry_catch {A} (body : D A) (handler : JsError -> D A) : D A :=
  fun d =>
    match body d with
    | (Ok a, d1) => (Ok a, d1)
    | (Throw e, d1) => handler e d1
    end.

Definition dtry_finally {A} (body : D A) (final : D unit) : D A :=
  fun d =>
    match body d with
    | (r, d1) =>
        match final d1 with
        | (Ok _, d2) => (r, d2)
        | (Throw e, d2) => (Throw e, d2)
        end
    end.

(** A computation of the two callbacks' world, run on that part. *)
Definition lift {A} (m : M A) : D A :=
  fun d =>
    match m (world d) with
    | (r, w) => (r, mkDesk w (pane d))
    end.

Definition get_pane : D Pane := fun d => (Ok (pane d), d).

Definition get_desk : D Desk := fun d => (Ok d, d).

Definition update (f : Pane -> Pane) : D unit :=
  fun d => (Ok tt, mkDesk (world d) (f (pane d))).

Declare Scope desk_scope.
Delimit Scope desk_scope with desk.
Notation "x <- m ;; k" := (dbind m (fun x => k))
  (at level 100, m at next level, right associativity) : desk_scope.
Notation "m ;; k" := (dbind m (fun _ => k))
  (at level 100, right associativity) : desk_scope.

(** [await studio.hasSelectedApiKey()]: a question to the host, which
    answers by the number of key selections there have been. *)
Definition await_hasSelectedApiKey (studio : AIStudio) : M bool :=
  fun w =>
    match hasSelectedApiKey studio (asked w) with
    | inr b => (Ok b, w)
    | inl e => (Throw e, w)
    end.

(** What the file input hands over: the name of a file and the text
    [readAsText] reads from it, [None] when the read fails and no
    [load] event comes. *)
Record File : Type := mkFile {
  file_name : string;
  file_text : option string
}.

Definition ANALOGY_PROMPT : string := "Explain this using a real-world analogy.".

Definition QUIZ_PROMPT : string := "Give me a short quiz to test my understanding.".

Definition REAL_WORLD_PROMPT : string := "How is this used in a real-world application?".

Definition VISUALIZE_PROMPT : string :=
  "Please provide an image or a diagram to explain the current concept. Appreciate it if you include a [CONCEPTUAL_VISUAL: ...] tag for a detailed vision.".

Definition UPLOAD_PLACEHOLDER : string := "File processed.".

Definition ACCESS_DENIED : string := "Access Denied. Please select a paid API Key.".

(** [`I've uploaded "${fileName}" for your structural review.`] *)
Definition upload_notice (fileName : string) : string :=
  "I've uploaded " ++ QUOTE ++ fileName ++ QUOTE ++ " for your structural review.".

(** [`Review this logic draft from file "${fileName}":\n\n${content}`] *)
Definition review_prompt (fileName content : string) : string :=
  "Review this logic draft from file " ++ QUOTE ++ fileName ++ QUOTE ++ ":"
  ++ LF ++ LF ++ content.

Section Handlers.
Variable env : Env.

Local Open Scope eff_scope.

Definition handleRequestVisualization : M unit :=
  handleSendMessage env (Some VISUALIZE_PROMPT).

(** The [onClick] of the four suggestion chips, by label. *)
Definition quickActions : list (string * M unit) :=
  [ ("Analogy", handleSendMessage env (Some ANALOGY_PROMPT));
    ("Quiz Me", handleSendMessage env (Some QUIZ_PROMPT));
    ("Real World", handleSendMessage env (Some REAL_WORLD_PROMPT));
    ("Visualize", handleRequestVisualization) ].

(** The [try] block of [reader.onload]. *)
Definition review (a : AppState) (fileName content : string) : M unit :=
  let history := history_of (messages a) in
  let prompt := review_prompt fileName content in
  response <- sendMessageToGemini env history prompt (knowledgeLevel a) ;;
  t <- Date_now env ;;
  ts <- Date_now env ;;
  let aiMsg :=
    mkMessage (toString (t + 1)) model
              (if truthy (response_text response)
               then response_text response else UPLOAD_PLACEHOLDER)
              ts in
  modify (setMessages (fun prev => prev ++ [aiMsg])%list) ;;
  extractVisualization env (response_text response) (imagePart response).

(** The [onClick] of [Append to Blueprint], which is there while
    [generatedImageUrl] holds an image. *)
Definition appendToBlueprint (generatedImageUrl : string) : M unit :=
  t <- Date_now env ;;
  ts <- Date_now env ;;
  let newItem := mkVisualItem ("gen-" ++ toString t) image generatedImageUrl ts in
  modify (setVisualization
            (fun prev => mkLogicDiagram (items prev ++ [newItem]) (title prev))) ;;
  modify (setActiveTab VISUALIZER) ;;
  modify (setMobileView workspace).

(** The key check [handleGenerateImage] starts with. *)
Definition ensureKey : M unit :=
  match aistudio env with
  | Some studio =>
      try_catch
        (hasKey <- await_hasSelectedApiKey studio ;;
         if negb hasKey then await_openSelectKey studio else ret tt)
        (fun e => console_error EmptyString)
  | None => ret tt
  end.

(** The [catch] block of [handleGenerateImage]. *)
Definition imageGenFailed (error : JsError) : M unit :=
  console_error "Image Gen Error" ;;
  match aistudio env with
  | Some studio =>
      if permission_denied error
      then try_catch
             (await_openSelectKey studio ;;
              modify (setToastMessage ACCESS_DENIED) ;;
              modify (setShowToast true))
             (fun e => console_error EmptyString)
      else ret tt
  | None => ret tt
  end.

Local Close Scope eff_scope.
Local Open Scope desk_scope.

(** [reader.onload]: [messages] and [knowledgeLevel] are those of the
    render the handler was made in, the state on entry. *)
Definition onload (fileName content : string) : D unit :=
  a <- lift get_app ;;
  t <- lift (Date_now env) ;;
  ts <- lift (Date_now env) ;;
  let userMsg := mkMessage (toString t) user (upload_notice fileName) ts in
  lift (modify (setMessages (fun prev => prev ++ [userMsg])%list)) ;;
  lift (modify (setIsLoading true)) ;;
  dtry_finally
    (dtry_catch
       (lift (review a fileName content))
       (fun err => lift (console_error EmptyString)))
    (lift (modify (setIsLoading false)) ;;
     update resetFileInput).

(** [handleFileUpload]: [files] is [e.target.files]. *)
Definition handleFileUpload (files : option (list File)) : D unit :=
  match files with
  | Some (file :: _) =>
      match file_text file with
      | Some content => onload (file_name file) content
      | None => dret tt
      end
  | _ => dret tt
  end.

(** [handleGenerateImage]: [imagePrompt] and [imageSize] are those of
    the render the handler was made in. *)
Definition handleGenerateImage : D unit :=
  p <- get_pane ;;
  if negb (truthy (trim (imagePrompt p))) then dret tt
  else
    lift ensureKey ;;
    lift (modify (setIsGeneratingImage true)) ;;
    dtry_finally
      (dtry_catch
         (base64Image <- lift (generateImage env (imagePrompt p) (imageSize p)) ;;
          match base64Image with
          | Some img =>
              if truthy img
              then
                t <- lift (Date_now env) ;;
                ts <- lift (Date_now env) ;;
                let newItem := mkVisualItem ("manual-" ++ toString t) image img ts in
                lift (modify (setVisualization
                                (fun prev => mkLogicDiagram (items prev ++ [newItem])
                                                            (title prev)))) ;;
                update (setGeneratedImageUrl (Some img)) ;;
                lift (modify (setActiveTab VISUALIZER)) ;;
                lift (modify (setMobileView workspace))
              else dret tt
          | None => dret tt
          end)
         (fun error => lift (imageGenFailed error)))
      (lift (modify (setIsGeneratingImage false))).

(** [handleSynthesize], for any [synthesizeTemplate]: the service call
    is a computation over the world outside the panes. *)
Definition handleSynthesize (synthesizeTemplate : string -> M Template) : D unit :=
  p <- get_pane ;;
  if negb (truthy (trim (templateSearch p))) then dret tt
  else
    update (setIsSynthesizing true) ;;
    dtry_finally
      (dtry_catch
         (newTpl <- lift (synthesizeTemplate (templateSearch p)) ;;
          update (setSessionTemplates (fun prev => newTpl :: prev)))
         (fun err => lift (console_error "Synthesis failed")))
      (update (setIsSynthesizing false)).

(** Whether a suggestion chip is disabled. *)
Definition chipDisabled (label : string) (a : AppState) : bool :=
  if String.eqb label "Visualize"
  then isLoading a || isGeneratingImage a
  else isLoading a.

(** The events of the page that reach a handler, as the render wires
    them: the message box and its send button, the suggestion chips,
    the level, tab and view switches, the closing of the notice, and
    the controls of the three panes, each of which is there only
    while its tab is the active one.  The copy button of a template,
    which only writes to the clipboard, is left out. *)
Inductive Action : Type :=
| ChangeInput (value : string)
| PressEnter
| ClickSend
| ClickChip (label : string)
| SelectLevel (level : KnowledgeLevel)
| SelectTab (tab : PaneTab)
| SelectView (view : MobileView)
| CloseToast
| ChangeSearch (value : string)
| SelectCategory (cat : TemplateCategory)
| ClickSynthesize
| ChooseFile (files : option (list File))
| ChangeImagePrompt (value : string)
| ChangeImageSize (value : string)
| ClickRender
| ClickAppend.

(** What the component does on an event.  A control that is disabled
    or not rendered passes nothing on. *)
Definition perform (synthesizeTemplate : string -> M Template) (action : Action)
  : D unit :=
  d <- get_desk ;;
  let a := app (world d) in
  let p := pane d in
  match action with
  | ChangeInput value => lift (modify (setInput value))
  | PressEnter => lift (handleSendMessage env None)
  | ClickSend =>
      if isLoading a || isGeneratingImage a || negb (truthy (trim (input a)))
      then dret tt
      else lift (handleSendMessage env None)
  | ClickChip label =>
      match List.find (fun chip => String.eqb (fst chip) label) quickActions with
      | Some (_, onClick) => if chipDisabled label a then dret tt else lift onClick
      | None => dret tt
      end
  | SelectLevel level => lift (modify (setKnowledgeLevel level))
  | SelectTab tab => lift (modify (setActiveTab tab))
  | SelectView view => lift (modify (setMobileView view))
  | CloseToast => lift (modify (setShowToast false))
  | ChangeSearch value =>
      match activeTab a with
      | Types.TEMPLATES => update (setTemplateSearch value)
      | _ => dret tt
      end
  | SelectCategory cat =>
      match activeTab a with
      | Types.TEMPLATES => update (setSelectedCategory cat)
      | _ => dret tt
      end
  | ClickSynthesize =>
      match activeTab a with
      | Types.TEMPLATES =>
          if (List.length (filteredTemplates (templateSearch p) (selectedCategory p)
                                             (sessionTemplates p)) =? 0)%nat
             && truthy (trim (templateSearch p))
             && negb (isSynthesizing p)
          then handleSynthesize synthesizeTemplate
          else dret tt
      | _ => dret tt
      end
  | ChooseFile files =>
      match activeTab a with
      | UPLOAD => handleFileUpload files
      | _ => dret tt
      end
  | ChangeImagePrompt value =>
      match activeTab a with
      | IMAGE_GEN => update (setImagePrompt value)
      | _ => dret tt
      end
  | ChangeImageSize value =>
      match activeTab a with
      | IMAGE_GEN => update (setImageSize value)
      | _ => dret tt
      end
  | ClickRender =>
      match activeTab a with
      | IMAGE_GEN =>
          if isGeneratingImage a || negb (truthy (trim (imagePrompt p)))
          then dret tt
          else handleGenerateImage
      | _ => dret tt
      end
  | ClickAppend =>
      match activeTab a with
      | IMAGE_GEN =>
          if isGeneratingImage a then dret tt
          else match generatedImageUrl p with
               | Some url => if truthy url then lift (appendToBlueprint url) else dret tt
               | None => dret tt
               end
      | _ => dret tt
      end
  end.

(** A session: the handlers of a list of events, each run to its end
    before the next. *)
Fixpoint session (synthesizeTemplate : string -> M Template) (actions : list Action)
  : D unit :=
  match actions with
  | [] => dret tt
  | action :: actions' =>
      perform synthesizeTemplate action ;; session synthesizeTemplate actions'
  end.

End Handlers.

End Desk.

(* ===================================================================== *)
(** * The feed renderer ([VisualRenderer] of [components/LogicVisualizer.tsx]) *)
(* ===================================================================== *)

Module Visualizer.
Import JsString Types Eff.

(** ** [encodeURIComponent] *)

(** The units [encodeURIComponent] leaves as they are: letters, digits
    and [- _ . ! ~ * ' ( )]. *)
Definition uriUnreserved (c : ascii) : bool :=
  in_range 65 90 c || in_range 97 122 c || in_range 48 57 c
  || existsb (Ascii.eqb c) (list_ascii_of_string "-_.!~*'()").

(** The UTF-8 encoding of a code unit up to U+00FF: itself below
    U+0080, two octets from there on. *)
Definition utf8 (c : ascii) : string :=
  if (code c <? 128)%nat then String c EmptyString
  else String (ascii_of_nat (192 + code c / 64))
         (String (ascii_of_nat (128 + code c mod 64)) EmptyString).

Definition hexDigit (n : nat) : ascii :=
  match get n "0123456789ABCDEF" with Some c => c | None => "0"%char end.

(** [%XY] for an octet. *)
Definition percent (b : ascii) : string :=
  String "%" (String (hexDigit (code b / 16)) (String (hexDigit (code b mod 16)) EmptyString)).

Fixpoint percent_all (s : string) : string :=
  match s with
  | EmptyString => EmptyString
  | String b s' => percent b ++ percent_all s'
  end.

(** A string of units up to U+00FF holds no surrogate, so the
    [URIError] of a lone surrogate does not arise. *)
Fixpoint encodeURIComponent (s : string) : string :=
  match s with
  | EmptyString => EmptyString
  | String c s' =>
      (if uriUnreserved c then String c EmptyString else percent_all (utf8 c))
      ++ encodeURIComponent s'
  end.

(** ** [unescape] *)

Definition hexValue (c : ascii) : option nat :=
  if in_range 48 57 c then Some (code c - 48)
  else if in_range 65 70 c then Some (code c - 55)
  else if in_range 97 102 c then Some (code c - 87)
  else None.

(** The number the first [n] units of [s] spell in hexadecimal. *)
Fixpoint hexDigits (n : nat) (s : string) (acc : nat) : option nat :=
  match n with
  | O => Some acc
  | S n' =>
      match s with
      | EmptyString => None
      | String c s' =>
          match hexValue c with
          | Some v => hexDigits n' s' (16 * acc + v)
          | None => None
          end
      end
  end.

(** What follows a [%]: the unit a [uXXXX] or [XX] there denotes, and
    how many units it takes. *)
Definition escape_at (s : string) : option (nat * nat) :=
  match s with
  | String c t =>
      if Ascii.eqb c "u"
      then option_map (fun n => (n, 5)) (hexDigits 4 t 0)
      else option_map (fun n => (n, 2)) (hexDigits 2 s 0)
  | EmptyString => None
  end.

(** [unescape] from the position of [s], with [skip] units of the last
    escape still to be passed; [None] when an escape denotes a unit
    above U+00FF, which a string here cannot hold and [btoa] rejects. *)
Fixpoint unescape_from (s : string) (skip : nat) : option string :=
  match s with
  | EmptyString => Some EmptyString
  | String c s' =>
      match skip with
      | S k => unescape_from s' k
      | O =>
          match (if Ascii.eqb c "%" then escape_at s' else None) with
          | Some (n, taken) =>
              if (n <? 256)%nat
              then option_map (String (ascii_of_nat n)) (unescape_from s' taken)
              else None
          | None => option_map (String c) (unescape_from s' 0)
          end
      end
  end.

Definition unescape (s : string) : option string := unescape_from s 0.

(** ** [btoa] *)

Definition base64Digit (n : nat) : ascii :=
  match get n "ABCDEFGHIJKLMNOPQRSTUVWXYZabcdefghijklmnopqrstuvwxyz0123456789+/" with
  | Some c => c
  | None => "="%char
  end.

(** [btoa] of a string of octets: three octets give four digits, and
    the last group is padded with [=]. *)
Fixpoint btoa (s : string) : string :=
  match s with
  | EmptyString => EmptyString
  | String a EmptyString =>
      String (base64Digit (code a / 4))
        (String (base64Digit (code a mod 4 * 16)) "==")
  | String a (String b EmptyString) =>
      String (base64Digit (code a / 4))
        (String (base64Digit (code a mod 4 * 16 + code b / 16))
           (String (base64Digit (code b mod 16 * 4)) "="))
  | String a (String b (String c t)) =>
      String (base64Digit (code a / 4))
        (String (base64Digit (code a mod 4 * 16 + code b / 16))
           (String (base64Digit (code b mod 16 * 4 + code c / 64))
              (String (base64Digit (code c mod 64)) (btoa t))))
  end.

Definition InvalidCharacterError : JsError :=
  mkError None (Some "InvalidCharacterError").

Local Open Scope eff_scope.

(** [btoa(unescape(encodeURIComponent(cleanCode)))] *)
Definition encode (cleanCode : string) : M string :=
  match unescape (encodeURIComponent cleanCode) with
  | Some octets => ret (btoa octets)
  | None => throw InvalidCharacterError
  end.

(** The [useMemo] of [imageUrl] in [VisualRenderer]. *)
Definition imageUrl (item : VisualItem) : M (option string) :=
  match type item with
  | image => ret (Some (content item))
  | mermaid =>
      try_catch
        (let cleanCode := trim (content item) in
         encoded <- encode cleanCode ;;
         ret (Some ("https://mermaid.ink/img/" ++ encoded ++ "?bgColor=ffffff")))
        (fun e =>
           console_error "Failed to encode mermaid diagram" ;;
           ret None)
  end.

(** ** Reading a payload back *)

(** The UTF-8 encoding of a string. *)
Fixpoint utf8_encode (s : string) : string :=
  match s with
  | EmptyString => EmptyString
  | String c s' => utf8 c ++ utf8_encode s'
  end.

Definition base64Value (c : ascii) : option nat :=
  if in_range 65 90 c then Some (code c - 65)
  else if in_range 97 122 c then Some (code c - 71)
  else if in_range 48 57 c then Some (code c + 4)
  else if Ascii.eqb c "+" then Some 62
  else if Ascii.eqb c "/" then Some 63
  else None.

(** Base64 read back: four digits give three octets, fewer for a
    padded last group. *)
Fixpoint base64_decode (s : string) : option string :=
  match s with
  | EmptyString => Some EmptyString
  | String x (String y (String z (String u t))) =>
      match base64Value x, base64Value y with
      | Some p, Some q =>
          let a := ascii_of_nat (p * 4 + q / 16) in
          match base64Value z, base64Value u, t with
          | Some r, Some v, _ =>
              option_map
                (fun rest =>
                   String a (String (ascii_of_nat (q mod 16 * 16 + r / 4))
                               (String (ascii_of_nat (r mod 4 * 64 + v)) rest)))
                (base64_decode t)
          | Some r, None, EmptyString =>
              if Ascii.eqb u "="
              then Some (String a (String (ascii_of_nat (q mod 16 * 16 + r / 4)) EmptyString))
              else None
          | None, None, EmptyString =>
              if Ascii.eqb z "=" && Ascii.eqb u "="
              then Some (String a EmptyString)
              else None
          | _, _, _ => None
          end
      | _, _ => None
      end
  | _ => None
  end.

(** The decoding of UTF-8 that stays within U+00FF, from the position
    of [s]; [pending] is the lead octet whose second octet comes next. *)
Fixpoint utf8_decode_from (s : string) (pending : option nat) : option string :=
  match s with
  | EmptyString =>
      match pending with
      | None => Some EmptyString
      | Some _ => None
      end
  | String b s' =>
      match pending with
      | Some hi =>
          if in_range 128 191 b
          then option_map (String (ascii_of_nat (hi * 64 + (code b - 128))))
                          (utf8_decode_from s' None)
          else None
      | None =>
          if (code b <? 128)%nat
          then option_map (String b) (utf8_decode_from s' None)
          else if in_range 194 195 b
          then utf8_decode_from s' (Some (code b - 192))
          else None
      end
  end.

Definition utf8_decode (s : string) : option string := utf8_decode_from s None.

(** The payload of a rendering URL: what lies between the address of
    the service and the query. *)
Definition payload_of (url : string) : option string :=
  match strip_prefix false "https://mermaid.ink/img/" url with
  | Some rest =>
      match indexOf false "?" rest with
      | Some i => Some (substring 0 i rest)
      | None => None
      end
  | None => None
  end.

(** A digit of base64 or its padding. *)
Definition base64Char (c : ascii) : bool :=
  match base64Value c with
  | Some _ => true
  | None => Ascii.eqb c "="
  end.

(** What the service reads out of a rendering URL: the payload, out of
    base64, out of UTF-8. *)
Definition read_back (url : string) : option string :=
  match payload_of url with
  | Some payload =>
      match base64_decode payload with
      | Some octets => utf8_decode octets
      | None => None
      end
  | None => None
  end.

End Visualizer.

(* ===================================================================== *)
(** * Vocabulary of the further properties *)
(* ===================================================================== *)

Module Terms.
Import JsString Regex Types Eff Gemini App Spec Catalog Desk Visualizer.

(** The inline images of the parts of a response, in order. *)
Definition inline_images (ps : list Part) : list string :=
  flat_map (fun p => of_option (option_map data_url (inlineData p))) ps.

(** The two image models of the service. *)
Definition PRO_MODEL : string := "gemini-3-pro-image-preview".
Definition FLASH_MODEL : string := "gemini-2.5-flash-image".

(** The backend requests of a record, in the order they went out. *)
Definition requests (l : list Event) : list Request :=
  flat_map (fun e => match e with EGenerateContent r => [r] | _ => [] end) l.

(** The request of a review of [content], uploaded as [fileName], from
    the state [a]. *)
Definition review_request (a : AppState) (fileName content : string) : Request :=
  ChatRequest "gemini-3-flash-preview"
              (history_of (messages a) ++ [mkContent user (review_prompt fileName content)])%list
              (knowledgeLevel a).

(** The world with the image flag down. *)
Definition flag_down (w : World) : World :=
  mkWorld (setIsGeneratingImage false (app w)) (sent w) (asked w) (ticks w) (log w).

(** The host offers key selection and says that no key is selected. *)
Definition lacks_key (env : Env) (w : World) : bool :=
  match aistudio env with
  | Some studio =>
      match hasSelectedApiKey studio (asked w) with
      | inr false => true
      | _ => false
      end
  | None => false
  end.

(** The state with the notice of a denied image request up. *)
Definition access_denied (a : AppState) : AppState :=
  setShowToast true (setToastMessage ACCESS_DENIED a).

(** After a failed image request the host's key selection is opened:
    the host offers it and the failure is a permission denial. *)
Definition selects_key (env : Env) (e : JsError) : bool :=
  match aistudio env with
  | Some _ => permission_denied e
  | None => false
  end.

(** The key selection opened after a failed image request resolves;
    [n] key selections came before it. *)
Definition key_selected (env : Env) (e : JsError) (n : nat) : bool :=
  match aistudio env with
  | Some studio =>
      permission_denied e
      && match openSelectKey studio n with None => true | Some _ => false end
  | None => false
  end.

(** From one state of the component to a later one the conversation
    and the feed only grew: what was there is still there, in place. *)
Definition grows (a a' : AppState) : Prop :=
  (exists more, messages a' = (messages a ++ more)%list)
  /\ (exists more, items (visualization a') = (items (visualization a) ++ more)%list).

(** The prompt of each suggestion chip, by its label. *)
Definition CHIP_PROMPTS : list (string * string) :=
  [ ("Analogy", ANALOGY_PROMPT);
    ("Quiz Me", QUIZ_PROMPT);
    ("Real World", REAL_WORLD_PROMPT);
    ("Visualize", VISUALIZE_PROMPT) ].

(** An event that submits a message to the chat. *)
Definition is_submission (action : Action) : bool :=
  match action with
  | PressEnter | ClickSend | ClickChip _ => true
  | _ => false
  end.

(** A service call that leaves the component alone. *)
Definition outside_only (synthesizeTemplate : string -> M Template) : Prop :=
  forall query w, app (snd (synthesizeTemplate query w)) = app w.

(** The words of a text: its maximal runs of units that are not white
    space, from left to right.  [word] is the run so far. *)
Fixpoint words_from (s word : string) : list string :=
  match s with
  | EmptyString => if (0 <? String.length word)%nat then [word] else []
  | String c s' =>
      if isWhiteSpace c
      then if (0 <? String.length word)%nat
           then word :: words_from s' EmptyString
           else words_from s' EmptyString
      else words_from s' (word ++ String c EmptyString)
  end.

Definition words (s : string) : list string := words_from s EmptyString.

(** A template mentions a word: its title, its description or its
    content holds it, letter case apart. *)
Definition mentions (tpl : Template) (kw : string) : bool :=
  includes kw (toLowerCase (tpl_title tpl))
  || includes kw (toLowerCase (description tpl))
  || includes kw (toLowerCase (tpl_content tpl)).

(** A template is listed for a search and a category: it is of the
    category, unless that is [ALL], and mentions every word of the
    search. *)
Definition listed (templateSearch : string) (selectedCategory : TemplateCategory)
    (tpl : Template) : bool :=
  (same_category selectedCategory ALL || same_category (category tpl) selectedCategory)
  && List.forallb (mentions tpl) (words (toLowerCase templateSearch)).

End Terms.
(* ===================================================================== *)
(** * Further sample worlds *)
(* ===================================================================== *)

Module Scenes.
Import JsString Regex Types Eff Gemini App Spec Samples Catalog Desk Visualizer Terms.

Definition IMAGE_REPLY : GenerateContentResponse :=
  mkResponse (Some [mkPart None None (Some (mkBlob (Some "image/png") (Some "AAAA")))]).

Definition IMAGE_URL : string := "data:image/png;base64,AAAA".

(** A backend whose primary image model refuses every request and
    whose other models answer with an inline image. *)
Definition env_fallback : Env :=
  mkEnv (fun _ req =>
           match req with
           | ImageRequest m _ _ =>
               if String.eqb m PRO_MODEL then inl DENIED else inr IMAGE_REPLY
           | ChatRequest _ _ _ => inr IMAGE_REPLY
           end)
        None clock (fun _ => "0.5").

(** A status call that carries no arguments, after a line of text. *)
Definition BARE_CALL : GenerateContentResponse :=
  mkResponse (Some [text_part "Well done.";
                    mkPart None (Some (mkCall (Some "updateMentorStatus") None)) None]).

Definition env_bare_call : Env :=
  mkEnv (fun _ _ => inr BARE_CALL) None clock (fun _ => "0.5").

(** A host that offers key selection, has no key selected, and whose
    selection resolves. *)
Definition studio : AIStudio := mkAIStudio (fun _ => inr false) (fun _ => None).

(** That host in front of a backend that answers with an inline image,
    and in front of one that refuses every request. *)
Definition env_studio : Env :=
  mkEnv (fun _ _ => inr IMAGE_REPLY) (Some studio) clock (fun _ => "0.5").

Definition env_studio_denied : Env :=
  mkEnv (fun _ _ => inl DENIED) (Some studio) clock (fun _ => "0.5").

(** The panes as mounted, with a search, a prompt for the canvas, and
    the file input holding a chosen file. *)
Definition panes (search prompt : string) : Pane :=
  mkPane [] search ALL false prompt "1K" None (Some "C:\fakepath\draft.txt").

(** The component as mounted, with these panes. *)
Definition desk (search prompt : string) : Desk :=
  mkDesk (typing EmptyString) (panes search prompt).

Definition DRAFT : File := mkFile "draft.txt" (Some "1. read the list 2. sort it").

(** The component with the upload pane in front. *)
Definition upload_desk : Desk :=
  mkDesk (mkWorld (setActiveTab UPLOAD (initialState welcome)) 0 0 0 [])
         (panes EmptyString EmptyString).

(** A service call that returns a template on tides. *)
Definition TIDES : Template :=
  mkTemplate "syn-1700000000000" "Tides" "How the moon raises the sea."
             "1. The moon pulls. 2. The water follows." SCIENCE (Some true).

Definition synthesize_tides (query : string) : M Template :=
  fun w => (Ok TIDES, w).

(** A visit: a question, then an image for the canvas, appended to the
    feed. *)
Definition VISIT : list Action :=
  [ChangeInput "Explain recursion"; PressEnter; SelectTab IMAGE_GEN;
   ChangeImagePrompt "a red cube"; ClickRender; ClickAppend].

End Scenes.

(* ===================================================================== *)
(** * Facts about strings *)
(* ===================================================================== *)

Module StringFacts.
Import JsString.

Lemma length_app (a b : string) :
  String.length (a ++ b) = String.length a + String.length b.
Proof. induction a as [|c a IH]; simpl; [reflexivity | now rewrite IH]. Qed.

Lemma app_assoc (a b c : string) : (a ++ b) ++ c = a ++ b ++ c.
Proof. induction a as [|x a IH]; simpl; [reflexivity | now rewrite IH]. Qed.

Lemma app_nil_r (a : string) : a ++ EmptyString = a.
Proof. induction a as [|x a IH]; simpl; [reflexivity | now rewrite IH]. Qed.

Lemma substring_0_app (a b : string) : substring 0 (String.length a) (a ++ b) = a.
Proof. induction a as [|x a IH]; simpl; [now destruct b | now rewrite IH]. Qed.

(** ** Prefixes *)

Lemma strip_prefix_split ic l s s' :
  strip_prefix ic l s = Some s' ->
  exists p, s = p ++ s' /\ String.length p = String.length l
            /\ strip_prefix ic l p = Some EmptyString.
Proof.
  revert s. induction l as [|a l IH]; intros s H; simpl in H.
  - injection H as <-. now exists EmptyString.
  - destruct s as [|b s]; [discriminate|].
    destruct (char_eq ic a b) eqn:E; [|discriminate].
    destruct (IH s H) as (p & -> & Hl & Hp).
    exists (String b p). simpl. rewrite E. auto.
Qed.

Lemma strip_prefix_app ic l p s :
  strip_prefix ic l p = Some EmptyString -> strip_prefix ic l (p ++ s) = Some s.
Proof.
  revert p. induction l as [|a l IH]; intros p H; simpl in *.
  - now injection H as ->.
  - destruct p as [|b p]; [discriminate|]. simpl.
    destruct (char_eq ic a b); [now apply IH | discriminate].
Qed.

Lemma strip_prefix_length ic l s s' :
  strip_prefix ic l s = Some s' ->
  String.length s = String.length l + String.length s'.
Proof.
  intros H. destruct (strip_prefix_split ic l s s' H) as (p & -> & Hl & _).
  now rewrite length_app, Hl.
Qed.

Lemma ci_eq_strip l p : ci_eq l p = true -> strip_prefix true l p = Some EmptyString.
Proof.
  revert p. induction l as [|a l IH]; intros [|b p] H; simpl in *;
    try discriminate; [reflexivity|].
  apply andb_true_iff in H as [-> H]. now apply IH.
Qed.

Lemma strip_prefix_ci_eq l p : strip_prefix true l p = Some EmptyString -> ci_eq l p = true.
Proof.
  revert p. induction l as [|a l IH]; intros [|b p] H; simpl in *;
    try discriminate; [reflexivity|].
  destruct (Ascii.eqb (canonicalize a) (canonicalize b)); [now apply IH | discriminate].
Qed.

Lemma startsWith_app ic l p s :
  strip_prefix ic l p = Some EmptyString -> startsWith ic l (p ++ s) = true.
Proof. intros H. unfold startsWith. now rewrite (strip_prefix_app _ _ _ s H). Qed.

(** ** First occurrences *)

Lemma indexOf_tail ic l a s n :
  indexOf ic l (String a s) = Some (S n) -> indexOf ic l s = Some n.
Proof.
  simpl. destruct (startsWith ic l (String a s)); [discriminate|].
  destruct (indexOf ic l s); simpl; congruence.
Qed.

Lemma indexOf_not_here ic l a s n :
  indexOf ic l (String a s) = Some (S n) -> startsWith ic l (String a s) = false.
Proof. simpl. now destruct (startsWith ic l (String a s)). Qed.

Lemma indexOf_here ic l s : indexOf ic l s = Some 0 -> startsWith ic l s = true.
Proof.
  destruct s as [|a s]; simpl.
  - now destruct (startsWith ic l EmptyString).
  - destruct (startsWith ic l (String a s)); [reflexivity|].
    destruct (indexOf ic l s); discriminate.
Qed.

Lemma indexOf_app ic l p s :
  indexOf ic l (p ++ s) = Some (String.length p) ->
  forall p1 p2, p = p1 ++ p2 -> indexOf ic l (p2 ++ s) = Some (String.length p2).
Proof.
  intros H p1. revert p H. induction p1 as [|a p1 IH]; intros p H p2 ->; [exact H|].
  simpl in H. apply (IH (p1 ++ p2)); [|reflexivity].
  rewrite length_app in *. eapply indexOf_tail. simpl. exact H.
Qed.

Lemma indexOf_none_tail ic l a s :
  indexOf ic l (String a s) = None ->
  startsWith ic l (String a s) = false /\ indexOf ic l s = None.
Proof.
  simpl. destruct (startsWith ic l (String a s)); [discriminate|].
  destruct (indexOf ic l s); simpl; [discriminate | auto].
Qed.

Lemma indexOf_none_here ic l s : indexOf ic l s = None -> startsWith ic l s = false.
Proof.
  destruct s as [|a s]; intros H.
  - simpl in H. now destruct (startsWith ic l EmptyString).
  - now apply indexOf_none_tail in H.
Qed.

Lemma includes_ci_false ic l s : includes_ci ic l s = false -> indexOf ic l s = None.
Proof. unfold includes_ci. now destruct (indexOf ic l s). Qed.

(** ** Trimming *)

Lemma trimStart_ws ws s :
  forallb isWhiteSpace ws = true -> trimStart (ws ++ s) = trimStart s.
Proof.
  induction ws as [|a ws IH]; simpl; [reflexivity|].
  intros H. apply andb_true_iff in H as [-> H]. now apply IH.
Qed.

Lemma trimStart_split s :
  exists ws, s = ws ++ trimStart s /\ forallb isWhiteSpace ws = true.
Proof.
  induction s as [|a s (ws & IH & Hws)]; simpl.
  - now exists EmptyString.
  - destruct (isWhiteSpace a) eqn:E.
    + exists (String a ws). simpl. rewrite E, Hws. now rewrite <- IH.
    + now exists EmptyString.
Qed.

Lemma trimStart_head s :
  match trimStart s with
  | EmptyString => True
  | String a _ => isWhiteSpace a = false
  end.
Proof.
  induction s as [|a s IH]; simpl; [exact I|].
  destruct (isWhiteSpace a) eqn:E; [exact IH | exact E].
Qed.

Lemma trimStart_app s a t :
  isWhiteSpace a = false -> trimStart (s ++ String a t) = trimStart s ++ String a t.
Proof.
  intros Ha. induction s as [|b s IH]; simpl; [now rewrite Ha|].
  destruct (isWhiteSpace b); [exact IH | reflexivity].
Qed.

Lemma trim_ws ws s : forallb isWhiteSpace ws = true -> trim (ws ++ s) = trim s.
Proof. intros H. unfold trim. now rewrite trimStart_ws. Qed.

Lemma trimStart_all_ws ws : forallb isWhiteSpace ws = true -> trimStart ws = EmptyString.
Proof.
  intros H. rewrite <- (app_nil_r ws). now rewrite trimStart_ws.
Qed.

Lemma trim_all_ws ws : forallb isWhiteSpace ws = true -> trim ws = EmptyString.
Proof. intros H. unfold trim. now rewrite trimStart_all_ws. Qed.

Lemma trim_trimStart s : trim (trimStart s) = trim s.
Proof.
  destruct (trimStart_split s) as (ws & Hs & Hws).
  rewrite Hs at 2. now rewrite trim_ws.
Qed.

Lemma forallb_app p a b : forallb p (a ++ b) = forallb p a && forallb p b.
Proof. induction a as [|x a IH]; simpl; [reflexivity|]. now rewrite IH, andb_assoc. Qed.

End StringFacts.

(* ===================================================================== *)
(** * Facts about the matcher *)
(* ===================================================================== *)

Module RegexFacts.
Import JsString Regex StringFacts.
Local Open Scope regex_scope.

Section Engine.
Variable ic : bool.
Variable input : string.

(** ** The quantifiers *)

Lemma star_greedy_suffix k s t :
  In t (star_greedy ic k s) -> exists p, s = p ++ t.
Proof.
  induction s as [|a s IH]; simpl.
  - intros [<-|[]]. now exists EmptyString.
  - destruct (cls_match ic k a).
    + intros H. apply in_app_or in H as [H|[<-|[]]].
      * destruct (IH H) as [p ->]. now exists (String a p).
      * now exists EmptyString.
    + intros [<-|[]]. now exists EmptyString.
Qed.

Lemma star_lazy_suffix k s t :
  In t (star_lazy ic k s) -> exists p, s = p ++ t.
Proof.
  induction s as [|a s IH]; simpl.
  - intros [<-|[]]. now exists EmptyString.
  - intros [<-|H]; [now exists EmptyString|].
    destruct (cls_match ic k a); [|destruct H].
    destruct (IH H) as [p ->]. now exists (String a p).
Qed.

Lemma plus_greedy_suffix k s t :
  In t (plus_greedy ic k s) -> exists a p, s = String a p ++ t.
Proof.
  destruct s as [|a s]; simpl; [intros []|].
  destruct (cls_match ic k a); [|intros []].
  intros H. destruct (star_greedy_suffix k s t H) as [p ->]. now exists a, p.
Qed.

Lemma star_greedy_app k p u :
  forallb (cls_match ic k) p = true ->
  exists l, star_greedy ic k (p ++ u) = (star_greedy ic k u ++ l)%list.
Proof.
  induction p as [|a p IH]; simpl; intros H.
  - exists []. now rewrite List.app_nil_r.
  - apply andb_true_iff in H as [-> H]. destruct (IH H) as [l ->].
    eexists. now rewrite <- List.app_assoc.
Qed.

Lemma star_greedy_stop k a u :
  cls_match ic k a = false -> star_greedy ic k (String a u) = [String a u].
Proof. intros H. simpl. now rewrite H. Qed.

Lemma star_greedy_in k p u :
  forallb (cls_match ic k) p = true -> In u (star_greedy ic k (p ++ u)).
Proof.
  intros H. destruct (star_greedy_app k p u H) as [l ->].
  apply in_or_app. left. destruct u as [|a u]; simpl; [now left|].
  destruct (cls_match ic k a); [apply in_or_app; right|]; now left.
Qed.

Lemma star_lazy_all s : star_lazy ic CAll s = s :: match s with
                                                  | EmptyString => []
                                                  | String _ s' => star_lazy ic CAll s'
                                                  end.
Proof. now destruct s. Qed.

(** ** Every result of a match is a suffix of where it started *)

Lemma ms_suffix r : forall s c x,
  In x (ms ic input r s c) -> exists p, s = p ++ snd x.
Proof.
  induction r as [l| |g k|k|r IH|r1 IH1 r2 IH2|r1 IH1 r2 IH2|n r IH]; intros s c x; simpl.
  - destruct (strip_prefix ic l s) as [s'|] eqn:E; [|intros []].
    intros [<-|[]]. destruct (strip_prefix_split ic l s s' E) as (p & -> & _).
    now exists p.
  - destruct (Nat.eqb _ _); [|intros []]. intros [<-|[]]. now exists EmptyString.
  - destruct g; intros H; apply in_map_iff in H as (t & <- & H); simpl.
    + now apply star_greedy_suffix in H.
    + now apply star_lazy_suffix in H.
  - intros H. apply in_map_iff in H as (t & <- & H); simpl.
    apply plus_greedy_suffix in H as (a & p & ->). now exists (String a p).
  - intros H. apply in_app_or in H as [H|[<-|[]]]; [now apply IH in H|now exists EmptyString].
  - intros H. apply in_app_or in H as [H|H]; [now apply IH1 in H|now apply IH2 in H].
  - intros H. apply in_flat_map in H as (y & Hy & H).
    apply IH1 in Hy as [p1 ->]. apply IH2 in H as [p2 E].
    exists (p1 ++ p2). rewrite StringFacts.app_assoc. now rewrite <- E.
  - intros H. apply in_map_iff in H as (y & <- & H). simpl. now apply IH in H.
Qed.

Lemma ms_length r s c x :
  In x (ms ic input r s c) -> String.length (snd x) <= String.length s.
Proof.
  intros H. destruct (ms_suffix r s c x H) as [p ->]. rewrite length_app. lia.
Qed.

Lemma consumed_app p s : consumed (p ++ s) s = p.
Proof.
  unfold consumed. rewrite length_app.
  replace (String.length p + String.length s - String.length s) with (String.length p) by lia.
  apply substring_0_app.
Qed.

(** ** Patterns that begin with a literal *)

Lemma ms_lit_seq_nil l r s c :
  startsWith ic l s = false -> ms ic input (Lit l >> r) s c = [].
Proof.
  unfold startsWith. simpl. now destruct (strip_prefix ic l s).
Qed.

Lemma ms_lit_seq l r p s c :
  strip_prefix ic l p = Some EmptyString ->
  ms ic input (Lit l >> r) (p ++ s) c = ms ic input r s c.
Proof.
  intros H. simpl. rewrite (strip_prefix_app ic l p s H). simpl.
  apply List.app_nil_r.
Qed.

Lemma consumes_lit a l r : consumes ic input (Lit (String a l) >> r).
Proof.
  intros s c x. simpl.
  destruct s as [|b s]; [intros []|].
  destruct (char_eq ic a b); [|intros []].
  destruct (strip_prefix ic l s) as [s'|] eqn:E; [|intros []].
  simpl. rewrite List.app_nil_r. intros H. apply ms_length in H.
  apply strip_prefix_length in E. simpl. lia.
Qed.

(** ** Searching *)

Lemma search_here r s c s' l :
  ms ic input r s [] = (c, s') :: l ->
  search ic input r s =
  Some (mkMatch (String.length input - String.length s) c (consumed s s') s').
Proof. intros H. destruct s; simpl; now rewrite H. Qed.

Lemma search_next r a s :
  ms ic input r (String a s) [] = [] ->
  search ic input r (String a s) = search ic input r s.
Proof. intros H. simpl. now rewrite H. Qed.

Lemma search_lit_skip l r p s :
  indexOf ic l (p ++ s) = Some (String.length p) ->
  search ic input (Lit l >> r) (p ++ s) = search ic input (Lit l >> r) s.
Proof.
  induction p as [|a p IH]; intros H; [reflexivity|].
  change (String a p ++ s) with (String a (p ++ s)) in *.
  rewrite search_next.
  - apply IH. simpl String.length in H. now apply indexOf_tail in H.
  - apply ms_lit_seq_nil. simpl String.length in H. now apply indexOf_not_here in H.
Qed.

Lemma search_lit_none l r s :
  indexOf ic l s = None -> search ic input (Lit l >> r) s = None.
Proof.
  induction s as [|a s IH]; intros H.
  - cbn [search]. rewrite ms_lit_seq_nil; [reflexivity | now apply indexOf_none_here].
  - apply indexOf_none_tail in H as [H1 H2].
    rewrite search_next; [now apply IH | now apply ms_lit_seq_nil].
Qed.

Lemma search_some r p s :
  ms ic input r s [] <> [] -> search ic input r (p ++ s) <> None.
Proof.
  intros H. induction p as [|a p IH]; simpl.
  - destruct (ms ic input r s []) as [|[c s'] l] eqn:E; [congruence|].
    now erewrite search_here by eassumption.
  - destruct (ms ic input r (String a (p ++ s)) []) as [|[c s'] l]; [exact IH | discriminate].
Qed.

(** ** The two loops *)

Lemma matchAll_from_skip r p s :
  matchAll_from ic input r (p ++ s) (String.length p) = matchAll_from ic input r s 0.
Proof. induction p as [|a p IH]; simpl; [now destruct s | exact IH]. Qed.

Lemma matchAll_from_search r s :
  consumes ic input r ->
  matchAll_from ic input r s 0 =
  match search ic input r s with
  | None => []
  | Some m => m :: matchAll_from ic input r (rest m) 0
  end.
Proof.
  intros Hc. induction s as [|a s IH].
  - simpl. destruct (ms ic input r EmptyString []) as [|x l] eqn:E; [reflexivity|].
    specialize (Hc EmptyString [] x). rewrite E in Hc. simpl in Hc. specialize (Hc (or_introl eq_refl)). lia.
  - cbn [matchAll_from search].
    destruct (ms ic input r (String a s) []) as [|[c s'] l] eqn:E; [exact IH|].
    f_equal. cbn [rest].
    destruct (ms_suffix r (String a s) [] (c, s')) as [p Hp]; [rewrite E; now left|].
    simpl in Hp.
    pose proof (Hc (String a s) [] (c, s')) as Hlt. rewrite E in Hlt.
    specialize (Hlt (or_introl eq_refl)). simpl in Hlt.
    destruct p as [|b p]; simpl in Hp.
    + subst s'. simpl in Hlt. lia.
    + injection Hp as <- ->. cbn [String.length]. rewrite length_app.
      replace (S (String.length p + String.length s') - String.length s' - 1)
        with (String.length p) by lia.
      apply matchAll_from_skip.
Qed.

Lemma search_shorter r s m :
  consumes ic input r -> search ic input r s = Some m ->
  String.length (rest m) < String.length s.
Proof.
  intros Hc. induction s as [|a s IH]; simpl.
  - destruct (ms ic input r EmptyString []) as [|[c s'] l] eqn:E; [discriminate|].
    intros [= <-]. simpl. specialize (Hc EmptyString [] (c, s')). rewrite E in Hc.
    now specialize (Hc (or_introl eq_refl)).
  - destruct (ms ic input r (String a s) []) as [|[c s'] l] eqn:E.
    + intros H. specialize (IH H). lia.
    + intros [= <-]. simpl. specialize (Hc (String a s) [] (c, s')). rewrite E in Hc.
      now specialize (Hc (or_introl eq_refl)).
Qed.

(** The [exec] loop of a pattern that never matches the empty string
    stops, and goes through the matches [matchAll] lists. *)
Lemma exec_loop_matchAll r :
  consumes ic input r ->
  forall fuel s, String.length s < fuel ->
    exec_loop ic input fuel r s = Some (matchAll_from ic input r s 0).
Proof.
  intros Hc. induction fuel as [|fuel IH]; intros s Hs; [lia|].
  simpl. rewrite (matchAll_from_search r s Hc).
  destruct (search ic input r s) as [m|] eqn:E; [|reflexivity].
  rewrite IH; [reflexivity|].
  pose proof (search_shorter r s m Hc E). lia.
Qed.

(** ** Matches come in the order of the text *)

Lemma matchAll_from_index r : forall s k m,
  String.length s <= String.length input ->
  In m (matchAll_from ic input r s k) ->
  String.length input - String.length s + k <= index m.
Proof.
  induction s as [|a s IH]; intros k m Hs; simpl.
  - destruct k; [|intros []].
    destruct (ms ic input r EmptyString []) as [|[c s'] l]; [intros []|].
    intros [<-|[]]. simpl. lia.
  - simpl in Hs. destruct k as [|k].
    + destruct (ms ic input r (String a s) []) as [|[c s'] l].
      * intros H. apply IH in H; lia.
      * intros [<-|H]; [simpl; lia|]. apply IH in H; lia.
    + intros H. apply IH in H; lia.
Qed.

Lemma matchAll_from_sorted r : forall s k,
  String.length s <= String.length input ->
  StronglySorted lt (List.map index (matchAll_from ic input r s k)).
Proof.
  induction s as [|a s IH]; intros k Hs; simpl.
  - destruct k; [|constructor].
    destruct (ms ic input r EmptyString []) as [|[c s'] l]; repeat constructor.
  - simpl in Hs. destruct k as [|k]; [|apply IH; lia].
    destruct (ms ic input r (String a s) []) as [|[c s'] l]; [apply IH; lia|].
    simpl. constructor; [apply IH; lia|].
    apply Forall_forall. intros i Hi. apply in_map_iff in Hi as (m & <- & Hm).
    apply matchAll_from_index in Hm; lia.
Qed.

(** ** Chains of patterns *)

Lemma flat_map_nil A B (f : A -> list B) l :
  (forall x, In x l -> f x = []) -> flat_map f l = [].
Proof.
  induction l as [|a l IH]; intros H; simpl; [reflexivity|].
  rewrite (H a (or_introl eq_refl)). apply IH. intros x Hx. apply H. now right.
Qed.

Lemma flat_map_hd A B (f : A -> list B) a l y l' :
  f a = y :: l' -> hd_error (flat_map f (a :: l)) = Some y.
Proof. intros H. simpl. now rewrite H. Qed.

Lemma flat_map_hd_skip A B (f : A -> list B) a l :
  f a = [] -> hd_error (flat_map f (a :: l)) = hd_error (flat_map f l).
Proof. intros H. simpl. now rewrite H. Qed.

Lemma hd_error_cons A (l : list A) y : hd_error l = Some y -> exists l', l = y :: l'.
Proof. destruct l; intros [= <-]. now eexists. Qed.

(** A sequence fails where its second part fails after every way the
    first part can match. *)
Lemma ms_seq_nil r1 r2 s c :
  (forall p t c', s = p ++ t -> ms ic input r2 t c' = []) ->
  ms ic input (r1 >> r2) s c = [].
Proof.
  intros H. simpl. apply flat_map_nil. intros x Hx.
  destruct (ms_suffix r1 s c x Hx) as [p Hp]. now apply (H p).
Qed.

Lemma ms_lit_nil l s c :
  startsWith ic l s = false -> ms ic input (Lit l) s c = [].
Proof. unfold startsWith. simpl. now destruct (strip_prefix ic l s). Qed.

Lemma indexOf_none_suffix l p t :
  indexOf ic l (p ++ t) = None -> indexOf ic l t = None.
Proof.
  induction p as [|a p IH]; intros H; [exact H|].
  apply IH. now apply (indexOf_none_tail ic l a (p ++ t)) in H.
Qed.

Lemma startsWith_none_suffix l p t :
  indexOf ic l (p ++ t) = None -> startsWith ic l t = false.
Proof. intros H. apply indexOf_none_here. now apply indexOf_none_suffix in H. Qed.

(** ** Where a match was found *)

Lemma matchAll_from_origin r : forall s k m,
  In m (matchAll_from ic input r s k) ->
  exists p t l, s = p ++ t
    /\ ms ic input r t [] = (groups m, rest m) :: l
    /\ index m = String.length input - String.length t.
Proof.
  induction s as [|a s IH]; intros k m; simpl.
  - destruct k; [|intros []].
    destruct (ms ic input r EmptyString []) as [|[c s'] l] eqn:E; [intros []|].
    intros [<-|[]]. exists EmptyString, EmptyString, l. simpl. auto.
  - destruct k as [|k].
    + destruct (ms ic input r (String a s) []) as [|[c s'] l] eqn:E.
      * intros H. apply IH in H as (p & t & l' & -> & H1 & H2).
        now exists (String a p), t, l'.
      * intros [<-|H].
        -- exists EmptyString, (String a s), l. simpl. auto.
        -- apply IH in H as (p & t & l' & -> & H1 & H2).
           now exists (String a p), t, l'.
    + intros H. apply IH in H as (p & t & l' & -> & H1 & H2).
      now exists (String a p), t, l'.
Qed.

End Engine.

(** ** Patterns without [^] match the same whatever the input around *)

Lemma ms_input ic i1 i2 r : bol_free r = true ->
  forall s c, ms ic i1 r s c = ms ic i2 r s c.
Proof.
  induction r as [l| |g k|k|r IH|r1 IH1 r2 IH2|r1 IH1 r2 IH2|n r IH];
    simpl; intros Hb s c; try reflexivity; try discriminate.
  - now rewrite IH.
  - apply andb_true_iff in Hb as [H1 H2]. now rewrite IH1, IH2.
  - apply andb_true_iff in Hb as [H1 H2]. rewrite IH1 by assumption.
    apply flat_map_ext. intros x. now apply IH2.
  - now rewrite IH.
Qed.

Lemma matchAll_from_input ic i1 i2 r : bol_free r = true ->
  forall s k,
    List.map unplaced (matchAll_from ic i1 r s k) =
    List.map unplaced (matchAll_from ic i2 r s k).
Proof.
  intros Hb. induction s as [|a s IH]; intros k; simpl.
  - destruct k; [|reflexivity]. rewrite (ms_input ic i1 i2 r Hb).
    now destruct (ms ic i2 r EmptyString []) as [|[c s'] l].
  - destruct k as [|k]; [|apply IH]. rewrite (ms_input ic i1 i2 r Hb).
    destruct (ms ic i2 r (String a s) []) as [|[c s'] l]; [apply IH|].
    simpl. unfold unplaced at 1 3. simpl. now rewrite IH.
Qed.

End RegexFacts.

(* ===================================================================== *)
(** * What the callbacks leave alone, and that they complete *)
(* ===================================================================== *)

Module EffFacts.
Import JsString Regex Types Eff Gemini App Spec.
Local Open Scope eff_scope.

Lemma steps_refl w : steps w w.
Proof. constructor; try reflexivity. exists []. now rewrite app_nil_r. Qed.

Lemma steps_trans w1 w2 w3 : steps w1 w2 -> steps w2 w3 -> steps w1 w3.
Proof.
  intros [a1 a2 a3 a4 a5 a6 a7 [l1 a8]] [b1 b2 b3 b4 b5 b6 b7 [l2 b8]].
  constructor; try congruence.
  exists (l1 ++ l2)%list. rewrite b8, a8. now rewrite app_assoc.
Qed.

Lemma keeps_ret A (a : A) : keeps (ret a).
Proof. intros w. apply steps_refl. Qed.

Lemma keeps_throw A e : keeps (@throw A e).
Proof. intros w. apply steps_refl. Qed.

Lemma keeps_bind A B (m : M A) (k : A -> M B) :
  keeps m -> (forall a, keeps (k a)) -> keeps (bind m k).
Proof.
  intros Hm Hk w. unfold bind. specialize (Hm w).
  destruct (m w) as [[a|e] w1]; simpl in *; auto.
  eapply steps_trans; [exact Hm | apply Hk].
Qed.

Lemma keeps_try_catch A (m : M A) h :
  keeps m -> (forall e, keeps (h e)) -> keeps (try_catch m h).
Proof.
  intros Hm Hh w. unfold try_catch. specialize (Hm w).
  destruct (m w) as [[a|e] w1]; simpl in *; auto.
  eapply steps_trans; [exact Hm | apply Hh].
Qed.

Lemma keeps_try_finally A (m : M A) f :
  keeps m -> keeps f -> keeps (try_finally m f).
Proof.
  intros Hm Hf w. unfold try_finally. specialize (Hm w).
  destruct (m w) as [r w1]; simpl in *. specialize (Hf w1).
  destruct (f w1) as [[u|e] w2]; simpl in *; eapply steps_trans; eauto.
Qed.

Lemma keeps_for_of X A (body : A -> X -> M A) l :
  (forall acc x, keeps (body acc x)) -> forall acc, keeps (for_of l body acc).
Proof.
  intros Hb. induction l as [|x l IH]; intros acc; simpl.
  - apply keeps_ret.
  - apply keeps_bind; auto.
Qed.

Lemma total_ret A (a : A) : total (ret a).
Proof. intros w. now exists a. Qed.

Lemma total_bind A B (m : M A) (k : A -> M B) :
  total m -> (forall a, total (k a)) -> total (bind m k).
Proof.
  intros Hm Hk w. unfold bind. destruct (Hm w) as [a Ha].
  destruct (m w) as [[a'|e] w1]; simpl in *; try discriminate. apply Hk.
Qed.

Lemma total_try_catch A (m : M A) h :
  (forall e, total (h e)) -> total (try_catch m h).
Proof.
  intros Hh w. unfold try_catch.
  destruct (m w) as [[a|e] w1]; simpl; [now exists a | apply Hh].
Qed.

Lemma total_try_finally A (m : M A) f :
  total m -> total f -> total (try_finally m f).
Proof.
  intros Hm Hf w. unfold try_finally. destruct (Hm w) as [a Ha].
  destruct (m w) as [r w1]; simpl in *. destruct (Hf w1) as [u Hu].
  destruct (f w1) as [[u'|e] w2]; simpl in *; try discriminate. now exists a.
Qed.

Lemma total_for_of X A (body : A -> X -> M A) l :
  (forall acc x, total (body acc x)) -> forall acc, total (for_of l body acc).
Proof.
  intros Hb. induction l as [|x l IH]; intros acc; simpl.
  - apply total_ret.
  - apply total_bind; auto.
Qed.

Lemma image_prompts_app l1 l2 :
  image_prompts (l1 ++ l2) = (image_prompts l1 ++ image_prompts l2)%list.
Proof. unfold image_prompts. apply flat_map_app. Qed.

Lemma key_selections_app l1 l2 :
  key_selections (l1 ++ l2) = key_selections l1 + key_selections l2.
Proof. unfold key_selections. now rewrite filter_app, length_app. Qed.

Section Atomic.
Variable env : Env.

Lemma steps_same_app w w' l :
  app w' = app w -> log w' = (log w ++ l)%list -> steps w w'.
Proof. intros Ha Hl. constructor; try (now rewrite Ha). now exists l. Qed.

Lemma keeps_modify f :
  (forall a, messages (f a) = messages a /\ input (f a) = input a
             /\ isLoading (f a) = isLoading a /\ knowledgeLevel (f a) = knowledgeLevel a
             /\ mentorMode (f a) = mentorMode a /\ showToast (f a) = showToast a
             /\ toastMessage (f a) = toastMessage a) ->
  keeps (modify f).
Proof.
  intros H w. destruct (H (app w)) as (h1 & h2 & h3 & h4 & h5 & h6 & h7).
  constructor; simpl; auto. exists []. now rewrite app_nil_r.
Qed.

Lemma keeps_Date_now : keeps (Date_now env).
Proof. intros w. apply steps_same_app with (l := []); simpl; auto using app_nil_r. Qed.

Lemma keeps_Math_random : keeps (Math_random env).
Proof. intros w. apply steps_same_app with (l := []); simpl; auto using app_nil_r. Qed.

Lemma keeps_console_error s : keeps (console_error s).
Proof. intros w. now apply steps_same_app with (l := [EConsoleError s]). Qed.

Lemma keeps_console_warn s : keeps (console_warn s).
Proof. intros w. now apply steps_same_app with (l := [EConsoleWarn s]). Qed.

Lemma keeps_await_generateContent req : keeps (await_generateContent env req).
Proof.
  intros w. unfold await_generateContent.
  destruct (generateContent env (sent w) req);
    now apply steps_same_app with (l := [EGenerateContent req]).
Qed.

Lemma keeps_await_openSelectKey studio : keeps (await_openSelectKey studio).
Proof.
  intros w. unfold await_openSelectKey.
  destruct (openSelectKey studio (asked w));
    now apply steps_same_app with (l := [EOpenSelectKey]).
Qed.

Lemma total_modify f : total (modify f).
Proof. intros w. now exists tt. Qed.

Lemma total_Date_now : total (Date_now env).
Proof. intros w. now eexists. Qed.

Lemma total_Math_random : total (Math_random env).
Proof. intros w. now eexists. Qed.

Lemma total_console_error s : total (console_error s).
Proof. intros w. now exists tt. Qed.

Lemma keeps_new_item tag ty c : keeps (new_item env tag ty c).
Proof.
  unfold new_item.
  repeat (apply keeps_bind; [auto using keeps_Date_now, keeps_Math_random | intros ?]).
  apply keeps_ret.
Qed.

Lemma total_new_item tag ty c : total (new_item env tag ty c).
Proof.
  unfold new_item.
  repeat (apply total_bind; [auto using total_Date_now, total_Math_random | intros ?]).
  apply total_ret.
Qed.

Lemma keeps_generateImage p s : keeps (generateImage env p s).
Proof.
  unfold generateImage. apply keeps_try_catch.
  - apply keeps_bind; [apply keeps_await_generateContent | intros; apply keeps_ret].
  - intros e. destruct (permission_denied e).
    + apply keeps_bind; [apply keeps_console_warn | intros _].
      apply keeps_try_catch.
      * apply keeps_bind; [apply keeps_await_generateContent | intros; apply keeps_ret].
      * intros e'. apply keeps_bind; [apply keeps_console_error | intros; apply keeps_throw].
    + apply keeps_bind; [apply keeps_console_error | intros; apply keeps_throw].
Qed.

Ltac feed_setter :=
  let a := fresh "a" in intros a; repeat split; reflexivity.

Lemma keeps_conceptual_step acc m : keeps (conceptual_step env acc m).
Proof.
  unfold conceptual_step.
  apply keeps_bind; [apply keeps_modify; feed_setter | intros _].
  apply keeps_try_finally; [| apply keeps_modify; feed_setter].
  apply keeps_try_catch.
  - apply keeps_bind; [apply keeps_generateImage | intros [img|]].
    + destruct (truthy img); [| apply keeps_ret].
      apply keeps_bind; [apply keeps_new_item | intros; apply keeps_ret].
    + apply keeps_ret.
  - intros e. apply keeps_bind; [apply keeps_console_error | intros _].
    destruct (aistudio env) as [studio|]; [| apply keeps_ret].
    destruct (permission_denied e); [| apply keeps_ret].
    apply keeps_bind; [| intros; apply keeps_ret].
    apply keeps_try_catch; [apply keeps_await_openSelectKey |].
    intros; apply keeps_console_error.
Qed.

Lemma total_conceptual_step acc m : total (conceptual_step env acc m).
Proof.
  unfold conceptual_step.
  apply total_bind; [apply total_modify | intros _].
  apply total_try_finally; [| apply total_modify].
  apply total_try_catch. intros e.
  apply total_bind; [apply total_console_error | intros _].
  destruct (aistudio env) as [studio|]; [| apply total_ret].
  destruct (permission_denied e); [| apply total_ret].
  apply total_bind; [| intros; apply total_ret].
  apply total_try_catch. intros; apply total_console_error.
Qed.

Lemma keeps_mermaid_step acc m : keeps (mermaid_step env acc m).
Proof.
  unfold mermaid_step. destruct (looks_like_diagram _); [| apply keeps_ret].
  apply keeps_bind; [apply keeps_new_item | intros; apply keeps_ret].
Qed.

Lemma total_mermaid_step acc m : total (mermaid_step env acc m).
Proof.
  unfold mermaid_step. destruct (looks_like_diagram _); [| apply total_ret].
  apply total_bind; [apply total_new_item | intros; apply total_ret].
Qed.

Lemma keeps_extractVisualization text ip : keeps (extractVisualization env text ip).
Proof.
  unfold extractVisualization, extract_diagrams, resolve_images.
  apply keeps_bind; [apply keeps_for_of, keeps_mermaid_step | intros items1].
  apply keeps_bind.
  { destruct ip as [img|]; [| apply keeps_ret].
    destruct (truthy img); [| apply keeps_ret].
    apply keeps_bind; [apply keeps_new_item | intros; apply keeps_ret]. }
  intros items2.
  apply keeps_bind; [apply keeps_for_of, keeps_conceptual_step | intros items3].
  destruct (0 <? _)%nat; [| apply keeps_ret].
  repeat (apply keeps_bind; [apply keeps_modify; feed_setter | intros _]).
  apply keeps_modify; feed_setter.
Qed.

Lemma total_extractVisualization text ip : total (extractVisualization env text ip).
Proof.
  unfold extractVisualization, extract_diagrams, resolve_images.
  apply total_bind; [apply total_for_of, total_mermaid_step | intros items1].
  apply total_bind.
  { destruct ip as [img|]; [| apply total_ret].
    destruct (truthy img); [| apply total_ret].
    apply total_bind; [apply total_new_item | intros; apply total_ret]. }
  intros items2.
  apply total_bind; [apply total_for_of, total_conceptual_step | intros items3].
  destruct (0 <? _)%nat; [| apply total_ret].
  repeat (apply total_bind; [apply total_modify | intros _]).
  apply total_modify.
Qed.

End Atomic.
End EffFacts.

(* ===================================================================== *)
(** * The chat turn *)
(* ===================================================================== *)

Module TurnFacts.
Import JsString Regex Types Eff Gemini App Spec StringFacts EffFacts.
Local Open Scope eff_scope.

Lemma trimEnd_empty t : trimEnd t = EmptyString -> forallb isWhiteSpace t = true.
Proof.
  induction t as [|c t IH]; cbn [trimEnd forallb]; [reflexivity|].
  destruct (trimEnd t) as [|d t'] eqn:E; [|discriminate].
  destruct (isWhiteSpace c); [|discriminate]. intros _. now apply IH.
Qed.

Lemma trim_empty s : trim s = EmptyString -> forallb isWhiteSpace s = true.
Proof.
  unfold trim. intros H. apply trimEnd_empty in H.
  destruct (trimStart_split s) as (ws & E & Hws).
  rewrite E, forallb_app, Hws. exact H.
Qed.

Lemma verb_not_blank verb0 verb :
  In verb0 VERBS -> ci_eq verb0 verb = true ->
  forallb isWhiteSpace verb = false.
Proof.
  intros Hin Hci. destruct verb as [|b verb].
  - destruct Hin as [<-|[<-|[<-|[]]]]; discriminate.
  - cbn [forallb]. apply andb_false_iff. left.
    destruct Hin as [<-|[<-|[<-|[]]]]; cbn [ci_eq] in Hci;
      apply andb_true_iff in Hci as [Hb _];
      destruct b as [[] [] [] [] [] [] [] []]; try reflexivity; discriminate Hb.
Qed.

Lemma verb_then_noun_not_blank text :
  verb_then_noun text -> truthy (trim text) = true.
Proof.
  intros (u & verb0 & verb & v & noun0 & noun & t & -> & Hv & Hvc & _).
  destruct (trim (u ++ verb ++ v ++ noun ++ t)) eqn:E; [|reflexivity].
  apply trim_empty in E. rewrite !forallb_app in E.
  rewrite (verb_not_blank verb0 verb Hv Hvc) in E.
  rewrite andb_false_r in E. discriminate.
Qed.

Section Turn.
Variable env : Env.

Lemma sendMessageToGemini_run h t l w :
  sendMessageToGemini env h t l w =
  (match generateContent env (sent w)
           (ChatRequest "gemini-3-flash-preview" (h ++ [mkContent user t])%list l) with
   | inl e => Throw e
   | inr response =>
       match read_response response with
       | inl e => Throw e
       | inr r => Ok r
       end
   end,
   mkWorld (app w) (S (sent w)) (asked w) (ticks w)
           (log w ++ [EGenerateContent
                        (ChatRequest "gemini-3-flash-preview" (h ++ [mkContent user t])%list l)])).
Proof.
  unfold sendMessageToGemini, bind, await_generateContent.
  destruct (generateContent env (sent w) _) as [e|response]; [reflexivity|].
  destruct (read_response response); reflexivity.
Qed.

(** What [handleSendMessage] does once past its guards, by the outcome
    of the backend call. *)
Lemma handleSendMessage_proceeds cp w :
  proceeds cp (app w) = true ->
  handleSendMessage env cp w =
  let a := app w in
  let w1 := calling env cp w in
  match sendMessageToGemini env (history_of (messages a))
                            (messageText_of cp (input a)) (knowledgeLevel a) w1 with
  | (Ok response, w2) =>
      let newAiMsg :=
        mkMessage (toString (date_now env (ticks w2) + 1)) model
                  (if truthy (response_text response)
                   then response_text response else PLACEHOLDER_TEXT)
                  (date_now env (S (ticks w2))) in
      let w3 := mkWorld (setMessages (fun prev => prev ++ [newAiMsg])%list (app w2))
                        (sent w2) (asked w2) (S (S (ticks w2))) (log w2) in
      let w4 := snd (extractVisualization env (response_text response)
                                          (imagePart response) w3) in
      (Ok tt,
       mkWorld (setIsLoading false
                  (setMentorMode (mentor_after (mentorStatus response)
                                               (mentorMode (app w4))) (app w4)))
               (sent w4) (asked w4) (ticks w4) (log w4))
  | (Throw error, w2) =>
      let errMsg :=
        mkMessage (toString (date_now env (ticks w2))) model ERROR_TEXT
                  (date_now env (S (ticks w2))) in
      (Ok tt,
       mkWorld (setIsLoading false (setMessages (fun prev => prev ++ [errMsg])%list (app w2)))
               (sent w2) (asked w2) (S (S (ticks w2)))
               (log w2 ++ [EConsoleError "API Error"])%list)
  end.
Proof.
  unfold proceeds. intros H. apply andb_true_iff in H as [Hne Hgate].
  assert (Hg : negb (given cp) && asks_for_answer (messageText_of cp (input (app w))) = false).
  { destruct (given cp); simpl in *; [reflexivity|].
    now apply negb_true_iff in Hgate. }
  unfold handleSendMessage. unfold bind at 1. unfold get_app.
  rewrite Hne, Hg. simpl negb. cbv iota zeta.
  unfold calling, mentor_after.
  destruct (given cp); simpl negb; cbv iota;
    unfold bind, try_finally, try_catch, modify, Date_now, tick, console_error,
      emit, ret; simpl;
    rewrite !sendMessageToGemini_run; simpl;
    (destruct (generateContent env (sent w) _) as [e|response]; [reflexivity|]);
    (destruct (read_response response) as [e|r]; [reflexivity|]);
    match goal with
    | |- context [extractVisualization env ?t ?i ?w3] =>
        destruct (total_extractVisualization env t i w3) as [u Hu];
        destruct (extractVisualization env t i w3) as [r1 w4]
    end; simpl in *; subst r1;
    destruct (strict_eq (mentorStatus r) "satisfied");
    [ reflexivity | destruct (strict_eq (mentorStatus r) "searching"); [reflexivity|] |
      reflexivity | destruct (strict_eq (mentorStatus r) "searching"); [reflexivity|] ];
    destruct w4 as [[] ? ? ? ?]; reflexivity.
Qed.

Lemma sendMessageToGemini_fst h t l w w' :
  sent w' = sent w ->
  fst (sendMessageToGemini env h t l w') = fst (sendMessageToGemini env h t l w).
Proof. intros H. rewrite !sendMessageToGemini_run. simpl. now rewrite H. Qed.

Lemma sendMessageToGemini_snd h t l w :
  snd (sendMessageToGemini env h t l w) =
  mkWorld (app w) (S (sent w)) (asked w) (ticks w)
          (log w ++ [EGenerateContent
                       (ChatRequest "gemini-3-flash-preview" (h ++ [mkContent user t])%list l)])%list.
Proof. now rewrite sendMessageToGemini_run. Qed.

Lemma calling_messages cp w :
  messages (app (calling env cp w)) =
  (messages (app w) ++
   [mkMessage (toString (date_now env (ticks w))) user
              (messageText_of cp (input (app w))) (date_now env (S (ticks w)))])%list.
Proof. unfold calling. destruct (given cp); reflexivity. Qed.

Lemma calling_mentorMode cp w : mentorMode (app (calling env cp w)) = mentorMode (app w).
Proof. unfold calling. destruct (given cp); reflexivity. Qed.

(** A submission that passes the guards becomes a turn: the user
    message and one reply are appended, the backend is asked first. *)
Lemma turn_happens cp w :
  proceeds cp (app w) = true ->
  let messageText := messageText_of cp (input (app w)) in
  exists userMsg reply w' lg,
    handleSendMessage env cp w = (Ok tt, w')
    /\ messages (app w') = (messages (app w) ++ [userMsg; reply])%list
    /\ role userMsg = user /\ text userMsg = messageText
    /\ role reply = model
    /\ isLoading (app w') = false
    /\ log w' = (log w ++ EGenerateContent (chat_request (app w) messageText) :: lg)%list.
Proof.
  intros Hp messageText.
  rewrite (handleSendMessage_proceeds cp w Hp). cbv zeta.
  fold messageText.
  rewrite sendMessageToGemini_run.
  set (req := ChatRequest _ _ _).
  change (log (calling env cp w)) with (log w).
  destruct (match generateContent env (sent (calling env cp w)) req with
            | inl e => Throw e
            | inr response => match read_response response with
                              | inl e => Throw e
                              | inr r => Ok r
                              end
            end) as [r|e].
  - match goal with
    | |- context [extractVisualization env ?t ?i ?w3] =>
        pose proof (keeps_extractVisualization env t i w3) as Hk
    end.
    destruct Hk as [Hm _ _ _ _ _ _ [lg Hlg]].
    cbn [app messages setMessages log] in Hm, Hlg.
    do 2 eexists. eexists. exists lg. split; [reflexivity|].
    cbn [app messages setIsLoading setMentorMode isLoading log].
    rewrite Hm, Hlg, calling_messages, <- !List.app_assoc.
    repeat split; reflexivity.
  - do 2 eexists. eexists. exists [EConsoleError "API Error"]. split; [reflexivity|].
    cbn [app messages setIsLoading setMessages isLoading log].
    rewrite calling_messages, <- !List.app_assoc.
    repeat split; reflexivity.
Qed.

End Turn.

Lemma last_cons A (l : list A) x d : List.last (x :: l) d = List.last l x.
Proof.
  revert x d. induction l as [|y l IH]; intros x d; [reflexivity|].
  change (List.last (x :: y :: l) d) with (List.last (y :: l) d).
  rewrite (IH y d), (IH y x). reflexivity.
Qed.

Lemma scan_calls_last calls init st :
  scan_calls calls init = inr st ->
  st = List.last (List.map status_arg
                    (List.filter (fun c => strict_eq (name c) "updateMentorStatus") calls))
                 init.
Proof.
  revert init. induction calls as [|c calls IH]; intros init H; simpl in *.
  - congruence.
  - destruct (strict_eq (name c) "updateMentorStatus").
    + destruct (args c) as [a|] eqn:Ha; [|discriminate].
      simpl List.map. rewrite last_cons. unfold status_arg at 2. rewrite Ha.
      now apply IH.
    + now apply IH.
Qed.

Lemma scan_calls_total calls init :
  List.forallb (fun c => match args c with Some _ => true | None => false end)
    (List.filter (fun c => strict_eq (name c) "updateMentorStatus") calls) = true ->
  exists st, scan_calls calls init = inr st.
Proof.
  revert init. induction calls as [|c calls IH]; intros init H; simpl in *.
  - now eexists.
  - destruct (strict_eq (name c) "updateMentorStatus"); simpl in H.
    + destruct (args c) as [a|]; [|discriminate]. now apply IH.
    + now apply IH.
Qed.

Lemma scan_parts_no_text ps acc ip :
  existsb (fun p => match part_text p with Some t => truthy t | None => false end) ps = false ->
  fst (scan_parts ps acc ip) = acc.
Proof.
  revert acc ip. induction ps as [|p ps IH]; intros acc ip H; simpl in *; [reflexivity|].
  apply orb_false_iff in H as [Hp Hps].
  rewrite IH by assumption.
  destruct (part_text p) as [t|]; [|reflexivity]. now rewrite Hp.
Qed.

Lemma filter_nil_of_nil A (f : A -> bool) l : l = [] -> List.filter f l = [].
Proof. now intros ->. Qed.

Lemma read_response_spec response :
  (calls_have_args response = true -> exists r, read_response response = inr r)
  /\ forall r, read_response response = inr r ->
       mentorStatus r = declared_status response
       /\ (mentorStatus r <> None -> response_text r <> EmptyString)
       /\ (mentor_status_calls response <> [] -> has_text response = false ->
           response_text r = STATUS_ONLY_TEXT).
Proof.
  unfold read_response, declared_status, calls_have_args, has_text, mentor_status_calls.
  destruct response as [[ps|]]; simpl.
  2:{ split; [now eexists|]. intros r [= <-]. simpl. repeat split; congruence. }
  destruct (functionCalls_of ps) as [|c calls] eqn:Hc.
  { simpl. split.
    - intros _. destruct (scan_parts ps EmptyString None). now eexists.
    - intros r. destruct (scan_parts ps EmptyString None) as [t ip]. intros [= <-]. simpl.
      repeat split; congruence. }
  split.
  - intros H. destruct (scan_calls_total (c :: calls) None H) as [st Hst].
    rewrite Hst. destruct (scan_parts ps EmptyString None). now eexists.
  - intros r. destruct (scan_calls (c :: calls) None) as [e|st] eqn:Hst; [discriminate|].
    destruct (scan_parts ps EmptyString None) as [t ip] eqn:Hsp. intros [= <-]. cbn [mentorStatus response_text].
    split; [now apply scan_calls_last|]. split.
    + intros _. simpl. destruct (truthy t) eqn:Ht; simpl; [|discriminate].
      destruct t; [discriminate|congruence].
    + intros _ Hnt. pose proof (scan_parts_no_text ps EmptyString None Hnt) as H.
      rewrite Hsp in H. simpl in H. subst t. reflexivity.
Qed.

(** A status call without its arguments makes the wrapper throw. *)
Lemma scan_calls_throws calls : forall init,
  List.forallb (fun c => match args c with Some _ => true | None => false end)
               (List.filter (fun c => strict_eq (name c) "updateMentorStatus") calls) = false ->
  scan_calls calls init = inl TypeError_args.
Proof.
  induction calls as [|c calls IH]; intros init H; [discriminate|].
  cbn [scan_calls List.filter] in *.
  destruct (strict_eq (name c) "updateMentorStatus").
  - cbn [List.forallb] in H. destruct (args c) as [st|]; [|reflexivity].
    now apply IH.
  - now apply IH.
Qed.

Lemma read_response_throws response :
  calls_have_args response = false -> read_response response = inl TypeError_args.
Proof.
  unfold calls_have_args, mentor_status_calls, read_response.
  destruct response as [[ps|]]; cbn [parts option_map]; [|discriminate].
  intros H. destruct (functionCalls_of ps) as [|c calls] eqn:Hc; [discriminate|].
  now rewrite (scan_calls_throws (c :: calls) None H).
Qed.

Lemma functionCalls_of_app a b :
  functionCalls_of (a ++ b)%list = (functionCalls_of a ++ functionCalls_of b)%list.
Proof.
  induction a as [|p a IH]; [reflexivity|].
  cbn [List.app functionCalls_of]. rewrite IH. now destruct (functionCall p).
Qed.

(** The status calls of a response, around one of its parts. *)
Lemma mentor_status_calls_at before p c after :
  functionCall p = Some c -> strict_eq (name c) "updateMentorStatus" = true ->
  mentor_status_calls (mkResponse (Some (before ++ p :: after)%list))
  = (mentor_status_calls (mkResponse (Some before))
     ++ c :: mentor_status_calls (mkResponse (Some after)))%list.
Proof.
  intros Hc Hn. unfold mentor_status_calls. cbn [parts].
  rewrite functionCalls_of_app, List.filter_app.
  cbn [functionCalls_of]. rewrite Hc. cbn [List.filter]. now rewrite Hn.
Qed.

Lemma no_status_calls ps :
  (forall q d, In q ps -> functionCall q = Some d ->
               strict_eq (name d) "updateMentorStatus" = false) ->
  mentor_status_calls (mkResponse (Some ps)) = [].
Proof.
  unfold mentor_status_calls. cbn [parts].
  induction ps as [|q ps IH]; intros H; [reflexivity|].
  cbn [functionCalls_of]. destruct (functionCall q) as [d|] eqn:Hd.
  - cbn [List.filter]. rewrite (H q d (or_introl eq_refl) Hd).
    apply IH. intros q' d' Hin. apply H. now right.
  - apply IH. intros q' d' Hin. apply H. now right.
Qed.

End TurnFacts.

(* ===================================================================== *)
(** * Resolving one directive *)
(* ===================================================================== *)

Module BuilderFacts.
Import JsString Regex Types Eff Gemini App Spec EffFacts TurnFacts.
Local Open Scope eff_scope.

Section Builder.
Variable env : Env.

(** [generateImage] sends the prompt to the primary image model once,
    never asks for a key, and leaves the component state alone. *)
Lemma generateImage_world p s w :
  exists n l,
    snd (generateImage env p s w) =
    mkWorld (app w) n (asked w) (ticks w) (log w ++ l)%list
    /\ key_selections l = 0 /\ image_prompts l = [p].
Proof.
  unfold generateImage, try_catch, bind, await_generateContent, console_warn,
    console_error, throw, ret, emit.
  destruct (generateContent env (sent w) _) as [e|r]; simpl.
  - destruct (permission_denied e); simpl.
    + destruct (generateContent env (S (sent w)) _) as [e'|r']; simpl;
        rewrite <- !app_assoc; simpl; do 2 eexists; (split; [reflexivity|]); split; reflexivity.
    + rewrite <- !app_assoc; simpl; do 2 eexists; (split; [reflexivity|]); split; reflexivity.
  - do 2 eexists; (split; [reflexivity|]); split; reflexivity.
Qed.

Lemma generateImage_fst p s w w' :
  sent w' = sent w ->
  fst (generateImage env p s w') = fst (generateImage env p s w).
Proof.
  intros H.
  unfold generateImage, try_catch, bind, await_generateContent, console_warn,
    console_error, throw, ret, emit. cbv beta. rewrite H.
  destruct (generateContent env (sent w) _) as [e|r]; simpl; [|reflexivity].
  destruct (permission_denied e); simpl; [|reflexivity].
  destruct (generateContent env (S (sent w)) _) as [e'|r']; reflexivity.
Qed.

Lemma generateImage_sent p s w w' :
  sent w' = sent w ->
  sent (snd (generateImage env p s w')) = sent (snd (generateImage env p s w)).
Proof.
  intros H.
  unfold generateImage, try_catch, bind, await_generateContent, console_warn,
    console_error, throw, ret, emit. cbv beta. rewrite H.
  destruct (generateContent env (sent w) _) as [e|r]; simpl; [|reflexivity].
  destruct (permission_denied e); simpl; [|reflexivity].
  destruct (generateContent env (S (sent w)) _) as [e'|r']; reflexivity.
Qed.

(** What the directives get depends on the world only through the
    number of requests sent so far. *)
Lemma directive_images_sent prompts : forall w w',
  sent w' = sent w -> directive_images env prompts w' = directive_images env prompts w.
Proof.
  induction prompts as [|p prompts IH]; intros w w' H; [reflexivity|].
  cbn [directive_images]. cbv zeta.
  rewrite (generateImage_fst p "1K" w w' H).
  f_equal. apply IH. now apply generateImage_sent.
Qed.

Lemma conceptual_step_spec newItems cMatch w :
  let prompt := trim (group 1 cMatch) in
  exists items' w' l,
    conceptual_step env newItems cMatch w = (Ok items', w')
    /\ app w' = setIsGeneratingImage false (app w)
    /\ log w' = (log w ++ l)%list
    /\ image_prompts l = [prompt]
    /\ match fst (generateImage env prompt "1K" w) with
       | Ok (Some img) =>
           key_selections l = 0
           /\ if truthy img
              then exists item, items' = (newItems ++ [item])%list
                                /\ type item = image /\ content item = img
              else items' = newItems
       | Ok None => key_selections l = 0 /\ items' = newItems
       | Throw e =>
           key_selections l = match aistudio env with
                              | Some _ => if permission_denied e then 1 else 0
                              | None => 0
                              end
           /\ items' = newItems
       end.
Proof.
  intros prompt. unfold conceptual_step. fold prompt.
  unfold bind at 1. unfold modify at 1.
  set (w1 := mkWorld (setIsGeneratingImage true (app w)) (sent w) (asked w) (ticks w) (log w)).
  rewrite <- (generateImage_fst prompt "1K" w w1 eq_refl).
  destruct (generateImage_world prompt "1K" w1) as (n & l & Hw & Hk & Hp).
  unfold try_finally, try_catch. unfold bind at 1.
  destruct (generateImage env prompt "1K" w1) as [[[img|]|e] w2]; cbn [fst snd] in *; subst w2.
  - destruct (truthy img).
    + unfold new_item, bind, Date_now, Math_random, ret, modify, tick. simpl.
      do 3 eexists. split; [reflexivity|]. simpl. repeat split; eauto.
    + simpl. do 3 eexists. split; [reflexivity|]. simpl. repeat split; eauto.
  - simpl. do 3 eexists. split; [reflexivity|]. simpl. repeat split; eauto.
  - unfold bind, console_error, emit.
    destruct (aistudio env) as [studio|].
    + destruct (permission_denied e).
      * unfold await_openSelectKey, ret, modify. simpl.
        destruct (openSelectKey studio (asked w)); simpl;
          rewrite <- !app_assoc; do 3 eexists; (split; [reflexivity|]); simpl;
          repeat split; rewrite ?image_prompts_app, ?key_selections_app, ?Hp, ?Hk;
          reflexivity.
      * simpl. rewrite <- !app_assoc. do 3 eexists. split; [reflexivity|]. simpl.
        repeat split; rewrite ?image_prompts_app, ?key_selections_app, ?Hp, ?Hk;
          reflexivity.
    + simpl. rewrite <- !app_assoc. do 3 eexists. split; [reflexivity|]. simpl.
      repeat split; rewrite ?image_prompts_app, ?key_selections_app, ?Hp, ?Hk;
        reflexivity.
Qed.

End Builder.
End BuilderFacts.

(* ===================================================================== *)
(** * The three patterns of the component *)
(* ===================================================================== *)

Module ExtractorFacts.
Import JsString Regex Types App Spec StringFacts RegexFacts.
Local Open Scope regex_scope.

Lemma backtick_ci b : char_eq true "`" b = Ascii.eqb "`" b.
Proof. destruct b as [[] [] [] [] [] [] [] []]; reflexivity. Qed.

Lemma bracket_ci b : char_eq true "]" b = Ascii.eqb "]" b.
Proof. destruct b as [[] [] [] [] [] [] [] []]; reflexivity. Qed.

Lemma string_snoc (s : string) :
  s <> EmptyString -> exists s' a, s = s' ++ String a EmptyString.
Proof.
  induction s as [|b s IH]; [congruence|]. intros _.
  destruct s as [|c s].
  - now exists EmptyString, b.
  - destruct IH as (s' & a & E); [discriminate|].
    exists (String b s'), a. simpl. now rewrite <- E.
Qed.

Lemma suffix_same_length (p1 t1 p2 t2 : string) :
  p1 ++ t1 = p2 ++ t2 -> String.length t1 = String.length t2 -> t1 = t2.
Proof.
  revert p2. induction p1 as [|a p1 IH]; intros [|b p2] H Hl; simpl in *.
  - assumption.
  - subst t1. simpl in Hl. rewrite length_app in Hl. lia.
  - subst t2. simpl in Hl. rewrite length_app in Hl. lia.
  - injection H as _ H. now apply (IH p2).
Qed.

Section Patterns.
Variable input : string.

Lemma star_greedy_space_hd s :
  exists l, star_greedy true CSpace s = trimStart s :: l.
Proof.
  induction s as [|a s [l IH]]; simpl.
  - now exists [].
  - destruct (isWhiteSpace a); [|now exists []].
    rewrite IH. now eexists.
Qed.

(** *** The fenced-block pattern *)

Lemma lazy_until_fence n u0 c post : forall b,
  indexOf true FENCE (b ++ FENCE ++ post) = Some (String.length b) ->
  hd_error
    (flat_map (fun x => ms true input (Lit FENCE) (snd x) (fst x))
       (List.map (fun x => ((n, consumed u0 (snd x)) :: fst x, snd x))
          (List.map (pair c) (star_lazy true CAll (b ++ FENCE ++ post)))))
  = Some ((n, consumed u0 (FENCE ++ post)) :: c, post).
Proof.
  induction b as [|a b IH]; intros H.
  - change (EmptyString ++ FENCE ++ post) with (FENCE ++ post).
    rewrite star_lazy_all. cbn [List.map].
    eapply flat_map_hd. cbn [snd fst ms].
    rewrite (strip_prefix_app true FENCE FENCE post eq_refl). reflexivity.
  - change (String a b ++ FENCE ++ post) with (String a (b ++ FENCE ++ post)) in *.
    rewrite star_lazy_all. cbn [List.map].
    rewrite flat_map_hd_skip.
    + apply IH. simpl String.length in H. now apply indexOf_tail in H.
    + cbn [snd fst]. apply ms_lit_nil. simpl String.length in H.
      now apply indexOf_not_here in H.
Qed.

Lemma capture_until_fence c body post :
  indexOf true FENCE (body ++ FENCE ++ post) = Some (String.length body) ->
  hd_error (ms true input
              (Star true CSpace >> Group 1 (Star false CAll) >> Lit FENCE)
              (body ++ FENCE ++ post) c)
  = Some ((1, trimStart body) :: c, post).
Proof.
  intros H.
  destruct (trimStart_split body) as (ws & Hb & Hws).
  assert (Hcore : indexOf true FENCE (trimStart body ++ FENCE ++ post)
                  = Some (String.length (trimStart body))).
  { apply (indexOf_app true FENCE body (FENCE ++ post) H ws). exact Hb. }
  cbn [ms].
  destruct (star_greedy_space_hd (body ++ FENCE ++ post)) as [l ->].
  change (FENCE ++ post) with (String "`" ("``" ++ post)) at 1.
  rewrite trimStart_app by reflexivity.
  change (String "`" ("``" ++ post)) with (FENCE ++ post).
  cbn [List.map].
  pose proof (lazy_until_fence 1 (trimStart body ++ FENCE ++ post) c post
                (trimStart body) Hcore) as Hhd.
  rewrite consumed_app in Hhd.
  apply hd_error_cons in Hhd as [l' Hl'].
  eapply flat_map_hd. cbn [snd fst]. exact Hl'.
Qed.

Lemma opt_hint_hd after c :
  exists l, (ms true input (Opt HINTS) after c) = (c, strip_hint after) :: l.
Proof.
  unfold strip_hint, HINTS. cbn [ms].
  destruct (strip_prefix true "mermaid" after); [now eexists|].
  destruct (strip_prefix true "flowchart" after); [now eexists|].
  destruct (strip_prefix true "text" after); [now eexists|].
  destruct (strip_prefix true "sequenceDiagram" after); now eexists.
Qed.

(** The match the fenced-block pattern finds at an opening fence. *)
Lemma mermaid_at_fence after body post :
  strip_hint after = body ++ FENCE ++ post ->
  indexOf true FENCE (body ++ FENCE ++ post) = Some (String.length body) ->
  exists l, ms true input mermaidRegex (FENCE ++ after) []
            = ([(1, trimStart body)], post) :: l.
Proof.
  intros Hh Hi. apply hd_error_cons.
  unfold mermaidRegex. fold HINTS. fold FENCE.
  rewrite ms_lit_seq by reflexivity.
  change (ms true input (Opt HINTS >> ?r) after [])
    with (flat_map (fun x => ms true input r (snd x) (fst x))
                   (ms true input (Opt HINTS) after [])).
  destruct (opt_hint_hd after []) as [l ->]. rewrite Hh.
  pose proof (capture_until_fence [] body post Hi) as Hhd.
  apply hd_error_cons in Hhd as [l' Hl'].
  eapply flat_map_hd. cbn [snd fst]. exact Hl'.
Qed.

Lemma mermaid_no_closing after :
  indexOf true FENCE after = None ->
  ms true input mermaidRegex (FENCE ++ after) [] = [].
Proof.
  intros H. unfold mermaidRegex. fold FENCE.
  rewrite ms_lit_seq by reflexivity.
  apply ms_seq_nil. intros p1 t1 c1 E1.
  apply ms_seq_nil. intros p2 t2 c2 E2.
  apply ms_seq_nil. intros p3 t3 c3 E3.
  apply ms_lit_nil. subst. rewrite <- !StringFacts.app_assoc in H.
  now apply startsWith_none_suffix in H.
Qed.

Lemma search_nowhere r s :
  (forall p t, s = p ++ t -> ms true input r t [] = []) ->
  search true input r s = None.
Proof.
  induction s as [|a s IH]; intros H.
  - cbn [search]. now rewrite (H EmptyString EmptyString eq_refl).
  - rewrite search_next; [|now apply (H EmptyString)].
    apply IH. intros p t ->. now apply (H (String a p)).
Qed.

Lemma fence_exact t x : strip_prefix true FENCE t = Some x -> t = FENCE ++ x.
Proof.
  destruct t as [|a [|b [|c t]]]; cbn [strip_prefix FENCE]; rewrite ?backtick_ci;
    try discriminate;
    try (destruct (Ascii.eqb "`" a); discriminate);
    try (destruct (Ascii.eqb "`" a); [destruct (Ascii.eqb "`" b)|]; discriminate).
  destruct (Ascii.eqb_spec "`"%char a) as [<-|]; [|discriminate].
  destruct (Ascii.eqb_spec "`"%char b) as [<-|]; [|discriminate].
  destruct (Ascii.eqb_spec "`"%char c) as [<-|]; [|discriminate].
  now intros [= ->].
Qed.

Lemma app_split (a b c d : string) :
  a ++ b = c ++ d -> String.length c <= String.length a ->
  exists e, a = c ++ e /\ d = e ++ b.
Proof.
  revert a. induction c as [|x c IH]; intros a H Hl; simpl in *.
  - exists a. now split.
  - destruct a as [|y a]; [simpl in Hl; lia|].
    simpl in H. injection H as -> H.
    destruct (IH a H) as (e & -> & ->); [simpl in Hl; lia|]. now exists e.
Qed.

(** No block starts at an opening fence that no later fence closes. *)
Lemma mermaid_unclosed after :
  indexOf true FENCE after = None ->
  search true input mermaidRegex (FENCE ++ after) = None.
Proof.
  intros H. apply search_nowhere. intros p t E.
  destruct (strip_prefix true FENCE t) as [x|] eqn:Ex.
  - apply fence_exact in Ex. subst t.
    rewrite <- StringFacts.app_assoc in E. symmetry in E.
    destruct (app_split (p ++ FENCE) x FENCE after E) as (e & _ & ->).
    { rewrite length_app. simpl. lia. }
    apply mermaid_no_closing. now apply (indexOf_none_suffix true FENCE e x).
  - unfold mermaidRegex. fold FENCE. apply ms_lit_seq_nil.
    unfold startsWith. now rewrite Ex.
Qed.

(** *** The directive pattern *)

Lemma no_bracket_cls s :
  no_bracket s = true -> forallb (cls_match true (CNot "]")) s = true.
Proof.
  unfold no_bracket. induction s as [|b s IH]; cbn [forallb cls_match]; [reflexivity|].
  intros H. apply andb_true_iff in H as [Hb Hs]. rewrite bracket_ci, Hb. now apply IH.
Qed.

Lemma payload_until_bracket c a core post :
  Ascii.eqb "]" a = false -> no_bracket core = true ->
  hd_error (ms true input (Group 1 (Plus (CNot "]")) >> Lit "]")
              (String a core ++ "]" ++ post) c)
  = Some ((1, String a core) :: c, post).
Proof.
  intros Ha Hc. cbn [ms]. unfold plus_greedy.
  change (String a core ++ "]" ++ post) with (String a (core ++ "]" ++ post)).
  cbn [cls_match]. rewrite bracket_ci, Ha. cbn [negb].
  destruct (star_greedy_app true (CNot "]") core ("]" ++ post) (no_bracket_cls core Hc))
    as [l ->].
  assert (Hs : star_greedy true (CNot "]") ("]" ++ post) = ["]" ++ post]) by reflexivity.
  rewrite Hs.
  cbn [List.app List.map]. eapply flat_map_hd. cbn [snd fst ms].
  rewrite (strip_prefix_app true "]" "]" post eq_refl).
  change (String a (core ++ "]" ++ post)) with (String a core ++ "]" ++ post).
  rewrite consumed_app. reflexivity.
Qed.

Lemma payload_needs_text c post :
  ms true input (Group 1 (Plus (CNot "]")) >> Lit "]") ("]" ++ post) c = [].
Proof. reflexivity. Qed.

Lemma no_bracket_app a b : no_bracket (a ++ b) = no_bracket a && no_bracket b.
Proof. apply forallb_app. Qed.

Lemma no_bracket_trimStart s : no_bracket s = true -> no_bracket (trimStart s) = true.
Proof.
  intros H. destruct (trimStart_split s) as (ws & E & _).
  rewrite E, no_bracket_app in H. now apply andb_true_iff in H as [_ H].
Qed.

(** What the directive pattern captures after the tag: the payload
    without its leading white space, or one white-space unit when the
    payload is nothing else. *)
Lemma capture_until_bracket c inner post :
  inner <> EmptyString -> no_bracket inner = true ->
  exists cap,
    hd_error (ms true input
                (Star true CSpace >> Group 1 (Plus (CNot "]")) >> Lit "]")
                (inner ++ "]" ++ post) c)
    = Some ((1, cap) :: c, post)
    /\ trim cap = trim inner.
Proof.
  intros Hne Hnb.
  change (ms true input (Star true CSpace >> ?r) ?s c)
    with (flat_map (fun x => ms true input r (snd x) (fst x))
                   (List.map (pair c) (star_greedy true CSpace s))).
  destruct (trimStart inner) as [|a core] eqn:Hcore.
  - (* nothing but white space *)
    destruct (trimStart_split inner) as (ws & E & Hws).
    rewrite Hcore, StringFacts.app_nil_r in E. subst ws.
    destruct (string_snoc inner Hne) as (ws' & a & ->).
    rewrite forallb_app in Hws. apply andb_true_iff in Hws as [Hws' Ha].
    simpl in Ha. rewrite andb_true_r in Ha.
    exists (String a EmptyString). split.
    + rewrite StringFacts.app_assoc.
      destruct (star_greedy_app true CSpace ws' (String a EmptyString ++ "]" ++ post)) as [l ->].
      { clear -Hws'. induction ws' as [|b w IH]; simpl in *; [reflexivity|].
        apply andb_true_iff in Hws' as [-> H]. now apply IH. }
      change (String a EmptyString ++ "]" ++ post) with (String a (String "]" post)).
      cbn [star_greedy cls_match]. rewrite Ha.
      change (isWhiteSpace "]") with false. cbn iota.
      cbn [List.app List.map].
      rewrite flat_map_hd_skip by (cbn [snd fst]; apply payload_needs_text).
      pose proof (payload_until_bracket c a EmptyString post) as Hp.
      assert (Hab : Ascii.eqb "]" a = false).
      { destruct (Ascii.eqb_spec "]"%char a) as [<-|]; [discriminate Ha | reflexivity]. }
      specialize (Hp Hab eq_refl). apply hd_error_cons in Hp as [l' Hl'].
      eapply flat_map_hd. cbn [snd fst]. exact Hl'.
    + rewrite (trim_all_ws (String a EmptyString)) by (simpl; now rewrite Ha).
      symmetry. apply trim_all_ws. rewrite forallb_app, Hws'. simpl. now rewrite Ha.
  - (* a payload *)
    exists (String a core). split.
    + destruct (star_greedy_space_hd (inner ++ "]" ++ post)) as [l ->].
      change ("]" ++ post) with (String "]" post).
      rewrite trimStart_app by reflexivity. rewrite Hcore.
      cbn [List.map].
      pose proof (no_bracket_trimStart inner Hnb) as Hnb'. rewrite Hcore in Hnb'.
      simpl in Hnb'. apply andb_true_iff in Hnb' as [Ha Hc].
      apply negb_true_iff in Ha.
      pose proof (payload_until_bracket c a core post Ha Hc) as Hp.
      apply hd_error_cons in Hp as [l' Hl'].
      eapply flat_map_hd. cbn [snd fst]. exact Hl'.
    + rewrite <- Hcore. apply trim_trimStart.
Qed.

(** The match the directive pattern finds at a tag that is closed. *)
Lemma conceptual_at_tag tag inner post :
  ci_eq TAG tag = true -> inner <> EmptyString -> no_bracket inner = true ->
  exists cap l,
    ms true input conceptualRegex (tag ++ inner ++ "]" ++ post) []
    = ([(1, cap)], post) :: l
    /\ trim cap = trim inner.
Proof.
  intros Ht Hne Hnb. unfold conceptualRegex. fold TAG.
  rewrite ms_lit_seq by (now apply ci_eq_strip).
  destruct (capture_until_bracket [] inner post Hne Hnb) as (cap & Hhd & Htrim).
  apply hd_error_cons in Hhd as [l Hl]. now exists cap, l.
Qed.

(** No match starts at a tag that no bracket closes. *)
Lemma conceptual_unclosed tag s :
  ci_eq TAG tag = true -> no_bracket s = true ->
  ms true input conceptualRegex (tag ++ s) [] = [].
Proof.
  intros Ht H. unfold conceptualRegex. fold TAG.
  rewrite ms_lit_seq by (now apply ci_eq_strip).
  apply ms_seq_nil. intros p1 t1 c1 E1.
  apply ms_seq_nil. intros p2 t2 c2 E2.
  apply ms_lit_nil. subst.
  rewrite !no_bracket_app in H.
  repeat (apply andb_true_iff in H as [_ H]).
  destruct t2 as [|b t]; [reflexivity|]. simpl in H.
  apply andb_true_iff in H as [Hb _]. apply negb_true_iff in Hb.
  unfold startsWith. cbn [strip_prefix]. now rewrite bracket_ci, Hb.
Qed.

(** *** The request pattern of the gate *)

Lemma flat_map_not_nil A B (f : A -> list B) l x :
  In x l -> f x <> [] -> flat_map f l <> [].
Proof.
  intros Hx Hf H. apply Hf.
  destruct (f x) as [|y l'] eqn:E; [reflexivity|].
  assert (Hy : In y (flat_map f l)) by (apply in_flat_map; exists x; rewrite E; simpl; auto).
  rewrite H in Hy. destruct Hy.
Qed.

Lemma ms_lit_in l p s c :
  ci_eq l p = true -> In (c, s) (ms true input (Lit l) (p ++ s) c).
Proof.
  intros H. cbn [ms]. rewrite (strip_prefix_app true l p s (ci_eq_strip l p H)). now left.
Qed.

Lemma ms_alt_l r1 r2 s c x :
  In x (ms true input r1 s c) -> In x (ms true input (r1 <|> r2) s c).
Proof. intros H. cbn [ms]. apply in_or_app. now left. Qed.

Lemma ms_alt_r r1 r2 s c x :
  In x (ms true input r2 s c) -> In x (ms true input (r1 <|> r2) s c).
Proof. intros H. cbn [ms]. apply in_or_app. now right. Qed.

Lemma verbs_in verb0 verb s c :
  In verb0 VERBS -> ci_eq verb0 verb = true ->
  In (c, s) (ms true input (Lit "give" <|> Lit "write" <|> Lit "show") (verb ++ s) c).
Proof.
  intros Hin Hci. destruct Hin as [<-|[<-|[<-|[]]]].
  - now apply ms_alt_l, ms_lit_in.
  - now apply ms_alt_r, ms_alt_l, ms_lit_in.
  - now apply ms_alt_r, ms_alt_r, ms_lit_in.
Qed.

Lemma nouns_in noun0 noun s c :
  In noun0 NOUNS -> ci_eq noun0 noun = true ->
  In (c, s) (ms true input (Lit "code" <|> Lit "answer" <|> Lit "solution" <|> Lit "full")
                (noun ++ s) c).
Proof.
  intros Hin Hci. destruct Hin as [<-|[<-|[<-|[<-|[]]]]].
  - now apply ms_alt_l, ms_lit_in.
  - now apply ms_alt_r, ms_alt_l, ms_lit_in.
  - now apply ms_alt_r, ms_alt_r, ms_alt_l, ms_lit_in.
  - now apply ms_alt_r, ms_alt_r, ms_alt_r, ms_lit_in.
Qed.

Lemma ms_group_in n r s c x :
  In x (ms true input r s c) ->
  In ((n, consumed s (snd x)) :: fst x, snd x) (ms true input (Group n r) s c).
Proof.
  intros H. cbn [ms].
  now apply (in_map (fun x => ((n, consumed s (snd x)) :: fst x, snd x))).
Qed.

Lemma ms_star_greedy_in k p s c :
  forallb (cls_match true k) p = true ->
  In (c, s) (ms true input (Star true k) (p ++ s) c).
Proof. intros H. cbn [ms]. apply in_map. now apply star_greedy_in. Qed.

Lemma in_not_nil A (x : A) l : In x l -> l <> [].
Proof. intros H ->. destruct H. Qed.

Lemma cheat_at_verb verb0 verb v noun0 noun t :
  In verb0 VERBS -> ci_eq verb0 verb = true ->
  In noun0 NOUNS -> ci_eq noun0 noun = true ->
  same_line v = true ->
  ms true input cheatRegex (verb ++ v ++ noun ++ t) [] <> [].
Proof.
  intros Hv Hvc Hn Hnc Hl. unfold cheatRegex.
  change (ms true input (?r1 >> ?r2) ?s [])
    with (flat_map (fun x => ms true input r2 (snd x) (fst x)) (ms true input r1 s [])).
  eapply flat_map_not_nil.
  - apply ms_group_in. apply (verbs_in verb0 verb (v ++ noun ++ t) [] Hv Hvc).
  - cbn [snd fst].
    change (ms true input (?r1 >> ?r2) ?s ?c)
      with (flat_map (fun x => ms true input r2 (snd x) (fst x)) (ms true input r1 s c)).
    eapply flat_map_not_nil.
    + apply (ms_star_greedy_in CDot v (noun ++ t)). exact Hl.
    + cbn [snd fst]. eapply in_not_nil. apply ms_group_in.
      apply (nouns_in noun0 noun t _ Hn Hnc).
Qed.

End Patterns.

Lemma cheatRegex_matches text : verb_then_noun text -> test true cheatRegex text = true.
Proof.
  intros (u & verb0 & verb & v & noun0 & noun & t & -> & Hv & Hvc & Hn & Hnc & Hl).
  unfold test.
  pose proof (search_some true (u ++ verb ++ v ++ noun ++ t) cheatRegex u
                (verb ++ v ++ noun ++ t)
                (cheat_at_verb _ verb0 verb v noun0 noun t Hv Hvc Hn Hnc Hl)) as H.
  now destruct (search _ _ _ _).
Qed.

(** ** The lists of matches *)

Lemma payloads_input i1 i2 r s :
  bol_free r = true ->
  List.map payload (matchAll_from true i1 r s 0)
  = List.map payload (matchAll_from true i2 r s 0).
Proof.
  intros Hb.
  assert (E : forall l, List.map payload l
              = List.map (fun u => trim (match capture 1 (fst (fst u)) with
                                         | Some v => v | None => EmptyString end))
                         (List.map unplaced l)).
  { intros l. rewrite map_map. reflexivity. }
  rewrite !E. now rewrite (matchAll_from_input true i1 i2 r Hb).
Qed.

Lemma mermaid_consumes input : consumes true input mermaidRegex.
Proof. apply consumes_lit. Qed.

Lemma conceptual_consumes input : consumes true input conceptualRegex.
Proof. apply consumes_lit. Qed.

(** The [exec] loop over the fenced blocks stops, and goes through the
    matches of the pattern from left to right. *)
Lemma exec_all_mermaid text :
  exec_loop true text (S (String.length text)) mermaidRegex text
  = Some (matchAll true mermaidRegex text)
  /\ exec_all true mermaidRegex text = matchAll true mermaidRegex text.
Proof.
  assert (H : exec_loop true text (S (String.length text)) mermaidRegex text
              = Some (matchAll true mermaidRegex text)).
  { apply exec_loop_matchAll; [apply mermaid_consumes | lia]. }
  split; [exact H|]. unfold exec_all. now rewrite H.
Qed.

Lemma blocks_step pre after body post :
  indexOf true FENCE (pre ++ FENCE ++ after) = Some (String.length pre) ->
  strip_hint after = body ++ FENCE ++ post ->
  indexOf true FENCE (body ++ FENCE ++ post) = Some (String.length body) ->
  blocks (pre ++ FENCE ++ after) = trim body :: blocks post.
Proof.
  intros Hpre Hh Hbody. unfold blocks.
  rewrite !(proj2 (exec_all_mermaid _)). unfold matchAll.
  set (text := pre ++ FENCE ++ after).
  rewrite (matchAll_from_search true text mermaidRegex text (mermaid_consumes text)).
  unfold text at 2.
  unfold mermaidRegex at 1. fold FENCE.
  rewrite (search_lit_skip true text FENCE _ pre (FENCE ++ after) Hpre).
  fold FENCE in Hpre. change (Lit FENCE >> _) with mermaidRegex.
  destruct (mermaid_at_fence text after body post Hh Hbody) as [l Hl].
  rewrite (search_here true text mermaidRegex _ _ _ l Hl).
  cbn [List.map rest]. f_equal.
  - unfold payload, group. simpl. apply trim_trimStart.
  - now apply payloads_input.
Qed.

Lemma blocks_none text :
  indexOf true FENCE text = None -> blocks text = [].
Proof.
  intros H. unfold blocks. rewrite (proj2 (exec_all_mermaid _)). unfold matchAll.
  rewrite (matchAll_from_search true text mermaidRegex text (mermaid_consumes text)).
  unfold mermaidRegex. fold FENCE. now rewrite search_lit_none.
Qed.

Lemma blocks_unclosed pre after :
  indexOf true FENCE (pre ++ FENCE ++ after) = Some (String.length pre) ->
  indexOf true FENCE after = None ->
  blocks (pre ++ FENCE ++ after) = [].
Proof.
  intros Hpre Hno. unfold blocks.
  rewrite (proj2 (exec_all_mermaid _)). unfold matchAll.
  set (text := pre ++ FENCE ++ after).
  rewrite (matchAll_from_search true text mermaidRegex text (mermaid_consumes text)).
  unfold text at 2. unfold mermaidRegex at 1. fold FENCE.
  rewrite (search_lit_skip true text FENCE _ pre (FENCE ++ after) Hpre).
  change (Lit FENCE >> _) with mermaidRegex.
  now rewrite mermaid_unclosed.
Qed.

Lemma directives_step pre tag inner post :
  indexOf true TAG (pre ++ tag ++ inner ++ "]" ++ post) = Some (String.length pre) ->
  ci_eq TAG tag = true -> inner <> EmptyString -> no_bracket inner = true ->
  image_candidates (pre ++ tag ++ inner ++ "]" ++ post)
  = trim inner :: image_candidates post.
Proof.
  intros Hpre Ht Hne Hnb. unfold image_candidates, matchAll.
  set (text := pre ++ tag ++ inner ++ "]" ++ post).
  rewrite (matchAll_from_search true text conceptualRegex text (conceptual_consumes text)).
  unfold text at 2. unfold conceptualRegex at 1. fold TAG.
  rewrite (search_lit_skip true text TAG _ pre _ Hpre).
  change (Lit TAG >> _) with conceptualRegex.
  destruct (conceptual_at_tag text tag inner post Ht Hne Hnb) as (cap & l & Hl & Htrim).
  rewrite (search_here true text conceptualRegex _ _ _ l Hl).
  cbn [List.map rest]. f_equal.
  - exact Htrim.
  - now apply (payloads_input text post conceptualRegex post).
Qed.

Lemma directives_none text :
  indexOf true TAG text = None -> image_candidates text = [].
Proof.
  intros H. unfold image_candidates, matchAll.
  rewrite (matchAll_from_search true text conceptualRegex text (conceptual_consumes text)).
  unfold conceptualRegex. fold TAG. now rewrite search_lit_none.
Qed.

(** The fence has no letters: with or without the [i] flag it is found
    at the same place. *)
Lemma indexOf_fence s : indexOf true FENCE s = indexOf false FENCE s.
Proof.
  assert (Hc : forall b, char_eq false "`" b = char_eq true "`" b).
  { intros b. now rewrite backtick_ci. }
  assert (H : forall t, startsWith true FENCE t = startsWith false FENCE t).
  { intros t. unfold startsWith, FENCE.
    destruct t as [|a [|b [|c t]]]; cbn [strip_prefix]; rewrite ?Hc; reflexivity. }
  induction s as [|a s IH]; cbn [indexOf]; rewrite H; [reflexivity|]. now rewrite IH.
Qed.

(** No match of the directive pattern starts at a tag that no bracket
    closes. *)
Lemma directive_unclosed pre tag s m :
  ci_eq TAG tag = true -> no_bracket s = true ->
  In m (matchAll true conceptualRegex (pre ++ tag ++ s)) ->
  index m <> String.length pre.
Proof.
  intros Ht Hs Hm Hi. unfold matchAll in Hm.
  set (text := pre ++ tag ++ s) in *.
  destruct (matchAll_from_origin true text conceptualRegex text 0 m Hm)
    as (p & t & l & E & Hms & Hidx).
  assert (Hlen : String.length t = String.length (tag ++ s)).
  { rewrite Hi in Hidx. rewrite E in Hidx. unfold text in E.
    apply (f_equal String.length) in E. rewrite !length_app in *. lia. }
  assert (t = tag ++ s) by (symmetry in E; apply (suffix_same_length p t pre (tag ++ s) E Hlen)).
  subst t. rewrite (conceptual_unclosed text tag s Ht Hs) in Hms. discriminate.
Qed.

(** ** The diagram test *)

Lemma search_bol_later input r s :
  String.length s < String.length input ->
  search true input (Bol >> r) s = None.
Proof.
  induction s as [|a s IH]; intros H.
  - cbn [search ms].
    destruct (Nat.eqb_spec (String.length EmptyString) (String.length input)) as [E|_]; [lia|].
    reflexivity.
  - cbn [search ms].
    destruct (Nat.eqb_spec (String.length (String a s)) (String.length input)) as [E|_]; [lia|].
    cbn [flat_map]. apply IH. simpl in H. lia.
Qed.

Lemma nonempty_app A (l1 l2 : list A) :
  match (l1 ++ l2)%list with [] => false | _ => true end
  = (match l1 with [] => false | _ => true end)
    || (match l2 with [] => false | _ => true end).
Proof. now destruct l1. Qed.

Lemma nonempty_map A B (f : A -> B) (l : list A) :
  match List.map f l with [] => false | _ => true end
  = match l with [] => false | _ => true end.
Proof. now destruct l. Qed.

Lemma matches_alt input r1 r2 s :
  matches input (r1 <|> r2) s = matches input r1 s || matches input r2 s.
Proof. unfold matches. cbn [ms]. apply nonempty_app. Qed.

Lemma matches_lit input l s : matches input (Lit l) s = startsWith true l s.
Proof. unfold matches, startsWith. cbn [ms]. now destruct (strip_prefix true l s). Qed.

Lemma matches_group input n r s : matches input (Group n r) s = matches input r s.
Proof. unfold matches. cbn [ms]. apply nonempty_map. Qed.

Lemma matches_bol input r : matches input (Bol >> r) input = matches input r input.
Proof.
  unfold matches. cbn [ms]. rewrite Nat.eqb_refl. cbn [flat_map fst snd].
  now rewrite List.app_nil_r.
Qed.

Lemma test_bol r c : test true (Bol >> r) c = matches c (Bol >> r) c.
Proof.
  unfold test, matches.
  destruct (ms true c (Bol >> r) c []) as [|[cc s'] l] eqn:E.
  - destruct c as [|a c']; cbn [search]; rewrite E; [reflexivity|].
    rewrite search_bol_later; [reflexivity | simpl; lia].
  - now rewrite (search_here true c (Bol >> r) c cc s' l E).
Qed.

Lemma test_diagramRegex c :
  test true diagramRegex c = existsb (fun kw => startsWith true kw c) KEYWORDS.
Proof.
  unfold diagramRegex. rewrite test_bol, matches_bol, matches_group.
  rewrite !matches_alt, !matches_lit. unfold KEYWORDS. cbn [existsb].
  now rewrite orb_false_r.
Qed.

(** The diagram test, in words: the content starts with a keyword of
    the list, whatever the letter case, or holds an arrow. *)
Lemma looks_like_diagram_iff c :
  looks_like_diagram c = true <->
  (exists kw, In kw KEYWORDS /\ startsWith true kw c = true)
  \/ includes "-->" c = true.
Proof.
  unfold looks_like_diagram. rewrite test_diagramRegex, orb_true_iff, existsb_exists.
  reflexivity.
Qed.

(** ** The blocks of a text *)

Lemma blocks_fenced text bodies :
  Fenced text bodies -> blocks text = List.map trim bodies.
Proof.
  induction 1 as [text H|pre after H1 H2|pre after body post bodies H1 H2 H3 _ IH].
  - now apply blocks_none.
  - now apply blocks_unclosed.
  - cbn [List.map]. rewrite <- IH. now apply blocks_step.
Qed.

(** A text without a fence has no fenced block. *)
Lemma no_fence_is_fenced text : includes FENCE text = false -> Fenced text [].
Proof.
  intros H. apply Fenced_none. rewrite indexOf_fence. now apply includes_ci_false.
Qed.

(** ** Every text falls into fenced blocks *)

Lemma indexOf_split ic l s : forall i,
  indexOf ic l s = Some i ->
  exists pre rest, s = pre ++ rest /\ String.length pre = i /\ startsWith ic l rest = true.
Proof.
  induction s as [|a s IH]; intros i H.
  - cbn [indexOf] in H. destruct (startsWith ic l EmptyString) eqn:E; [|discriminate].
    injection H as <-. now exists EmptyString, EmptyString.
  - cbn [indexOf] in H. destruct (startsWith ic l (String a s)) eqn:E.
    + injection H as <-. now exists EmptyString, (String a s).
    + destruct (indexOf ic l s) as [j|]; [|discriminate]. injection H as <-.
      destruct (IH j eq_refl) as (pre & rest & -> & Hl & Hs).
      exists (String a pre), rest. simpl. auto.
Qed.

Lemma startsWith_fence rest :
  startsWith true FENCE rest = true -> exists after, rest = FENCE ++ after.
Proof.
  unfold startsWith. destruct (strip_prefix true FENCE rest) as [x|] eqn:E; [|discriminate].
  intros _. exists x. now apply fence_exact.
Qed.

Lemma ci_no_backtick l : forall p,
  strip_prefix true l p = Some EmptyString -> no_backtick l = true -> no_backtick p = true.
Proof.
  unfold no_backtick.
  induction l as [|x l IH]; intros [|b p] H Hl; cbn [strip_prefix forallb] in *;
    try discriminate; try reflexivity.
  destruct (char_eq true x b) eqn:E; [|discriminate].
  apply andb_true_iff in Hl as [Hx Hl]. rewrite (IH p H Hl), andb_true_r.
  destruct (Ascii.eqb_spec "`"%char b) as [<-|]; [|reflexivity].
  unfold char_eq in E. rewrite Ascii.eqb_sym in E.
  change (Ascii.eqb (canonicalize "`") (canonicalize x)) with (char_eq true "`" x) in E.
  rewrite backtick_ci in E. now rewrite E in Hx.
Qed.

Lemma strip_hint_split after :
  exists h, after = h ++ strip_hint after /\ no_backtick h = true.
Proof.
  unfold strip_hint.
  destruct (strip_prefix true "mermaid" after) as [s|] eqn:E1.
  { destruct (strip_prefix_split true _ _ _ E1) as (p & -> & _ & Hp).
    exists p. split; [reflexivity|]. now apply (ci_no_backtick "mermaid"). }
  destruct (strip_prefix true "flowchart" after) as [s|] eqn:E2.
  { destruct (strip_prefix_split true _ _ _ E2) as (p & -> & _ & Hp).
    exists p. split; [reflexivity|]. now apply (ci_no_backtick "flowchart"). }
  destruct (strip_prefix true "text" after) as [s|] eqn:E3.
  { destruct (strip_prefix_split true _ _ _ E3) as (p & -> & _ & Hp).
    exists p. split; [reflexivity|]. now apply (ci_no_backtick "text"). }
  destruct (strip_prefix true "sequenceDiagram" after) as [s|] eqn:E4.
  { destruct (strip_prefix_split true _ _ _ E4) as (p & -> & _ & Hp).
    exists p. split; [reflexivity|]. now apply (ci_no_backtick "sequenceDiagram"). }
  now exists EmptyString.
Qed.

Lemma indexOf_fence_past h s :
  no_backtick h = true ->
  indexOf true FENCE s = None -> indexOf true FENCE (h ++ s) = None.
Proof.
  unfold no_backtick. induction h as [|b h IH]; intros Hh Hs; [exact Hs|].
  cbn [forallb] in Hh. apply andb_true_iff in Hh as [Hb Hh].
  change (String b h ++ s) with (String b (h ++ s)). cbn [indexOf].
  assert (E : startsWith true FENCE (String b (h ++ s)) = false).
  { unfold startsWith, FENCE. cbn [strip_prefix]. rewrite backtick_ci.
    apply negb_true_iff in Hb. now rewrite Hb. }
  rewrite E, (IH Hh Hs). reflexivity.
Qed.

Lemma every_text_is_fenced text : exists bodies, Fenced text bodies.
Proof.
  remember (String.length text) as n eqn:Hn.
  revert text Hn. induction n as [n IH] using lt_wf_ind. intros text Hn.
  destruct (indexOf true FENCE text) as [i|] eqn:Hi.
  2:{ exists []. now apply Fenced_none. }
  destruct (indexOf_split true FENCE text i Hi) as (pre & rest & -> & Hl & Hs).
  destruct (startsWith_fence rest Hs) as [after ->]. subst i.
  destruct (indexOf true FENCE (strip_hint after)) as [j|] eqn:Hj.
  - destruct (indexOf_split true FENCE _ j Hj) as (body & rest & Hsplit & Hl & Hs').
    destruct (startsWith_fence rest Hs') as [post ->]. subst j.
    rewrite Hsplit in Hj.
    destruct (strip_hint_split after) as (h & Hafter & _).
    destruct (IH (String.length post)) with (text := post) as [bodies HF]; [|reflexivity|].
    { subst n. rewrite Hafter, Hsplit. rewrite !length_app. simpl. lia. }
    exists (body :: bodies). now apply (Fenced_block pre after body post bodies).
  - exists []. apply Fenced_open; [exact Hi|].
    destruct (strip_hint_split after) as (h & Hafter & Hh).
    rewrite Hafter. now apply indexOf_fence_past.
Qed.

(** ** A block by its inner text *)

(** A literal that holds no unit like [b] ends before a [b]. *)
Lemma strip_prefix_before l b t : forall p,
  forallb (fun x => negb (char_eq true x b)) l = true ->
  strip_prefix true l (p ++ String b t)
  = option_map (fun x => x ++ String b t) (strip_prefix true l p).
Proof.
  induction l as [|x l IH]; intros p Hl; [reflexivity|].
  cbn [forallb] in Hl. apply andb_true_iff in Hl as [Hx Hl].
  apply negb_true_iff in Hx.
  destruct p as [|y p].
  - cbn [append strip_prefix option_map]. now rewrite Hx.
  - change (String y p ++ String b t) with (String y (p ++ String b t)).
    cbn [strip_prefix]. destruct (char_eq true x y); [now apply IH | reflexivity].
Qed.

(** The hint of a block lies before its closing fence. *)
Lemma strip_hint_app inner post :
  strip_hint (inner ++ FENCE ++ post) = strip_hint inner ++ FENCE ++ post.
Proof.
  unfold strip_hint.
  change (FENCE ++ post) with (String "`" ("``" ++ post)).
  rewrite !strip_prefix_before by reflexivity.
  destruct (strip_prefix true "mermaid" inner); [reflexivity|].
  destruct (strip_prefix true "flowchart" inner); [reflexivity|].
  destruct (strip_prefix true "text" inner); [reflexivity|].
  destruct (strip_prefix true "sequenceDiagram" inner); reflexivity.
Qed.

(** The first block of a text by its inner text, what lies between the
    opening fence and the next one: its content is the inner text
    without the hint, trimmed. *)
Lemma blocks_inner pre inner post :
  indexOf true FENCE (pre ++ FENCE ++ inner ++ FENCE ++ post) = Some (String.length pre) ->
  indexOf true FENCE (inner ++ FENCE ++ post) = Some (String.length inner) ->
  blocks (pre ++ FENCE ++ inner ++ FENCE ++ post)
  = trim (strip_hint inner) :: blocks post.
Proof.
  intros Hpre Hin.
  apply (blocks_step pre (inner ++ FENCE ++ post) (strip_hint inner) post Hpre).
  - apply strip_hint_app.
  - destruct (strip_hint_split inner) as (h & Hh & _).
    now apply (indexOf_app true FENCE inner (FENCE ++ post) Hin h (strip_hint inner)).
Qed.

(** ** A directive after closed ones *)

Lemma startsWith_indexOf ic l s : startsWith ic l s = true -> indexOf ic l s = Some 0.
Proof. intros H. destruct s; cbn [indexOf]; now rewrite H. Qed.

(** A unit at which the directive pattern does not match is passed
    over. *)
Lemma directives_skip_unit a s :
  ms true (String a s) conceptualRegex (String a s) [] = [] ->
  image_candidates (String a s) = image_candidates s.
Proof.
  intros H. unfold image_candidates, matchAll.
  set (text := String a s).
  rewrite (matchAll_from_search true text conceptualRegex text (conceptual_consumes text)).
  unfold text at 2. rewrite (search_next true text conceptualRegex a s H).
  rewrite <- (matchAll_from_search true text conceptualRegex s (conceptual_consumes text)).
  now apply (payloads_input text s conceptualRegex s).
Qed.

(** The tag starts with a bracket that occurs nowhere else in it: when
    a tag follows [pre], no tag starts in [pre] and ends past it. *)
Lemma tag_within a pre tag rest :
  ci_eq TAG tag = true ->
  startsWith true TAG (String a pre ++ tag ++ rest) = startsWith true TAG (String a pre).
Proof.
  intros Ht.
  destruct (startsWith true TAG (String a pre)) eqn:E.
  - unfold startsWith in E.
    destruct (strip_prefix true TAG (String a pre)) as [s'|] eqn:Es; [|discriminate].
    destruct (strip_prefix_split true _ _ _ Es) as (p & Hp & _ & Hstrip).
    rewrite Hp, StringFacts.app_assoc. now apply startsWith_app.
  - destruct tag as [|b tag']; [discriminate|].
    unfold TAG in Ht. cbn [ci_eq] in Ht. apply andb_true_iff in Ht as [Hb _].
    assert (Hl : forallb (fun x => negb (char_eq true x b)) "CONCEPTUAL_VISUAL:" = true).
    { unfold char_eq in Hb. apply Ascii.eqb_eq in Hb.
      unfold char_eq. cbn [forallb]. rewrite <- Hb. reflexivity. }
    unfold startsWith in *.
    change (String a pre ++ String b tag' ++ rest)
      with (String a (pre ++ String b (tag' ++ rest))).
    unfold TAG in *. remember "CONCEPTUAL_VISUAL:" as l eqn:El.
    cbn [strip_prefix] in *.
    destruct (char_eq true "[" a); [|reflexivity].
    rewrite (strip_prefix_before l b (tag' ++ rest) pre Hl).
    now destruct (strip_prefix true l pre).
Qed.

Lemma tags_closed_suffix p : forall s, tags_closed (p ++ s) = true -> tags_closed s = true.
Proof.
  induction p as [|a p IH]; intros s H; [exact H|].
  change (String a p ++ s) with (String a (p ++ s)) in H. cbn [tags_closed] in H.
  apply andb_true_iff in H as [_ H]. now apply IH.
Qed.

Lemma ci_no_bracket l : forall p,
  ci_eq l p = true -> no_bracket l = true -> no_bracket p = true.
Proof.
  unfold no_bracket.
  induction l as [|x l IH]; intros [|b p] H Hl; cbn [ci_eq forallb] in *;
    try discriminate; try reflexivity.
  apply andb_true_iff in H as [E H].
  apply andb_true_iff in Hl as [Hx Hl]. rewrite (IH p H Hl), andb_true_r.
  destruct (Ascii.eqb_spec "]"%char b) as [<-|]; [|reflexivity].
  unfold char_eq in E. rewrite Ascii.eqb_sym in E.
  change (Ascii.eqb (canonicalize "]") (canonicalize x)) with (char_eq true "]" x) in E.
  rewrite bracket_ci in E. now rewrite E in Hx.
Qed.

(** A text with a closing bracket, cut at its first one. *)
Lemma bracket_split r :
  no_bracket r = false ->
  exists s r1, r = s ++ "]" ++ r1 /\ no_bracket s = true.
Proof.
  unfold no_bracket. induction r as [|b r IH]; cbn [forallb]; [discriminate|].
  destruct (Ascii.eqb_spec "]"%char b) as [<-|Hb]; cbn [negb andb].
  - intros _. now exists EmptyString, r.
  - intros H. destruct (IH H) as (s & r1 & -> & Hs).
    exists (String b s), r1. split; [reflexivity|]. cbn [forallb].
    rewrite Hs, andb_true_r. apply negb_true_iff. now apply Ascii.eqb_neq.
Qed.

(** No match starts at a tag that is closed at once. *)
Lemma conceptual_empty input tag post :
  ci_eq TAG tag = true ->
  ms true input conceptualRegex (tag ++ "]" ++ post) [] = [].
Proof.
  intros Ht. unfold conceptualRegex. fold TAG.
  rewrite ms_lit_seq by (now apply ci_eq_strip). reflexivity.
Qed.

Lemma directives_here tag inner post :
  ci_eq TAG tag = true -> inner <> EmptyString -> no_bracket inner = true ->
  image_candidates (tag ++ inner ++ "]" ++ post) = trim inner :: image_candidates post.
Proof.
  intros Ht Hne Hnb. apply (directives_step EmptyString tag inner post); auto.
  apply startsWith_indexOf. apply (startsWith_app true TAG tag). now apply ci_eq_strip.
Qed.

(** A directive before which every tag is closed: the candidates of
    the text are those of what comes before it, its own, and those of
    what follows it. *)
Lemma directives_split n : forall pre tag inner post,
  String.length pre <= n ->
  tags_closed pre = true ->
  ci_eq TAG tag = true -> inner <> EmptyString -> no_bracket inner = true ->
  image_candidates (pre ++ tag ++ inner ++ "]" ++ post)
  = (image_candidates pre ++ trim inner :: image_candidates post)%list.
Proof.
  induction n as [n IH] using lt_wf_ind.
  intros pre tag inner post Hn Hc Ht Hne Hnb.
  destruct pre as [|a pre].
  { change (image_candidates EmptyString) with (@nil string). cbn [List.app].
    now apply directives_here. }
  set (text := String a pre ++ tag ++ inner ++ "]" ++ post).
  assert (Hskip :
    ms true (String a pre) conceptualRegex (String a pre) [] = [] ->
    ms true text conceptualRegex text [] = [] ->
    image_candidates text
    = (image_candidates (String a pre) ++ trim inner :: image_candidates post)%list).
  { intros H1 H2. unfold text in *.
    change (String a pre ++ tag ++ inner ++ "]" ++ post)
      with (String a (pre ++ tag ++ inner ++ "]" ++ post)) in *.
    rewrite (directives_skip_unit a _ H2), (directives_skip_unit a pre H1).
    assert (Hlt : String.length pre < n) by (simpl in Hn; lia).
    assert (Hc' : tags_closed pre = true).
    { cbn [tags_closed] in Hc. now apply andb_true_iff in Hc as [_ Hc]. }
    exact (IH (String.length pre) Hlt pre tag inner post (Nat.le_refl _) Hc' Ht Hne Hnb). }
  destruct (startsWith true TAG (String a pre)) eqn:Hs.
  - (* a tag starts here *)
    pose proof Hc as Hc0. cbn [tags_closed] in Hc0. rewrite Hs in Hc0.
    apply andb_true_iff in Hc0 as [Hb _]. cbn [andb] in Hb. apply negb_true_iff in Hb.
    unfold startsWith in Hs.
    destruct (strip_prefix true TAG (String a pre)) as [r0|] eqn:Es; [|discriminate].
    destruct (strip_prefix_split true _ _ _ Es) as (tag0 & Hp & _ & Hstrip).
    apply strip_prefix_ci_eq in Hstrip.
    rewrite Hp, no_bracket_app, (ci_no_bracket TAG tag0 Hstrip eq_refl) in Hb.
    cbn [andb] in Hb.
    destruct (bracket_split r0 Hb) as (s & r1 & -> & Hs0).
    destruct s as [|b s].
    + (* closed at once: no match here *)
      apply Hskip.
      * rewrite Hp. now apply (conceptual_empty _ tag0 r1).
      * unfold text. rewrite Hp. rewrite !StringFacts.app_assoc.
        now apply (conceptual_empty _ tag0 (r1 ++ tag ++ inner ++ "]" ++ post)).
    + (* a directive: one candidate, then what follows it *)
      unfold text. rewrite Hp. rewrite !StringFacts.app_assoc.
      rewrite (directives_here tag0 (String b s) (r1 ++ tag ++ inner ++ "]" ++ post)
                 Hstrip ltac:(discriminate) Hs0).
      rewrite (directives_here tag0 (String b s) r1 Hstrip ltac:(discriminate) Hs0).
      cbn [List.app]. f_equal.
      assert (Hlt : String.length r1 < n).
      { apply (f_equal String.length) in Hp. rewrite !length_app in Hp.
        simpl in Hp, Hn. lia. }
      apply (IH (String.length r1) Hlt r1 tag inner post (Nat.le_refl _)); auto.
      rewrite Hp in Hc. apply tags_closed_suffix in Hc.
      apply tags_closed_suffix in Hc.
      change ("]" ++ r1) with (String "]" EmptyString ++ r1) in Hc.
      now apply tags_closed_suffix in Hc.
  - (* no tag starts here *)
    apply Hskip.
    + unfold conceptualRegex. fold TAG. now apply ms_lit_seq_nil.
    + unfold conceptualRegex. fold TAG. apply ms_lit_seq_nil.
      unfold text. now rewrite tag_within.
Qed.

(** No match of the directive pattern starts at a tag that is closed
    at once. *)
Lemma directive_empty pre tag post m :
  ci_eq TAG tag = true ->
  In m (matchAll true conceptualRegex (pre ++ tag ++ "]" ++ post)) ->
  index m <> String.length pre.
Proof.
  intros Ht Hm Hi. unfold matchAll in Hm.
  set (text := pre ++ tag ++ "]" ++ post) in *.
  destruct (matchAll_from_origin true text conceptualRegex text 0 m Hm)
    as (p & t & l & E & Hms & Hidx).
  assert (Hlen : String.length t = String.length (tag ++ "]" ++ post)).
  { rewrite Hi in Hidx. rewrite E in Hidx. unfold text in E.
    apply (f_equal String.length) in E. rewrite !length_app in *. lia. }
  assert (t = tag ++ "]" ++ post)
    by (symmetry in E; apply (suffix_same_length p t pre (tag ++ "]" ++ post) E Hlen)).
  subst t. rewrite (conceptual_empty text tag post Ht) in Hms. discriminate.
Qed.

End ExtractorFacts.

(* ===================================================================== *)
(** * One pass over a response *)
(* ===================================================================== *)

Module FeedFacts.
Import JsString Regex Types Eff Gemini App Spec.
Import EffFacts TurnFacts BuilderFacts StringFacts RegexFacts ExtractorFacts.
Local Open Scope eff_scope.

Section Feed.
Variable env : Env.

Lemma new_item_run tag ty c w :
  exists it,
    new_item env tag ty c w
    = (Ok it, mkWorld (app w) (sent w) (asked w) (S (S (S (ticks w)))) (log w))
    /\ shown it = (ty, c).
Proof. eexists. split; reflexivity. Qed.

Lemma mermaid_loop l : forall acc w,
  exists ds,
    for_of l (mermaid_step env) acc w
    = (Ok (acc ++ ds)%list,
       mkWorld (app w) (sent w) (asked w) (3 * List.length ds + ticks w) (log w))
    /\ List.map shown ds
       = List.map (pair mermaid) (List.filter looks_like_diagram (List.map payload l)).
Proof.
  induction l as [|m l IH]; intros acc w.
  - exists []. rewrite List.app_nil_r. destruct w. now split.
  - cbn [for_of]. unfold bind at 1. unfold mermaid_step at 1. fold (payload m).
    cbn [List.map List.filter].
    destruct (looks_like_diagram (payload m)).
    + destruct (new_item_run "mermaid" mermaid (payload m) w) as (it & Hrun & Hit).
      unfold bind. rewrite Hrun. unfold ret. cbv beta iota.
      destruct (IH (acc ++ [it])%list (mkWorld (app w) (sent w) (asked w) (S (S (S (ticks w)))) (log w)))
        as (ds & Hl & Hds).
      exists (it :: ds). rewrite Hl. cbn [app sent asked log ticks List.length].
      rewrite <- List.app_assoc. split.
      * replace (3 * S (List.length ds) + ticks w) with (3 * List.length ds + S (S (S (ticks w)))) by lia.
        reflexivity.
      * cbn [List.map]. now rewrite Hit, Hds.
    + unfold ret. apply IH.
Qed.

Lemma conceptual_step_result acc m w :
  exists o w' lg,
    conceptual_step env acc m w = (Ok (acc ++ of_option o)%list, w')
    /\ (forall it, o = Some it -> type it = image)
    /\ app w' = setIsGeneratingImage false (app w)
    /\ log w' = (log w ++ lg)%list
    /\ image_prompts lg = [payload m].
Proof.
  destruct (conceptual_step_spec env acc m w) as (items' & w' & lg & Hrun & Happ & Hlog & Hp & Hcase).
  cbv zeta in Hcase.
  destruct (fst (generateImage env (trim (group 1 m)) "1K" w)) as [[img|]|e].
  - destruct Hcase as [_ Hcase]. destruct (truthy img).
    + destruct Hcase as (it & -> & Hty & _).
      exists (Some it), w', lg. repeat split; auto. now intros ? [= <-].
    + subst items'. exists None, w', lg. cbn [of_option]. rewrite List.app_nil_r.
      repeat split; auto. discriminate.
  - destruct Hcase as [_ ->]. exists None, w', lg. cbn [of_option]. rewrite List.app_nil_r.
    repeat split; auto. discriminate.
  - destruct Hcase as [_ ->]. exists None, w', lg. cbn [of_option]. rewrite List.app_nil_r.
    repeat split; auto. discriminate.
Qed.

Lemma conceptual_loop l : forall acc w,
  exists results w' lg,
    for_of l (conceptual_step env) acc w
    = (Ok (acc ++ flat_map of_option results)%list, w')
    /\ List.length results = List.length l
    /\ Forall (fun it => type it = image) (flat_map of_option results)
    /\ app w' = match l with [] => app w | _ => setIsGeneratingImage false (app w) end
    /\ log w' = (log w ++ lg)%list
    /\ image_prompts lg = List.map payload l
    /\ (l = [] -> w' = w).
Proof.
  induction l as [|m l IH]; intros acc w.
  - exists [], w, []. cbn. rewrite !List.app_nil_r. repeat split; auto.
  - cbn [for_of]. unfold bind.
    destruct (conceptual_step_result acc m w)
      as (o & w1 & lg1 & Hrun & Hty & Happ & Hlog & Hp).
    rewrite Hrun.
    destruct (IH (acc ++ of_option o)%list w1)
      as (results & w' & lg & Hl & Hlen & Hall & Happ' & Hlog' & Hp' & _).
    exists (o :: results), w', (lg1 ++ lg)%list. rewrite Hl.
    cbn [flat_map List.length List.map].
    rewrite <- List.app_assoc. repeat split; auto.
    + apply Forall_app. split; [|assumption].
      destruct o as [it|]; cbn; [constructor; auto | constructor].
    + rewrite Happ', Happ. now destruct l.
    + rewrite Hlog', Hlog. now rewrite List.app_assoc.
    + now rewrite image_prompts_app, Hp, Hp'.
    + discriminate.
Qed.

Lemma length_zero_nil A (l : list A) : (0 <? List.length l)%nat = false -> l = [].
Proof. destruct l; [reflexivity | discriminate]. Qed.

(** One pass of [extractVisualization]: it completes normally; the
    feed grows by the diagrams, the inline image and the images of the
    directives that resolved, in this order; the image requests went
    out in the order of the directives. *)
Lemma extractVisualization_spec text ip w :
  exists ds inl results w' lg,
    extractVisualization env text ip w = (Ok tt, w')
    /\ List.map shown ds = List.map (pair mermaid) (diagram_candidates text)
    /\ List.map shown inl = inline_image ip
    /\ List.length results = List.length (image_candidates text)
    /\ Forall (fun it => type it = image) (flat_map of_option results)
    /\ items (visualization (app w'))
       = (items (visualization (app w)) ++ ds ++ inl ++ flat_map of_option results)%list
    /\ log w' = (log w ++ lg)%list
    /\ image_prompts lg = image_candidates text
    /\ (diagram_candidates text = [] -> inline_image ip = [] ->
        image_candidates text = [] -> w' = w).
Proof.
  unfold extractVisualization, extract_diagrams, resolve_images.
  unfold bind at 1.
  destruct (mermaid_loop (exec_all true mermaidRegex text) [] w) as (ds & Hm & Hds).
  rewrite Hm. cbn [List.app].
  change (List.filter looks_like_diagram (List.map payload (exec_all true mermaidRegex text)))
    with (diagram_candidates text) in Hds.
  set (w1 := mkWorld (app w) (sent w) (asked w) (3 * List.length ds + ticks w) (log w)).
  assert (Hinl : exists inl w2,
    (match ip with
     | Some img => if truthy img
                   then bind (new_item env "img" image img) (fun item => ret (ds ++ [item])%list)
                   else ret ds
     | None => ret ds
     end) w1 = (Ok (ds ++ inl)%list, w2)
    /\ List.map shown inl = inline_image ip
    /\ app w2 = app w /\ log w2 = log w
    /\ (ds = [] -> inline_image ip = [] -> w2 = w)).
  { unfold inline_image. destruct ip as [img|].
    - destruct (truthy img).
      + destruct (new_item_run "img" image img w1) as (it & Hrun & Hit).
        unfold bind. rewrite Hrun. exists [it]. eexists. split; [reflexivity|].
        cbn. rewrite Hit. repeat split. discriminate.
      + exists [], w1. rewrite List.app_nil_r. repeat split.
        intros -> _. subst w1. now destruct w.
    - exists [], w1. rewrite List.app_nil_r. repeat split.
      intros -> _. subst w1. now destruct w. }
  destruct Hinl as (inl & w2 & Hrun2 & Hinl & Happ2 & Hlog2 & Hsame2).
  unfold bind at 1. rewrite Hrun2.
  destruct (conceptual_loop (matchAll true conceptualRegex text) (ds ++ inl)%list w2)
    as (results & w3 & lg & Hrun3 & Hlen & Hall & Happ3 & Hlog3 & Hp & Hsame3).
  unfold bind at 1. rewrite Hrun3.
  change (List.map payload (matchAll true conceptualRegex text))
    with (image_candidates text) in Hp.
  assert (Hviz3 : visualization (app w3) = visualization (app w)).
  { rewrite Happ3, <- Happ2. now destruct (matchAll true conceptualRegex text). }
  assert (Hds0 : diagram_candidates text = [] -> ds = []).
  { intros E. rewrite E in Hds. now destruct ds. }
  destruct (0 <? List.length ((ds ++ inl) ++ flat_map of_option results))%nat eqn:Hlen0.
  - exists ds, inl, results. eexists. exists lg.
    split; [reflexivity|]. cbn [app visualization setVisualization setActiveTab
                                 setMobileView items log].
    rewrite Hviz3, Hlog3, Hlog2, <- List.app_assoc.
    unfold image_candidates. rewrite length_map.
    repeat split; auto.
    intros E1 E2 E3. exfalso.
    rewrite (Hds0 E1) in *. rewrite E2 in Hinl. destruct inl; [|discriminate].
    unfold image_candidates in E3. apply map_eq_nil in E3. rewrite E3 in Hlen.
    destruct results; [|discriminate]. discriminate.
  - apply length_zero_nil in Hlen0.
    apply app_eq_nil in Hlen0 as [Hlen0 Hr]. apply app_eq_nil in Hlen0 as [-> ->].
    exists [], [], results, w3, lg. split; [reflexivity|].
    rewrite Hviz3, Hr, Hlog3, Hlog2. cbn [List.app]. rewrite List.app_nil_r.
    unfold image_candidates. rewrite length_map.
    repeat split; auto.
    intros E1 E2 E3. unfold image_candidates in E3. apply map_eq_nil in E3.
    rewrite (Hsame3 E3). now apply Hsame2.
Qed.

(** ** What the directives add *)

(** One directive adds the image [generateImage] returned for it, and
    sends what [generateImage] sends. *)
Lemma conceptual_step_image acc m w :
  exists its w',
    conceptual_step env acc m w = (Ok (acc ++ its)%list, w')
    /\ List.map shown its
       = List.map (pair image) (returned (fst (generateImage env (payload m) "1K" w)))
    /\ sent w' = sent (snd (generateImage env (payload m) "1K" w)).
Proof.
  unfold conceptual_step. fold (payload m).
  unfold bind at 1. unfold modify at 1.
  set (w1 := mkWorld (setIsGeneratingImage true (app w)) (sent w) (asked w) (ticks w) (log w)).
  rewrite <- (generateImage_fst env (payload m) "1K" w w1 eq_refl).
  rewrite <- (generateImage_sent env (payload m) "1K" w w1 eq_refl).
  unfold try_finally, try_catch. unfold bind at 1.
  destruct (generateImage env (payload m) "1K" w1) as [[[img|]|e] w2]; cbn [fst snd returned].
  - destruct (truthy img).
    + unfold new_item, bind, Date_now, Math_random, ret, modify, tick. simpl.
      eexists [_]. eexists. split; [reflexivity|]. split; reflexivity.
    + simpl. exists []. eexists. rewrite List.app_nil_r. split; [reflexivity|]. split; reflexivity.
  - simpl. exists []. eexists. rewrite List.app_nil_r. split; [reflexivity|]. split; reflexivity.
  - unfold bind, console_error, emit.
    destruct (aistudio env) as [studio|].
    + destruct (permission_denied e).
      * unfold await_openSelectKey, ret, modify. simpl.
        destruct (openSelectKey studio (asked w2)); simpl;
          exists []; eexists; rewrite List.app_nil_r; (split; [reflexivity|]); split; reflexivity.
      * simpl. exists []. eexists. rewrite List.app_nil_r. split; [reflexivity|]. split; reflexivity.
    + simpl. exists []. eexists. rewrite List.app_nil_r. split; [reflexivity|]. split; reflexivity.
Qed.

Lemma conceptual_loop_images l : forall acc w,
  exists imgs w',
    for_of l (conceptual_step env) acc w = (Ok (acc ++ imgs)%list, w')
    /\ List.map shown imgs
       = List.map (pair image) (directive_images env (List.map payload l) w).
Proof.
  induction l as [|m l IH]; intros acc w.
  - exists [], w. rewrite List.app_nil_r. split; reflexivity.
  - cbn [for_of]. unfold bind.
    destruct (conceptual_step_image acc m w) as (its & w1 & Hrun & Hits & Hsent).
    rewrite Hrun.
    destruct (IH (acc ++ its)%list w1) as (imgs & w' & Hl & Himgs).
    exists (its ++ imgs)%list, w'. rewrite Hl, <- List.app_assoc. split; [reflexivity|].
    cbn [List.map directive_images]. cbv zeta.
    rewrite !List.map_app, Hits, Himgs. f_equal. f_equal.
    now apply directive_images_sent.
Qed.

Lemma conceptual_loop_run l acc w :
  exists imgs w' lg,
    for_of l (conceptual_step env) acc w = (Ok (acc ++ imgs)%list, w')
    /\ List.map shown imgs
       = List.map (pair image) (directive_images env (List.map payload l) w)
    /\ app w' = match l with [] => app w | _ => setIsGeneratingImage false (app w) end
    /\ log w' = (log w ++ lg)%list
    /\ image_prompts lg = List.map payload l.
Proof.
  destruct (conceptual_loop l acc w)
    as (results & w' & lg & Hrun & _ & _ & Happ & Hlog & Hp & _).
  destruct (conceptual_loop_images l acc w) as (imgs & w'' & Hrun' & Himgs).
  rewrite Hrun in Hrun'. injection Hrun' as Heq <-.
  apply app_inv_head in Heq. rewrite <- Heq in Himgs.
  exists (flat_map of_option results), w', lg. auto.
Qed.

(** One pass of [extractVisualization], with what it appends: the
    diagrams, the inline image, and the images [generateImage]
    returned for the directives, asked for one after the other. *)
Lemma extractVisualization_images text ip w :
  exists ds inl imgs w' lg,
    extractVisualization env text ip w = (Ok tt, w')
    /\ items (visualization (app w'))
       = (items (visualization (app w)) ++ ds ++ inl ++ imgs)%list
    /\ List.map shown ds = List.map (pair mermaid) (diagram_candidates text)
    /\ List.map shown inl = inline_image ip
    /\ List.map shown imgs
       = List.map (pair image) (directive_images env (image_candidates text) w)
    /\ log w' = (log w ++ lg)%list
    /\ image_prompts lg = image_candidates text.
Proof.
  unfold extractVisualization, extract_diagrams, resolve_images.
  unfold bind at 1.
  destruct (mermaid_loop (exec_all true mermaidRegex text) [] w) as (ds & Hm & Hds).
  rewrite Hm. cbn [List.app].
  change (List.filter looks_like_diagram (List.map payload (exec_all true mermaidRegex text)))
    with (diagram_candidates text) in Hds.
  set (w1 := mkWorld (app w) (sent w) (asked w) (3 * List.length ds + ticks w) (log w)).
  assert (Hinl : exists inl w2,
    (match ip with
     | Some img => if truthy img
                   then bind (new_item env "img" image img) (fun item => ret (ds ++ [item])%list)
                   else ret ds
     | None => ret ds
     end) w1 = (Ok (ds ++ inl)%list, w2)
    /\ List.map shown inl = inline_image ip
    /\ app w2 = app w /\ log w2 = log w /\ sent w2 = sent w).
  { unfold inline_image. destruct ip as [img|].
    - destruct (truthy img).
      + destruct (new_item_run "img" image img w1) as (it & Hrun & Hit).
        unfold bind. rewrite Hrun. exists [it]. eexists. split; [reflexivity|].
        cbn. rewrite Hit. repeat split.
      + exists [], w1. rewrite List.app_nil_r. repeat split.
    - exists [], w1. rewrite List.app_nil_r. repeat split. }
  destruct Hinl as (inl & w2 & Hrun2 & Hinl & Happ2 & Hlog2 & Hsent2).
  unfold bind at 1. rewrite Hrun2.
  destruct (conceptual_loop_run (matchAll true conceptualRegex text) (ds ++ inl)%list w2)
    as (imgs & w3 & lg & Hrun3 & Himgs & Happ3 & Hlog3 & Hp).
  unfold bind at 1. rewrite Hrun3.
  change (List.map payload (matchAll true conceptualRegex text))
    with (image_candidates text) in Himgs, Hp.
  rewrite (directive_images_sent env (image_candidates text) w w2 Hsent2) in Himgs.
  assert (Hviz3 : visualization (app w3) = visualization (app w)).
  { rewrite Happ3, <- Happ2. now destruct (matchAll true conceptualRegex text). }
  destruct (0 <? List.length ((ds ++ inl) ++ imgs))%nat eqn:Hlen0.
  - exists ds, inl, imgs. eexists. exists lg.
    split; [reflexivity|]. cbn [app visualization setVisualization setActiveTab
                                 setMobileView items log].
    rewrite Hviz3, Hlog3, Hlog2, <- List.app_assoc.
    repeat split; auto.
  - apply length_zero_nil in Hlen0.
    apply app_eq_nil in Hlen0 as [Hlen0 Hr]. apply app_eq_nil in Hlen0 as [-> ->].
    subst imgs.
    exists [], [], [], w3, lg. split; [reflexivity|].
    rewrite Hviz3, Hlog3, Hlog2. cbn [List.app]. rewrite List.app_nil_r.
    repeat split; auto.
Qed.

End Feed.
End FeedFacts.

(* ===================================================================== *)
(** * The properties of the specification *)
(* ===================================================================== *)

Module Claims.
Import JsString Regex Types Eff Gemini App Spec Samples.
Import EffFacts TurnFacts BuilderFacts StringFacts RegexFacts ExtractorFacts FeedFacts.
Local Open Scope eff_scope.
Local Open Scope regex_scope.

Section Properties.
Variable env : Env.

(** ** The guard of the chat turn *)

(** C1, amended.  A typed message (no custom prompt) in which a verb
    of give/write/show is followed later on the same line by one of
    code/answer/solution/full, in any letter case, and whose lower-case
    form holds none of logic, explain, diagram, is refused: the world
    after it is the world before it with the notice up, so no message
    is appended and the backend is not asked.  A submission that is
    not blank and that either is a custom prompt or fails the request
    test becomes a turn: the user message is appended and the backend
    is asked.  [give me the full code] meets the test;
    [give me the full code, explain the logic] does not. *)
Theorem guard_refuses_requests_for_answers cp w :
  let messageText := messageText_of cp (input (app w)) in
  (given cp = false ->
   verb_then_noun messageText ->
   includes "logic" (toLowerCase messageText) = false ->
   includes "explain" (toLowerCase messageText) = false ->
   includes "diagram" (toLowerCase messageText) = false ->
   handleSendMessage env cp w = (Ok tt, rejected w))
  /\ (truthy (trim messageText) = true ->
      given cp = true \/ asks_for_answer messageText = false ->
      exists userMsg reply w' lg,
        handleSendMessage env cp w = (Ok tt, w')
        /\ messages (app w') = (messages (app w) ++ [userMsg; reply])%list
        /\ role userMsg = user /\ text userMsg = messageText
        /\ log w' = (log w ++ EGenerateContent (chat_request (app w) messageText) :: lg)%list)
  /\ asks_for_answer "give me the full code" = true
  /\ asks_for_answer "give me the full code, explain the logic" = false.
Proof.
  intros messageText. split; [|split; [|split; reflexivity]].
  - intros Hg Hvn H1 H2 H3.
    unfold handleSendMessage, bind, get_app. fold messageText.
    rewrite (verb_then_noun_not_blank messageText Hvn). cbn [negb].
    unfold asks_for_answer. rewrite (cheatRegex_matches messageText Hvn), H1, H2, H3, Hg.
    reflexivity.
  - intros Hne Hpass.
    assert (Hp : proceeds cp (app w) = true).
    { unfold proceeds. fold messageText. rewrite Hne.
      destruct Hpass as [->| ->]; [reflexivity | now rewrite orb_true_r]. }
    destruct (turn_happens env cp w Hp)
      as (userMsg & reply & w' & lg & H1 & H2 & H3 & H4 & _ & _ & H5).
    exists userMsg, reply, w', lg. auto.
Qed.

(** C9.  A submission whose text is empty or white space only does
    nothing at all: [handleSendMessage] returns the world it was
    given, whatever the request test would say of the text. *)
Theorem blank_submission_is_noop cp w :
  truthy (trim (messageText_of cp (input (app w)))) = false ->
  handleSendMessage env cp w = (Ok tt, w).
Proof.
  intros H. unfold handleSendMessage, bind, get_app. now rewrite H.
Qed.

(** ** The outcome of the chat turn *)

(** C2.  When the backend answers a turn and the wrapper reads the
    answer, the mentor flag afterwards is what the answer declares: set
    for a declared [satisfied], cleared for a declared [searching],
    and what it was before when the answer declares neither. *)
Theorem mentor_state_follows_declaration cp w response r :
  let a := app w in
  let messageText := messageText_of cp (input a) in
  proceeds cp a = true ->
  generateContent env (sent w) (chat_request a messageText) = inr response ->
  read_response response = inr r ->
  exists w',
    handleSendMessage env cp w = (Ok tt, w')
    /\ mentorMode (app w') =
       if strict_eq (declared_status response) "satisfied" then true
       else if strict_eq (declared_status response) "searching" then false
       else mentorMode a.
Proof.
  intros a messageText Hp Hgen Hread.
  rewrite (handleSendMessage_proceeds env cp w Hp). cbv zeta.
  fold a. fold messageText. rewrite sendMessageToGemini_run.
  change (sent (calling env cp w)) with (sent w).
  unfold chat_request in Hgen. rewrite Hgen, Hread.
  eexists. split; [reflexivity|]. cbn [app mentorMode setIsLoading setMentorMode].
  destruct (read_response_spec response) as [_ Hok].
  destruct (Hok r Hread) as [Hst _]. rewrite <- Hst.
  match goal with
  | |- context [extractVisualization env ?t ?i ?w3] =>
      pose proof (keeps_extractVisualization env t i w3) as Hk
  end.
  apply st_mentor in Hk. cbn [app mentorMode setMessages] in Hk.
  unfold mentor_after. rewrite Hk, calling_mentorMode. reflexivity.
Qed.

(** C4.  A turn that passes the guards always completes normally with
    the busy flag down.  When the backend call of the turn fails, for
    whatever reason, the history grows by the user message and exactly
    one reply, the fixed error text in the role of the model; the
    mentor flag is what it was, and the backend was asked once. *)
Theorem backend_failure_recovers cp w :
  proceeds cp (app w) = true ->
  let a := app w in
  let messageText := messageText_of cp (input a) in
  exists w',
    handleSendMessage env cp w = (Ok tt, w')
    /\ isLoading (app w') = false
    /\ forall e,
        fst (sendMessageToGemini env (history_of (messages a)) messageText
                                 (knowledgeLevel a) w) = Throw e ->
        exists userMsg errMsg,
          messages (app w') = (messages a ++ [userMsg; errMsg])%list
          /\ role userMsg = user /\ text userMsg = messageText
          /\ role errMsg = model /\ text errMsg = ERROR_TEXT
          /\ mentorMode (app w') = mentorMode a
          /\ log w' = (log w ++ [EGenerateContent (chat_request a messageText);
                                 EConsoleError "API Error"])%list.
Proof.
  intros Hp a messageText.
  rewrite (handleSendMessage_proceeds env cp w Hp). cbv zeta.
  fold a. fold messageText.
  pose proof (sendMessageToGemini_fst env (history_of (messages a)) messageText
                (knowledgeLevel a) w (calling env cp w) eq_refl) as Hfst.
  pose proof (sendMessageToGemini_snd env (history_of (messages a)) messageText
                (knowledgeLevel a) (calling env cp w)) as Hsnd.
  destruct (sendMessageToGemini env (history_of (messages a)) messageText
              (knowledgeLevel a) (calling env cp w)) as [[r|e'] w2];
    cbn [fst snd] in Hfst, Hsnd.
  - eexists. split; [reflexivity|]. split; [reflexivity|].
    intros e He. rewrite <- Hfst in He. discriminate.
  - eexists. split; [reflexivity|]. split; [reflexivity|].
    intros e He. subst w2.
    cbn [app messages setIsLoading setMessages mentorMode log].
    rewrite calling_messages, calling_mentorMode. fold a. fold messageText.
    do 2 eexists. rewrite <- List.app_assoc. simpl.
    split; [reflexivity|]. repeat split.
    now rewrite <- List.app_assoc.
Qed.

(** ** The builder *)

(** C3, amended.  Resolving one directive never throws and leaves the
    image-generation flag down, whether the image call returned an
    image, returned nothing or threw.  When the call throws or returns
    nothing, no item is added.  The key selection of the host is
    opened exactly when the call threw with a permission-denied signal
    and the host provides the selection ([window.aistudio]); it is not
    opened otherwise. *)
Theorem image_failure_is_contained newItems cMatch w :
  let prompt := trim (group 1 cMatch) in
  exists items' w' lg,
    conceptual_step env newItems cMatch w = (Ok items', w')
    /\ isGeneratingImage (app w') = false
    /\ log w' = (log w ++ lg)%list
    /\ match fst (generateImage env prompt "1K" w) with
       | Ok (Some img) => truthy img = false -> items' = newItems /\ key_selections lg = 0
       | Ok None => items' = newItems /\ key_selections lg = 0
       | Throw e =>
           items' = newItems
           /\ key_selections lg =
              match aistudio env with
              | Some _ => if permission_denied e then 1 else 0
              | None => 0
              end
       end.
Proof.
  intros prompt.
  destruct (conceptual_step_spec env newItems cMatch w)
    as (items' & w' & lg & Hrun & Happ & Hlog & _ & Hcase).
  exists items', w', lg. split; [exact Hrun|]. split; [now rewrite Happ|].
  split; [exact Hlog|]. cbv zeta in Hcase. fold prompt in Hcase.
  destruct (fst (generateImage env prompt "1K" w)) as [[img|]|e].
  - intros Hf. rewrite Hf in Hcase. now destruct Hcase.
  - now destruct Hcase.
  - destruct Hcase as [Hk ->]. split; [reflexivity | exact Hk].
Qed.

(** ** The extractor *)

(** C5, amended.  Every text falls into fenced blocks, and its
    diagram candidates are the trimmed contents of those blocks that
    pass the diagram test, one per such block and in the order of the
    blocks; the loop over the blocks completes normally with exactly
    these as diagram items.  The content of a block is not its whole
    inner text: it is what lies between the opening fence, past the
    language hint the pattern allows there ([mermaid], [flowchart],
    [text] or [sequenceDiagram], in any letter case), and the next
    fence.  So the first block of a text, with inner text [inner],
    gives the candidate [trim (strip_hint inner)] if that passes the
    test and none otherwise, and the candidates of the text after its
    closing fence follow.  A content passes the test if and only if
    it starts with one of the keywords, in any letter case, or holds
    [-->]; [print("hello")] does not. *)
Theorem fenced_blocks_become_diagrams text acc w :
  (exists bodies, Fenced text bodies)
  /\ (forall bodies,
        Fenced text bodies ->
        diagram_candidates text = List.filter looks_like_diagram (List.map trim bodies))
  /\ (forall pre inner post,
        text = pre ++ FENCE ++ inner ++ FENCE ++ post ->
        indexOf true FENCE text = Some (String.length pre) ->
        indexOf true FENCE (inner ++ FENCE ++ post) = Some (String.length inner) ->
        diagram_candidates text
        = ((if looks_like_diagram (trim (strip_hint inner))
            then [trim (strip_hint inner)] else [])
           ++ diagram_candidates post)%list)
  /\ (exists ds w',
        extract_diagrams env text acc w = (Ok (acc ++ ds)%list, w')
        /\ List.map shown ds = List.map (pair mermaid) (diagram_candidates text))
  /\ (forall c, looks_like_diagram c = true <->
                (exists kw, In kw KEYWORDS /\ startsWith true kw c = true)
                \/ includes "-->" c = true)
  /\ looks_like_diagram PRINT_HELLO = false.
Proof.
  split; [|split; [|split; [|split; [|split]]]].
  - apply every_text_is_fenced.
  - intros bodies HF. unfold diagram_candidates.
    change (List.map (fun m => trim (group 1 m)) (exec_all true mermaidRegex text))
      with (blocks text).
    now rewrite (blocks_fenced text bodies HF).
  - intros pre inner post -> Hpre Hin.
    change (diagram_candidates (pre ++ FENCE ++ inner ++ FENCE ++ post))
      with (List.filter looks_like_diagram (blocks (pre ++ FENCE ++ inner ++ FENCE ++ post))).
    rewrite (blocks_inner pre inner post Hpre Hin). cbn [List.filter].
    change (List.filter looks_like_diagram (blocks post)) with (diagram_candidates post).
    now destruct (looks_like_diagram (trim (strip_hint inner))).
  - unfold extract_diagrams.
    destruct (mermaid_loop env (exec_all true mermaidRegex text) acc w) as (ds & Hrun & Hds).
    exists ds. eexists. split; [exact Hrun | exact Hds].
  - exact looks_like_diagram_iff.
  - reflexivity.
Qed.

(** C6, amended.  A directive [[CONCEPTUAL_VISUAL: payload]] (the tag
    in any letter case, a payload that is not empty and holds no
    closing bracket) that does not start inside an earlier one (every
    tag before it is followed by a closing bracket before it starts)
    yields exactly one candidate, its payload trimmed: the candidates
    of the text are those of what comes before the directive, then
    this one, then those of what follows its closing bracket.  No
    match starts at a tag after which the text holds no closing
    bracket, nor at a tag that is closed at once.  The loop over the
    directives completes normally and requests an image for each
    candidate, in order.  [Use [CONCEPTUAL_VISUAL: a red cube] here]
    has the one candidate [a red cube]. *)
Theorem directive_yields_one_candidate :
  (forall pre tag inner post,
      tags_closed pre = true ->
      ci_eq TAG tag = true -> inner <> EmptyString -> no_bracket inner = true ->
      image_candidates (pre ++ tag ++ inner ++ "]" ++ post)
      = (image_candidates pre ++ trim inner :: image_candidates post)%list)
  /\ (forall pre tag s m,
        ci_eq TAG tag = true -> no_bracket s = true ->
        In m (matchAll true conceptualRegex (pre ++ tag ++ s)) ->
        index m <> String.length pre)
  /\ (forall pre tag post m,
        ci_eq TAG tag = true ->
        In m (matchAll true conceptualRegex (pre ++ tag ++ "]" ++ post)) ->
        index m <> String.length pre)
  /\ (forall text acc w,
        exists imgs w' lg,
          resolve_images env text acc w = (Ok (acc ++ imgs)%list, w')
          /\ log w' = (log w ++ lg)%list
          /\ image_prompts lg = image_candidates text)
  /\ image_candidates "Use [CONCEPTUAL_VISUAL: a red cube] here" = ["a red cube"].
Proof.
  split; [|split; [|split; [|split]]].
  - intros pre tag inner post.
    exact (directives_split (String.length pre) pre tag inner post (Nat.le_refl _)).
  - exact directive_unclosed.
  - exact directive_empty.
  - intros text acc w. unfold resolve_images.
    destruct (conceptual_loop env (matchAll true conceptualRegex text) acc w)
      as (results & w' & lg & Hrun & _ & _ & _ & Hlog & Hp & _).
    exists (flat_map of_option results), w', lg. auto.
  - reflexivity.
Qed.

(** C7.  One pass over a response completes normally and appends to
    the feed, in this order: the diagram items, one per diagram
    candidate and in their order; the inline image, if one came with
    the response; the images [generateImage] returned for the
    image-request candidates, asked for one after the other in the
    order of the candidates, each request made after the one before it
    was settled.  The image requests go out in the order of the
    candidates.  Within each kind the order is that of the text: the
    matches of each loop start at increasing positions. *)
Theorem diagrams_then_images_in_order text imagePart w :
  exists ds inl imgs w' lg,
    extractVisualization env text imagePart w = (Ok tt, w')
    /\ items (visualization (app w'))
       = (items (visualization (app w)) ++ ds ++ inl ++ imgs)%list
    /\ List.map shown ds = List.map (pair mermaid) (diagram_candidates text)
    /\ List.map shown inl = inline_image imagePart
    /\ List.map shown imgs
       = List.map (pair image) (directive_images env (image_candidates text) w)
    /\ log w' = (log w ++ lg)%list
    /\ image_prompts lg = image_candidates text
    /\ StronglySorted lt (List.map index (exec_all true mermaidRegex text))
    /\ StronglySorted lt (List.map index (matchAll true conceptualRegex text)).
Proof.
  destruct (extractVisualization_images env text imagePart w)
    as (ds & inl & imgs & w' & lg & Hrun & Hitems & Hds & Hinl & Himgs & Hlog & Hp).
  exists ds, inl, imgs, w', lg. repeat split; auto.
  - rewrite (proj2 (exec_all_mermaid text)). now apply matchAll_from_sorted.
  - now apply matchAll_from_sorted.
Qed.

(** C8.  A text that has no fenced block and no tag, in any letter
    case, and that comes with no inline image has no candidate of
    either kind, and the pass over it leaves the world as it was:
    nothing is appended to the feed and nothing is requested.  The
    empty text is such a text. *)
Theorem nothing_to_extract text imagePart w :
  Fenced text [] ->
  includes_ci true "[CONCEPTUAL_VISUAL:" text = false ->
  given imagePart = false ->
  diagram_candidates text = []
  /\ image_candidates text = []
  /\ extractVisualization env text imagePart w = (Ok tt, w).
Proof.
  intros Hf Ht Hi.
  assert (Hd : diagram_candidates text = []).
  { unfold diagram_candidates.
    change (List.map (fun m => trim (group 1 m)) (exec_all true mermaidRegex text))
      with (blocks text).
    now rewrite (blocks_fenced text [] Hf). }
  assert (Hc : image_candidates text = []).
  { apply directives_none. now apply includes_ci_false. }
  assert (Hn : inline_image imagePart = []).
  { unfold inline_image, given in *. destruct imagePart as [img|]; [|reflexivity].
    now rewrite Hi. }
  split; [exact Hd|]. split; [exact Hc|].
  destruct (extractVisualization_spec env text imagePart w)
    as (ds & inl & results & w' & lg & Hrun & _ & _ & _ & _ & _ & _ & _ & Hsame).
  rewrite Hrun. now rewrite (Hsame Hd Hn Hc).
Qed.

End Properties.

(** ** The chat wrapper *)

(** C10, amended.  Of a response whose [updateMentorStatus] calls all
    carry their arguments the wrapper returns a result; the status in
    it is that of the last such call; a result with a status has text;
    and when the response has such a call and no text, the text of the
    result is the fixed sentence.  In terms of the parts of the
    response: when a part carries an [updateMentorStatus] call and no
    part has text, the text of the result is the fixed sentence; when
    no later part carries such a call, the status of the result is
    the one of that call.  Of a response in which some
    [updateMentorStatus] call comes without its arguments the wrapper
    returns nothing: reading the status throws. *)
Theorem status_only_response_gets_text response :
  (calls_have_args response = true ->
   exists r,
     read_response response = inr r
     /\ mentorStatus r = declared_status response
     /\ (mentorStatus r <> None -> response_text r <> EmptyString)
     /\ (mentor_status_calls response <> [] -> has_text response = false ->
         response_text r = STATUS_ONLY_TEXT)
     /\ (forall before p c after,
           parts response = Some (before ++ p :: after)%list ->
           functionCall p = Some c -> strict_eq (name c) "updateMentorStatus" = true ->
           (has_text response = false -> response_text r = STATUS_ONLY_TEXT)
           /\ ((forall q d, In q after -> functionCall q = Some d ->
                            strict_eq (name d) "updateMentorStatus" = false) ->
               mentorStatus r = status_arg c)))
  /\ (calls_have_args response = false -> read_response response = inl TypeError_args)
  /\ (forall before p c after,
        parts response = Some (before ++ p :: after)%list ->
        functionCall p = Some c -> strict_eq (name c) "updateMentorStatus" = true ->
        args c = None ->
        read_response response = inl TypeError_args).
Proof.
  assert (Hat : forall before p c after,
             parts response = Some (before ++ p :: after)%list ->
             functionCall p = Some c -> strict_eq (name c) "updateMentorStatus" = true ->
             mentor_status_calls response
             = (mentor_status_calls (mkResponse (Some before))
                ++ c :: mentor_status_calls (mkResponse (Some after)))%list).
  { intros before p c after Hps Hc Hn. destruct response as [ps]. cbn [parts] in Hps.
    subst ps. now apply mentor_status_calls_at. }
  split; [|split].
  - intros H. destruct (read_response_spec response) as [Htot Hok].
    destruct (Htot H) as [r Hr]. exists r. split; [assumption|].
    destruct (Hok r Hr) as (Hst & Hne & Htext).
    repeat (split; [assumption|]).
    intros before p c after Hps Hc Hn. pose proof (Hat before p c after Hps Hc Hn) as E.
    split.
    + apply Htext. rewrite E. now destruct (mentor_status_calls (mkResponse (Some before))).
    + intros Hlast. rewrite Hst. unfold declared_status. rewrite E.
      rewrite (no_status_calls after Hlast), List.map_app. cbn [List.map].
      apply List.last_last.
  - apply read_response_throws.
  - intros before p c after Hps Hc Hn Hargs. apply read_response_throws.
    unfold calls_have_args. rewrite (Hat before p c after Hps Hc Hn).
    rewrite List.forallb_app. cbn [List.forallb]. rewrite Hargs.
    now rewrite andb_false_r.
Qed.

(** ** Instances *)

Lemma guard_refuses_witness :
  handleSendMessage env_plain None (typing "give me the full code")
  = (Ok tt, rejected (typing "give me the full code")).
Proof.
  apply (proj1 (guard_refuses_requests_for_answers env_plain None
                  (typing "give me the full code"))); try reflexivity.
  exists EmptyString, "give", "give", " me the full ", "code", "code", EmptyString.
  repeat split; simpl; auto.
Defined.

Lemma blank_submission_witness :
  handleSendMessage env_plain None (typing "   ") = (Ok tt, typing "   ").
Proof.
  apply (blank_submission_is_noop env_plain None (typing "   ")). reflexivity.
Defined.

Lemma mentor_state_witness :
  exists w',
    handleSendMessage env_satisfied None (typing "Explain recursion") = (Ok tt, w')
    /\ mentorMode (app w') = true.
Proof.
  apply (mentor_state_follows_declaration env_satisfied None (typing "Explain recursion")
           (mkResponse (Some [text_part DIAGRAM_REPLY; status_part "satisfied"]))
           (mkChatResponse DIAGRAM_REPLY (Some "satisfied") None));
    reflexivity.
Defined.

Lemma backend_failure_witness :
  exists w',
    handleSendMessage env_down None (typing "Explain recursion") = (Ok tt, w')
    /\ isLoading (app w') = false
    /\ mentorMode (app w') = false
    /\ List.length (messages (app w')) = 3.
Proof.
  destruct (backend_failure_recovers env_down None (typing "Explain recursion") eq_refl)
    as (w' & Hrun & Hload & Hfail).
  destruct (Hfail (mkError (Some 500%Z) (Some "Internal error")) eq_refl)
    as (userMsg & errMsg & Hm & _ & _ & _ & _ & Hmentor & _).
  exists w'. repeat split; auto. rewrite Hm. reflexivity.
Defined.

Lemma fenced_blocks_witness :
  Fenced TWO_BLOCKS [LF ++ "flowchart TD; A-->B"; PRINT_HELLO]
  /\ diagram_candidates TWO_BLOCKS = ["flowchart TD; A-->B"].
Proof.
  assert (HF : Fenced TWO_BLOCKS [LF ++ "flowchart TD; A-->B"; PRINT_HELLO]).
  { apply (Fenced_block "Flow: "
             ("mermaid" ++ LF ++ "flowchart TD; A-->B``` and ```" ++ PRINT_HELLO ++ "``` done")
             (LF ++ "flowchart TD; A-->B")
             (" and ```" ++ PRINT_HELLO ++ "``` done")
             [PRINT_HELLO]); try reflexivity.
    apply (Fenced_block " and " (PRINT_HELLO ++ "``` done") PRINT_HELLO " done" []);
      try reflexivity.
    apply Fenced_none. reflexivity. }
  split; [exact HF|].
  apply (proj1 (proj2 (fenced_blocks_become_diagrams env_plain TWO_BLOCKS [] (typing EmptyString)))
               _ HF).
Defined.

Lemma directive_witness :
  tags_closed "[CONCEPTUAL_VISUAL:] and " = true
  /\ image_candidates "[CONCEPTUAL_VISUAL:] and " = []
  /\ image_candidates "[CONCEPTUAL_VISUAL:] and [CONCEPTUAL_VISUAL: b]" = ["b"].
Proof.
  split; [reflexivity|]. split; [reflexivity|].
  apply (proj1 (directive_yields_one_candidate env_plain)
               "[CONCEPTUAL_VISUAL:] and " "[CONCEPTUAL_VISUAL:" " b" EmptyString);
    try reflexivity.
  discriminate.
Defined.

Lemma nothing_to_extract_witness :
  diagram_candidates EmptyString = []
  /\ image_candidates EmptyString = []
  /\ extractVisualization env_plain EmptyString None (typing EmptyString)
     = (Ok tt, typing EmptyString).
Proof.
  apply (nothing_to_extract env_plain EmptyString None (typing EmptyString));
    try reflexivity.
  apply Fenced_none. reflexivity.
Defined.

Lemma status_only_witness :
  exists r,
    read_response STATUS_ONLY = inr r
    /\ mentorStatus r = Some "satisfied"
    /\ response_text r = STATUS_ONLY_TEXT.
Proof.
  destruct (proj1 (status_only_response_gets_text STATUS_ONLY) eq_refl)
    as (r & Hr & _ & _ & _ & Hparts).
  destruct (Hparts [status_part "searching"] (status_part "satisfied")
              (mkCall (Some "updateMentorStatus") (Some (Some "satisfied"))) []
              eq_refl eq_refl eq_refl) as [Htext Hst].
  exists r. split; [exact Hr|]. split.
  - apply Hst. intros q d [].
  - apply Htext. reflexivity.
Defined.

(** A whole turn: from the mounted component, [Explain recursion] is
    answered with a diagram and a declared [satisfied]. *)
Example recursion_turn :
  let w' := snd (handleSendMessage env_satisfied None (typing "Explain recursion")) in
  List.map text (messages (app w')) = [text welcome; "Explain recursion"; DIAGRAM_REPLY]
  /\ List.map role (messages (app w')) = [model; user; model]
  /\ mentorMode (app w') = true
  /\ isLoading (app w') = false
  /\ input (app w') = EmptyString
  /\ List.map shown (items (visualization (app w'))) = [(mermaid, "flowchart TD; A-->B")].
Proof. cbv zeta. repeat split; reflexivity. Qed.

(** The diagram of a text comes first in the feed even when its
    directive comes first in the text. *)
Example diagram_before_earlier_directive :
  let w' := snd (extractVisualization env_image DIRECTIVE_FIRST None (typing EmptyString)) in
  List.map index (matchAll true conceptualRegex DIRECTIVE_FIRST) = [0]
  /\ List.map index (exec_all true mermaidRegex DIRECTIVE_FIRST) = [23]
  /\ List.map shown (items (visualization (app w')))
     = [(mermaid, "graph TD; A-->B"); (image, "data:image/png;base64,AAAA")].
Proof. cbv zeta. repeat split; reflexivity. Qed.

(** Two directives around a diagram: the diagram comes first in the
    feed, then the images of the directives in the order of the text,
    each holding what its own request returned. *)
Example directives_in_order :
  let w' := snd (extractVisualization env_echo TWO_DIRECTIVES None (typing EmptyString)) in
  image_candidates TWO_DIRECTIVES = ["first"; "second"]
  /\ List.map shown (items (visualization (app w')))
     = [(mermaid, "graph TD; A-->B");
        (image, "data:image/png;base64,first");
        (image, "data:image/png;base64,second")]
  /\ image_prompts (log w') = ["first"; "second"].
Proof. cbv zeta. repeat split; reflexivity. Qed.

(** ** Where the wording goes further than the behaviour *)

(** A request that runs over two lines has a verb followed later in
    the text by a noun and none of the three words, and yet it is not
    refused: the pattern's [.] stops at a line terminator.  The message
    is appended and the backend is asked. *)
Lemma request_across_lines_is_not_refused :
  let messageText := "give me" ++ LF ++ "the full code" in
  let w := typing messageText in
  let w' := snd (handleSendMessage env_plain None w) in
  verb_then_noun_anywhere messageText
  /\ includes "logic" (toLowerCase messageText) = false
  /\ includes "explain" (toLowerCase messageText) = false
  /\ includes "diagram" (toLowerCase messageText) = false
  /\ handleSendMessage env_plain None w <> (Ok tt, rejected w)
  /\ List.map text (messages (app w'))
     = [text welcome; messageText; "What is the base case?"]
  /\ log w' = [EGenerateContent (chat_request (app w) messageText)].
Proof.
  cbv zeta. split.
  { exists EmptyString, "give", "give", (" me" ++ LF ++ "the full "), "code", "code", EmptyString.
    repeat split; simpl; auto. }
  repeat split; try reflexivity.
  vm_compute. discriminate.
Qed.

(** In a host without key selection a denied image request opens no
    key selection. *)
Lemma denied_image_without_host_selects_no_key :
  let w := typing EmptyString in
  let w' := snd (extractVisualization env_denied "[CONCEPTUAL_VISUAL: x]" None w) in
  image_candidates "[CONCEPTUAL_VISUAL: x]" = ["x"]
  /\ fst (generateImage env_denied "x" "1K" w) = Throw DENIED
  /\ permission_denied DENIED = true
  /\ key_selections (log w') = 0
  /\ items (visualization (app w')) = []
  /\ isGeneratingImage (app w') = false.
Proof. cbv zeta. repeat split; reflexivity. Qed.

(** A directive that starts inside the payload of an earlier, unclosed
    one yields no candidate of its own: the earlier tag takes
    everything up to the bracket. *)
Lemma directive_inside_unclosed_one_is_swallowed :
  let pre := "[CONCEPTUAL_VISUAL: a " in
  let tag := "[CONCEPTUAL_VISUAL:" in
  let inner := " b" in
  let text := pre ++ tag ++ inner ++ "]" ++ EmptyString in
  ci_eq TAG tag = true
  /\ no_bracket inner = true
  /\ tags_closed pre = false
  /\ image_candidates text = ["a [CONCEPTUAL_VISUAL: b"]
  /\ ~ In (trim inner) (image_candidates text).
Proof.
  cbv zeta. repeat split; try reflexivity.
  vm_compute. intros [H|[]]. discriminate H.
Qed.

(** The language hint after the opening fence is not part of the
    content of a block.  A block whose trimmed inner text starts with
    the keyword [flowchart] and holds no arrow yields no candidate,
    and the pass over it adds nothing; a block whose trimmed inner
    text passes neither test yields one all the same, what follows its
    hint [text] starting with [pie]; and the candidate of a block that
    starts with [flowchart] is not its trimmed inner text. *)
Lemma hint_is_not_part_of_the_block :
  let w := typing EmptyString in
  looks_like_diagram (trim HINTED_FLOWCHART) = true
  /\ diagram_candidates (FENCE ++ HINTED_FLOWCHART ++ FENCE) = []
  /\ extractVisualization env_plain (FENCE ++ HINTED_FLOWCHART ++ FENCE) None w = (Ok tt, w)
  /\ looks_like_diagram (trim HINTED_TEXT) = false
  /\ diagram_candidates (FENCE ++ HINTED_TEXT ++ FENCE) = ["pieces of data"]
  /\ diagram_candidates (FENCE ++ "flowchart TD; A-->B" ++ FENCE) = ["TD; A-->B"].
Proof. cbv zeta. repeat split; reflexivity. Qed.

(** A status call that comes without its arguments, in a response
    without text: the wrapper does not return the fixed sentence, it
    throws. *)
Lemma status_call_without_arguments_gets_no_text :
  let w := typing EmptyString in
  mentor_status_calls ARGLESS_STATUS <> []
  /\ has_text ARGLESS_STATUS = false
  /\ read_response ARGLESS_STATUS = inl TypeError_args
  /\ fst (sendMessageToGemini env_argless [] "Is this the base case?" BEGINNER w)
     = Throw TypeError_args.
Proof. cbv zeta. split; [discriminate|]. repeat split; reflexivity. Qed.

End Claims.

(* ===================================================================== *)
(** * Further properties of the Gemini service *)
(* ===================================================================== *)

Module ServiceProperties.
Import JsString Regex Types Eff Gemini App Spec Samples Terms Scenes.
Import EffFacts TurnFacts BuilderFacts.
Local Open Scope eff_scope.

(** [generateImage] by the outcome of its requests. *)
Lemma generateImage_run env prompt size w :
  let pro := ImageRequest PRO_MODEL prompt (Some size) in
  let flash := ImageRequest FLASH_MODEL prompt None in
  let warn := EConsoleWarn "Pro image gen failed (403), falling back to Flash model." in
  let w1 l n := mkWorld (app w) (n + sent w) (asked w) (ticks w) (log w ++ l)%list in
  generateImage env prompt size w =
  match generateContent env (sent w) pro with
  | inr r => (Ok (extractImage r), w1 [EGenerateContent pro] 1)
  | inl e =>
      if permission_denied e
      then match generateContent env (S (sent w)) flash with
           | inr r => (Ok (extractImage r),
                       w1 [EGenerateContent pro; warn; EGenerateContent flash] 2)
           | inl _ => (Throw e,
                       w1 [EGenerateContent pro; warn; EGenerateContent flash;
                           EConsoleError "Fallback image gen error"] 2)
           end
      else (Throw e, w1 [EGenerateContent pro; EConsoleError "Image gen error"] 1)
  end.
Proof.
  cbv zeta.
  unfold generateImage, try_catch, bind, await_generateContent, console_warn,
    console_error, throw, ret, emit, PRO_MODEL, FLASH_MODEL.
  destruct (generateContent env (sent w) _) as [e|r]; simpl; [|reflexivity].
  destruct (permission_denied e); simpl.
  - destruct (generateContent env (S (sent w)) _) as [e'|r']; simpl;
      rewrite <- ?List.app_assoc; reflexivity.
  - rewrite <- ?List.app_assoc; reflexivity.
Qed.

(** X1.  When the request to the primary image model is refused with a
    permission-denied signal and the fallback model answers,
    [generateImage] returns the first inline image of the fallback
    answer and throws nothing.  Two requests went out: the prompt
    with the chosen size to the primary model, then the same prompt
    without a size to the fallback model. *)
Theorem denied_image_request_falls_back env prompt size w e r :
  generateContent env (sent w) (ImageRequest PRO_MODEL prompt (Some size)) = inl e ->
  permission_denied e = true ->
  generateContent env (S (sent w)) (ImageRequest FLASH_MODEL prompt None) = inr r ->
  exists lg,
    generateImage env prompt size w
    = (Ok (extractImage r),
       mkWorld (app w) (2 + sent w) (asked w) (ticks w) (log w ++ lg)%list)
    /\ List.filter (fun ev => match ev with EGenerateContent _ => true | _ => false end) lg
       = [EGenerateContent (ImageRequest PRO_MODEL prompt (Some size));
          EGenerateContent (ImageRequest FLASH_MODEL prompt None)].
Proof.
  intros H1 Hd H2. pose proof (generateImage_run env prompt size w) as H.
  cbv zeta in H. rewrite H1, Hd, H2 in H. rewrite H.
  eexists. split; reflexivity.
Qed.

(** X2.  [generateImage] throws exactly when the request to the
    primary model fails and no fallback answer replaces it: the failure
    is not a permission denial, or the fallback request fails too.
    What it throws is always the error of the primary request, never
    that of the fallback. *)
Theorem image_error_is_the_primary_one env prompt size w e :
  fst (generateImage env prompt size w) = Throw e <->
  generateContent env (sent w) (ImageRequest PRO_MODEL prompt (Some size)) = inl e
  /\ (permission_denied e = false
      \/ exists e', generateContent env (S (sent w))
                      (ImageRequest FLASH_MODEL prompt None) = inl e').
Proof.
  pose proof (generateImage_run env prompt size w) as H. cbv zeta in H. rewrite H.
  destruct (generateContent env (sent w) _) as [e0|r0].
  - destruct (permission_denied e0) eqn:Hd.
    + destruct (generateContent env (S (sent w)) _) as [e1|r1]; cbn [fst].
      * split.
        -- intros [= ->]. split; [reflexivity|]. right. now exists e1.
        -- intros [[= ->] _]. reflexivity.
      * split; [discriminate|].
        intros [[= ->] [Hf|[e' He']]]; [congruence|discriminate].
    + cbn [fst]. split.
      * intros [= ->]. split; [reflexivity|]. now left.
      * intros [[= ->] _]. reflexivity.
  - cbn [fst]. split; [discriminate|]. intros [[=] _].
Qed.

Lemma first_inline_hd ps : first_inline ps = hd_error (inline_images ps).
Proof.
  induction ps as [|p ps IH]; [reflexivity|].
  unfold inline_images in *. cbn [first_inline flat_map].
  destruct (inlineData p); cbn; [reflexivity | exact IH].
Qed.

Lemma scan_parts_image ps : forall acc ip,
  snd (scan_parts ps acc ip) = List.last (List.map Some (inline_images ps)) ip.
Proof.
  induction ps as [|p ps IH]; intros acc ip; [reflexivity|].
  cbn [scan_parts]. rewrite IH. unfold inline_images. cbn [flat_map].
  destruct (inlineData p) as [b|]; cbn [option_map of_option List.app List.map].
  - now rewrite last_cons.
  - reflexivity.
Qed.

(** X3.  Of a response with several inline images the chat wrapper
    keeps the last one, image generation the first one. *)
Theorem chat_keeps_last_image_generation_first ps :
  extractImage (mkResponse (Some ps)) = hd_error (inline_images ps)
  /\ forall r, read_response (mkResponse (Some ps)) = inr r ->
               imagePart r = List.last (List.map Some (inline_images ps)) None.
Proof.
  split; [apply first_inline_hd|].
  intros r. unfold read_response. cbn [parts option_map].
  destruct (if match functionCalls_of ps with [] => false | _ :: _ => true end
            then scan_calls (functionCalls_of ps) None else inr None) as [e|st];
    [destruct (functionCalls_of ps); discriminate|].
  pose proof (scan_parts_image ps EmptyString None) as H.
  destruct (scan_parts ps EmptyString None) as [t ip]. cbn [snd] in H.
  destruct (functionCalls_of ps); intros [= <-]; exact H.
Qed.

(** ** Instances *)

Lemma denied_image_request_witness :
  exists lg,
    generateImage env_fallback "a red cube" "1K" (typing EmptyString)
    = (Ok (Some IMAGE_URL),
       mkWorld (app (typing EmptyString)) 2 0 0 lg)
    /\ List.filter (fun ev => match ev with EGenerateContent _ => true | _ => false end) lg
       = [EGenerateContent (ImageRequest PRO_MODEL "a red cube" (Some "1K"));
          EGenerateContent (ImageRequest FLASH_MODEL "a red cube" None)].
Proof.
  apply (denied_image_request_falls_back env_fallback "a red cube" "1K"
           (typing EmptyString) DENIED IMAGE_REPLY); reflexivity.
Defined.

End ServiceProperties.
(* ===================================================================== *)
(** * Further properties of the chat turn *)
(* ===================================================================== *)

Module TurnProperties.
Import JsString Regex Types Eff Gemini App Spec Samples Desk Terms Scenes.
Import EffFacts TurnFacts BuilderFacts ServiceProperties.
Local Open Scope eff_scope.

Section Turns.
Variable env : Env.

(** A submission that does not pass the guards is dropped or refused. *)
Lemma handleSendMessage_stops cp w :
  proceeds cp (app w) = false ->
  handleSendMessage env cp w = (Ok tt, w)
  \/ handleSendMessage env cp w = (Ok tt, rejected w).
Proof.
  unfold proceeds. intros H.
  destruct (truthy (trim (messageText_of cp (input (app w))))) eqn:Hne.
  - right. cbn [andb] in H. apply orb_false_iff in H as [Hg Ha].
    apply negb_false_iff in Ha.
    unfold handleSendMessage, bind, get_app. rewrite Hne, Hg, Ha. reflexivity.
  - left. unfold handleSendMessage, bind, get_app. now rewrite Hne.
Qed.

(** What a turn leaves of the state: the input and the level. *)
Lemma handleSendMessage_keeps cp w :
  let w' := snd (handleSendMessage env cp w) in
  input (app w') = (if proceeds cp (app w) && negb (given cp)
                    then EmptyString else input (app w))
  /\ knowledgeLevel (app w') = knowledgeLevel (app w).
Proof.
  cbv zeta. destruct (proceeds cp (app w)) eqn:Hp.
  - rewrite (handleSendMessage_proceeds env cp w Hp). cbv zeta.
    rewrite sendMessageToGemini_run.
    assert (Hc : input (app (calling env cp w))
                 = (if negb (given cp) then EmptyString else input (app w))
                 /\ knowledgeLevel (app (calling env cp w)) = knowledgeLevel (app w)).
    { unfold calling. destruct (given cp); split; reflexivity. }
    destruct Hc as [Hi Hl]. cbn [andb].
    destruct (match generateContent env (sent (calling env cp w)) _ with
              | inl e => Throw e
              | inr response => match read_response response with
                                | inl e => Throw e
                                | inr r => Ok r
                                end
              end) as [r|e].
    + match goal with
      | |- context [extractVisualization env ?t ?i ?w3] =>
          pose proof (keeps_extractVisualization env t i w3) as Hk
      end.
      destruct Hk as [_ Hin _ Hlv _ _ _ _].
      cbn [app input knowledgeLevel setMessages] in Hin, Hlv.
      cbn [snd app input knowledgeLevel setIsLoading setMentorMode].
      rewrite Hin, Hlv. now split.
    + cbn [snd app input knowledgeLevel setIsLoading setMessages]. now split.
  - cbn [andb]. destruct (handleSendMessage_stops cp w Hp) as [-> | ->]; now split.
Qed.

(** A custom prompt that is not blank passes the guards. *)
Lemma custom_prompt_proceeds p a :
  truthy (trim p) = true -> proceeds (Some p) a = true.
Proof.
  intros H. unfold proceeds, messageText_of, given.
  destruct p as [|c p]; [discriminate|]. cbn [truthy]. now rewrite H.
Qed.

(** X4.  A typed message that becomes a turn empties the input; a
    quick-action prompt that becomes a turn, and any submission that
    is dropped or refused, leaves the draft in the input as it is. *)
Theorem typed_turn_clears_the_draft cp w :
  input (app (snd (handleSendMessage env cp w)))
  = if proceeds cp (app w) && negb (given cp) then EmptyString else input (app w).
Proof. apply (handleSendMessage_keeps cp w). Qed.

(** X5.  Each turn sends the conversation as it is shown.  After a
    first turn, whatever its outcome, the request of the next turn
    carries the contents of the first request, then the reply as it
    was shown (the answer, the placeholder or the error text) in the
    role of the model, then the new message; the level is the same. *)
Theorem next_turn_sends_the_conversation_as_shown cp1 cp2 w :
  proceeds cp1 (app w) = true ->
  proceeds cp2 (app (snd (handleSendMessage env cp1 w))) = true ->
  let w1 := snd (handleSendMessage env cp1 w) in
  let w2 := snd (handleSendMessage env cp2 w1) in
  let m1 := messageText_of cp1 (input (app w)) in
  let m2 := messageText_of cp2 (input (app w1)) in
  let contents1 := (history_of (messages (app w)) ++ [mkContent user m1])%list in
  exists userMsg reply lg1 lg2,
    messages (app w1) = (messages (app w) ++ [userMsg; reply])%list
    /\ role reply = model
    /\ log w1 = (log w ++ EGenerateContent
                   (ChatRequest "gemini-3-flash-preview" contents1
                                (knowledgeLevel (app w))) :: lg1)%list
    /\ log w2 = (log w1 ++ EGenerateContent
                   (ChatRequest "gemini-3-flash-preview"
                      (contents1 ++ [mkContent model (text reply); mkContent user m2])
                      (knowledgeLevel (app w))) :: lg2)%list.
Proof.
  intros Hp1 Hp2. cbv zeta.
  destruct (turn_happens env cp1 w Hp1)
    as (u1 & reply & w1 & lg1 & Hrun1 & Hm1 & Hu1 & Ht1 & Hr1 & _ & Hlog1).
  cbv zeta in Ht1, Hlog1.
  pose proof (handleSendMessage_keeps cp1 w) as [_ Hlv]. cbv zeta in Hlv.
  rewrite Hrun1 in *. cbn [snd] in *.
  destruct (turn_happens env cp2 w1 Hp2)
    as (u2 & reply2 & w2 & lg2 & Hrun2 & _ & _ & _ & _ & _ & Hlog2).
  cbv zeta in Hlog2. rewrite Hrun2. cbn [snd].
  exists u1, reply, lg1, lg2. split; [exact Hm1|]. split; [exact Hr1|].
  split; [exact Hlog1|].
  - rewrite Hlog2. unfold chat_request. rewrite Hlv, Hm1.
    unfold history_of at 1. rewrite List.map_app. cbn [List.map].
    rewrite Hu1, Ht1, Hr1, <- !List.app_assoc. reflexivity.
Qed.

(** X6.  A status call that comes without its arguments costs the
    reply: although the backend answered, the wrapper throws, and the
    turn ends as a failed one, with the user message and the error
    text in the history, no item added to the feed and the mentor flag
    as it was. *)
Theorem status_call_without_arguments_loses_the_reply cp w response :
  proceeds cp (app w) = true ->
  generateContent env (sent w)
    (chat_request (app w) (messageText_of cp (input (app w)))) = inr response ->
  calls_have_args response = false ->
  exists userMsg errMsg w',
    handleSendMessage env cp w = (Ok tt, w')
    /\ messages (app w') = (messages (app w) ++ [userMsg; errMsg])%list
    /\ text userMsg = messageText_of cp (input (app w))
    /\ role errMsg = model /\ text errMsg = ERROR_TEXT
    /\ visualization (app w') = visualization (app w)
    /\ mentorMode (app w') = mentorMode (app w)
    /\ isLoading (app w') = false.
Proof.
  intros Hp Hg Ha.
  rewrite (handleSendMessage_proceeds env cp w Hp). cbv zeta.
  rewrite sendMessageToGemini_run.
  change (sent (calling env cp w)) with (sent w).
  unfold chat_request in Hg. rewrite Hg, (read_response_throws response Ha).
  do 3 eexists. split; [reflexivity|].
  cbn [app messages setIsLoading setMessages visualization mentorMode isLoading].
  rewrite calling_messages, calling_mentorMode, <- !List.app_assoc.
  repeat split. unfold calling. now destruct (given cp).
Qed.

(** X7.  Each of the four suggestion chips (Analogy, Quiz Me, Real
    World, Visualize) starts a turn with the prompt of its label,
    always the same one, whatever is typed in the input and whatever
    the request test would say: the prompt is appended as the user
    message, the backend is asked with it, and the draft in the input
    is left as it is. *)
Theorem quick_actions_always_start_a_turn label action :
  In (label, action) (quickActions env) ->
  exists prompt,
    In (label, prompt) CHIP_PROMPTS
    /\ forall w,
         exists userMsg reply w' lg,
           action w = (Ok tt, w')
           /\ messages (app w') = (messages (app w) ++ [userMsg; reply])%list
           /\ role userMsg = user /\ text userMsg = prompt
           /\ input (app w') = input (app w)
           /\ log w' = (log w ++ EGenerateContent (chat_request (app w) prompt) :: lg)%list.
Proof.
  intros Hin.
  assert (H : exists prompt,
             In (label, prompt) CHIP_PROMPTS
             /\ truthy (trim prompt) = true
             /\ action = handleSendMessage env (Some prompt)).
  { cbn [quickActions In] in Hin. unfold CHIP_PROMPTS.
    destruct Hin as [[= <- <-]|[[= <- <-]|[[= <- <-]|[[= <- <-]|[]]]]]; eexists;
      (split; [|split; [|reflexivity]]); cbn [In]; try reflexivity; auto 6. }
  destruct H as (prompt & Hprompt & Hne & ->).
  exists prompt. split; [exact Hprompt|]. intros w.
  pose proof (custom_prompt_proceeds prompt (app w) Hne) as Hp.
  destruct (turn_happens env (Some prompt) w Hp)
    as (u & reply & w' & lg & Hrun & Hm & Hu & Ht & _ & _ & Hlog).
  pose proof (handleSendMessage_keeps (Some prompt) w) as [Hinput _].
  cbv zeta in Hinput, Ht, Hlog. rewrite Hrun, Hp in Hinput. cbn [snd] in Hinput.
  assert (Hmt : messageText_of (Some prompt) (input (app w)) = prompt).
  { unfold messageText_of. destruct prompt; [discriminate | reflexivity]. }
  assert (Hgiven : given (Some prompt) = true).
  { unfold given. destruct prompt; [discriminate | reflexivity]. }
  rewrite Hgiven in Hinput. cbn [negb andb] in Hinput.
  rewrite Hmt in Ht, Hlog.
  exists u, reply, w', lg. repeat split; auto.
Qed.

End Turns.

(** ** Instances *)

Lemma next_turn_witness :
  let w := typing "Explain recursion" in
  let w1 := snd (handleSendMessage env_plain None w) in
  let w2 := snd (handleSendMessage env_plain (Some QUIZ_PROMPT) w1) in
  let contents1 :=
    [mkContent model (text welcome); mkContent user "Explain recursion"] in
  exists userMsg reply lg1 lg2,
    messages (app w1) = (messages (app w) ++ [userMsg; reply])%list
    /\ role reply = model
    /\ log w1 = (log w ++ EGenerateContent
                   (ChatRequest "gemini-3-flash-preview" contents1 BEGINNER) :: lg1)%list
    /\ log w2 = (log w1 ++ EGenerateContent
                   (ChatRequest "gemini-3-flash-preview"
                      (contents1 ++ [mkContent model (text reply);
                                     mkContent user QUIZ_PROMPT])
                      BEGINNER) :: lg2)%list.
Proof.
  apply (next_turn_sends_the_conversation_as_shown env_plain None (Some QUIZ_PROMPT)
           (typing "Explain recursion")); reflexivity.
Defined.

Lemma status_call_without_arguments_witness :
  let w := typing "Is a base case needed?" in
  exists userMsg errMsg w',
    handleSendMessage env_bare_call None w = (Ok tt, w')
    /\ messages (app w') = (messages (app w) ++ [userMsg; errMsg])%list
    /\ text userMsg = "Is a base case needed?"
    /\ role errMsg = model /\ text errMsg = ERROR_TEXT
    /\ visualization (app w') = visualization (app w)
    /\ mentorMode (app w') = mentorMode (app w)
    /\ isLoading (app w') = false.
Proof.
  apply (status_call_without_arguments_loses_the_reply env_bare_call None
           (typing "Is a base case needed?") BARE_CALL); reflexivity.
Defined.

Lemma quick_actions_witness :
  let w := typing "give me the full code" in
  exists userMsg reply w' lg,
    handleRequestVisualization env_plain w = (Ok tt, w')
    /\ messages (app w') = (messages (app w) ++ [userMsg; reply])%list
    /\ role userMsg = user /\ text userMsg = VISUALIZE_PROMPT
    /\ input (app w') = "give me the full code"
    /\ log w' = (log w ++ EGenerateContent (chat_request (app w) VISUALIZE_PROMPT) :: lg)%list.
Proof.
  destruct (quick_actions_always_start_a_turn env_plain "Visualize"
              (handleRequestVisualization env_plain))
    as (prompt & Hprompt & Hturn).
  { simpl. right. right. right. left. reflexivity. }
  assert (E : prompt = VISUALIZE_PROMPT).
  { destruct Hprompt as [H|[H|[H|[H|[]]]]]; try discriminate H.
    now injection H as <-. }
  subst prompt. exact (Hturn (typing "give me the full code")).
Defined.

End TurnProperties.
(* ===================================================================== *)
(** * Further properties of the pass over a response *)
(* ===================================================================== *)

Module FeedProperties.
Import JsString Regex Types Eff Gemini App Spec Samples Terms.
Import EffFacts TurnFacts BuilderFacts FeedFacts.
Local Open Scope eff_scope.

Section Pass.
Variable env : Env.

(** The state after one pass, by the items it found. *)
Lemma extractVisualization_app text ip w :
  exists new w',
    extractVisualization env text ip w = (Ok tt, w')
    /\ (new = [] ->
        visualization (app w') = visualization (app w)
        /\ activeTab (app w') = activeTab (app w)
        /\ mobileView (app w') = mobileView (app w))
    /\ (new <> [] ->
        visualization (app w')
        = mkLogicDiagram (items (visualization (app w)) ++ new)
                         (title (visualization (app w)))
        /\ activeTab (app w') = VISUALIZER
        /\ mobileView (app w') = workspace).
Proof.
  unfold extractVisualization, extract_diagrams, resolve_images.
  unfold bind at 1.
  destruct (mermaid_loop env (exec_all true mermaidRegex text) [] w) as (ds & Hm & _).
  rewrite Hm. cbn [List.app].
  set (w1 := mkWorld (app w) (sent w) (asked w) (3 * List.length ds + ticks w) (log w)).
  assert (Hinl : exists inl w2,
    (match ip with
     | Some img => if truthy img
                   then bind (new_item env "img" image img) (fun item => ret (ds ++ [item])%list)
                   else ret ds
     | None => ret ds
     end) w1 = (Ok (ds ++ inl)%list, w2)
    /\ app w2 = app w).
  { destruct ip as [img|].
    - destruct (truthy img).
      + destruct (new_item_run env "img" image img w1) as (it & Hrun & Hit).
        unfold bind. rewrite Hrun. exists [it]. eexists. split; reflexivity.
      + exists [], w1. rewrite List.app_nil_r. split; reflexivity.
    - exists [], w1. rewrite List.app_nil_r. split; reflexivity. }
  destruct Hinl as (inl & w2 & Hrun2 & Happ2).
  unfold bind at 1. rewrite Hrun2.
  destruct (conceptual_loop env (matchAll true conceptualRegex text) (ds ++ inl)%list w2)
    as (results & w3 & lg & Hrun3 & _ & _ & Happ3 & _ & _ & _).
  unfold bind at 1. rewrite Hrun3.
  assert (H3 : visualization (app w3) = visualization (app w)
               /\ activeTab (app w3) = activeTab (app w)
               /\ mobileView (app w3) = mobileView (app w)).
  { rewrite Happ3, <- Happ2. now destruct (matchAll true conceptualRegex text). }
  destruct H3 as (Hv & Ht & Hmv).
  exists ((ds ++ inl) ++ flat_map of_option results)%list.
  destruct (0 <? List.length ((ds ++ inl) ++ flat_map of_option results))%nat eqn:Hlen0.
  - eexists. split; [reflexivity|]. split.
    + intros E. rewrite E in Hlen0. discriminate.
    + intros _. cbn [app visualization setVisualization setActiveTab setMobileView
                       activeTab mobileView]. now rewrite Hv.
  - exists w3. split; [reflexivity|]. split; [auto|].
    intros Hne. apply length_zero_nil in Hlen0. contradiction.
Qed.

(** X8.  One pass over a response brings the feed to the front exactly
    when it added something: with at least one new item the active tab
    becomes the visualizer and the mobile view the workspace; with
    none, the feed, the active tab and the mobile view stay as they
    were.  The title of the feed is never touched. *)
Theorem pass_shows_the_feed_when_it_adds text ip w :
  exists new w',
    extractVisualization env text ip w = (Ok tt, w')
    /\ items (visualization (app w')) = (items (visualization (app w)) ++ new)%list
    /\ title (visualization (app w')) = title (visualization (app w))
    /\ activeTab (app w') = match new with [] => activeTab (app w) | _ => VISUALIZER end
    /\ mobileView (app w') = match new with [] => mobileView (app w) | _ => workspace end.
Proof.
  destruct (extractVisualization_app text ip w) as (new & w' & Hrun & H0 & H1).
  exists new, w'. split; [exact Hrun|].
  destruct new as [|it new].
  - destruct (H0 eq_refl) as (-> & -> & ->). rewrite List.app_nil_r. auto.
  - destruct H1 as (-> & -> & ->); [discriminate|]. auto.
Qed.

End Pass.

End FeedProperties.

(* ===================================================================== *)
(** * The upload of a draft *)
(* ===================================================================== *)

Module UploadProperties.
Import JsString Regex Types Eff Gemini App Spec Samples Catalog Desk Terms Scenes.
Import EffFacts TurnFacts BuilderFacts FeedFacts TurnProperties.
Local Open Scope eff_scope.

Lemma lift_run A (m : M A) d :
  lift m d = (fst (m (world d)), mkDesk (snd (m (world d))) (pane d)).
Proof. unfold lift. now destruct (m (world d)). Qed.

Lemma requests_app l1 l2 : requests (l1 ++ l2) = (requests l1 ++ requests l2)%list.
Proof. unfold requests. now rewrite flat_map_app. Qed.

Section Upload.
Variable env : Env.

(** The [try] block of the upload, by the outcome of the backend call. *)
Lemma review_run a fileName content w :
  review env a fileName content w =
  match sendMessageToGemini env (history_of (messages a))
                            (review_prompt fileName content) (knowledgeLevel a) w with
  | (Ok response, w2) =>
      let aiMsg :=
        mkMessage (toString (date_now env (ticks w2) + 1)) model
                  (if truthy (response_text response)
                   then response_text response else UPLOAD_PLACEHOLDER)
                  (date_now env (S (ticks w2))) in
      let w3 := mkWorld (setMessages (fun prev => prev ++ [aiMsg])%list (app w2))
                        (sent w2) (asked w2) (S (S (ticks w2))) (log w2) in
      (Ok tt, snd (extractVisualization env (response_text response)
                                        (imagePart response) w3))
  | (Throw e, w2) => (Throw e, w2)
  end.
Proof.
  unfold review. unfold bind at 1.
  destruct (sendMessageToGemini env _ _ _ w) as [[response|e] w2]; [|reflexivity].
  unfold bind, Date_now, modify, tick. cbn [app sent asked ticks log].
  match goal with
  | |- context [extractVisualization env ?t ?i ?w3] =>
      destruct (total_extractVisualization env t i w3) as [u Hu];
      destruct (extractVisualization env t i w3) as [r1 w4]
  end.
  cbn [fst snd] in *. subst r1. now destruct u.
Qed.

(** What [reader.onload] does, by the outcome of the backend call. *)
Lemma onload_run fileName content d :
  let w := world d in
  let a := app w in
  let userMsg :=
    mkMessage (toString (date_now env (ticks w))) user (upload_notice fileName)
              (date_now env (S (ticks w))) in
  let w1 := mkWorld (setIsLoading true
                       (setMessages (fun prev => prev ++ [userMsg])%list a))
                    (sent w) (asked w) (S (S (ticks w))) (log w) in
  onload env fileName content d =
  (Ok tt,
   mkDesk
     (match review env a fileName content w1 with
      | (Ok _, w4) =>
          mkWorld (setIsLoading false (app w4)) (sent w4) (asked w4) (ticks w4) (log w4)
      | (Throw e, w2) =>
          mkWorld (setIsLoading false (app w2)) (sent w2) (asked w2) (ticks w2)
                  (log w2 ++ [EConsoleError EmptyString])
      end)
     (resetFileInput (pane d))).
Proof.
  cbv zeta.
  unfold onload, dbind, dtry_finally, dtry_catch, update, lift, get_app, Date_now,
    tick, modify, console_error, emit.
  cbn [fst snd world pane app sent asked ticks log].
  destruct (review env (app (world d)) fileName content _) as [[[]|e] w4]; reflexivity.
Qed.

(** What an upload leaves alone, whatever happens. *)
Lemma handleFileUpload_frame files d :
  exists d',
    handleFileUpload env files d = (Ok tt, d')
    /\ mentorMode (app (world d')) = mentorMode (app (world d))
    /\ knowledgeLevel (app (world d')) = knowledgeLevel (app (world d))
    /\ (exists more,
          messages (app (world d')) = (messages (app (world d)) ++ more)%list)
    /\ (exists more,
          items (visualization (app (world d')))
          = (items (visualization (app (world d))) ++ more)%list).
Proof.
  assert (Hsame : exists d', (Ok tt, d) = (Ok tt, d')
    /\ mentorMode (app (world d')) = mentorMode (app (world d))
    /\ knowledgeLevel (app (world d')) = knowledgeLevel (app (world d))
    /\ (exists more,
          messages (app (world d')) = (messages (app (world d)) ++ more)%list)
    /\ (exists more,
          items (visualization (app (world d')))
          = (items (visualization (app (world d))) ++ more)%list)).
  { exists d. repeat split; exists []; now rewrite List.app_nil_r. }
  unfold handleFileUpload, dret.
  destruct files as [[|file others]|]; [exact Hsame| |exact Hsame].
  destruct (file_text file) as [content|]; [|exact Hsame]. clear Hsame.
  rewrite onload_run. cbv zeta. rewrite review_run, sendMessageToGemini_run.
  cbn [sent app messages knowledgeLevel setIsLoading setMessages].
  destruct (match generateContent env (sent (world d)) _ with
            | inl e => Throw e
            | inr response => match read_response response with
                              | inl e => Throw e
                              | inr r => Ok r
                              end
            end) as [r|e].
  - cbv zeta.
    match goal with
    | |- context [extractVisualization env ?t ?i ?w3] =>
        pose proof (keeps_extractVisualization env t i w3) as Hk;
        destruct (FeedProperties.extractVisualization_app env t i w3)
          as (new & w4 & Hrun & H0 & H1);
        rewrite Hrun in *
    end.
    cbn [snd] in *.
    destruct Hk as [Hm _ _ Hlv Hme _ _ _].
    cbn [app messages setMessages setIsLoading mentorMode knowledgeLevel] in Hm, Hme, Hlv.
    eexists. split; [reflexivity|].
    cbn [world pane app messages setIsLoading mentorMode knowledgeLevel visualization].
    rewrite Hm, Hme, Hlv, <- !List.app_assoc.
    split; [reflexivity|]. split; [reflexivity|]. split; [now eexists|].
    destruct new as [|it new].
    + destruct (H0 eq_refl) as (-> & _). exists []. now rewrite List.app_nil_r.
    + destruct H1 as (-> & _); [discriminate|]. now eexists.
  - eexists. split; [reflexivity|].
    cbn [world pane app messages setIsLoading setMessages mentorMode knowledgeLevel
         visualization].
    split; [reflexivity|]. split; [reflexivity|]. split; [now eexists|].
    exists []. now rewrite List.app_nil_r.
Qed.

(** X9.  An uploaded file that the backend answers becomes a turn of
    its own kind: the user message is only the notice that names the
    file, while the request carries, after the history, the review
    prompt with the whole text of the file; the reply is the answer,
    or [File processed.] when the answer has no text.  Only the first
    file counts.  The mentor flag stays as it was whatever the answer
    declares, the busy flag ends down, and the file input, where it is
    mounted, is cleared. *)
Theorem upload_is_reviewed fileName content others d response r :
  generateContent env (sent (world d))
    (review_request (app (world d)) fileName content) = inr response ->
  read_response response = inr r ->
  exists notice reply d' lg,
    handleFileUpload env (Some (mkFile fileName (Some content) :: others)) d = (Ok tt, d')
    /\ messages (app (world d')) = (messages (app (world d)) ++ [notice; reply])%list
    /\ role notice = user /\ text notice = upload_notice fileName
    /\ role reply = model
    /\ text reply = (if truthy (response_text r)
                     then response_text r else UPLOAD_PLACEHOLDER)
    /\ log (world d')
       = (log (world d)
          ++ EGenerateContent (review_request (app (world d)) fileName content)
          :: lg)%list
    /\ mentorMode (app (world d')) = mentorMode (app (world d))
    /\ isLoading (app (world d')) = false
    /\ fileInput (pane d') = option_map (fun _ => EmptyString) (fileInput (pane d)).
Proof.
  intros Hg Hr. unfold handleFileUpload. cbn [file_text file_name].
  rewrite onload_run. cbv zeta. rewrite review_run, sendMessageToGemini_run.
  cbn [sent app messages knowledgeLevel setIsLoading setMessages].
  unfold review_request in Hg. rewrite Hg, Hr. cbv zeta.
  match goal with
  | |- context [extractVisualization env ?t ?i ?w3] =>
      pose proof (keeps_extractVisualization env t i w3) as Hk;
      set (w4 := snd (extractVisualization env t i w3)) in *
  end.
  destruct Hk as [Hm _ _ _ Hme _ _ [lg Hlg]].
  cbn [app messages setMessages setIsLoading mentorMode log sent asked ticks] in Hm, Hme, Hlg.
  do 3 eexists. exists lg. split; [reflexivity|].
  cbn [world pane app messages setIsLoading mentorMode isLoading log resetFileInput
       fileInput role text].
  rewrite Hm, Hme, Hlg, <- !List.app_assoc.
  repeat split.
Qed.

(** X10.  An upload whose backend call fails is silent: the history
    grows by the notice alone, with no message about the failure, which
    only goes to the console; the notice on screen, the feed and the
    mentor flag stay as they were, the busy flag ends down and the
    file input, where it is mounted, is cleared.  Nothing is thrown. *)
Theorem failed_upload_is_silent fileName content others d e :
  fst (sendMessageToGemini env (history_of (messages (app (world d))))
         (review_prompt fileName content)
         (knowledgeLevel (app (world d))) (world d)) = Throw e ->
  exists notice d',
    handleFileUpload env (Some (mkFile fileName (Some content) :: others)) d = (Ok tt, d')
    /\ messages (app (world d')) = (messages (app (world d)) ++ [notice])%list
    /\ role notice = user /\ text notice = upload_notice fileName
    /\ log (world d')
       = (log (world d)
          ++ [EGenerateContent (review_request (app (world d)) fileName content);
              EConsoleError EmptyString])%list
    /\ showToast (app (world d')) = showToast (app (world d))
    /\ toastMessage (app (world d')) = toastMessage (app (world d))
    /\ visualization (app (world d')) = visualization (app (world d))
    /\ mentorMode (app (world d')) = mentorMode (app (world d))
    /\ isLoading (app (world d')) = false
    /\ fileInput (pane d') = option_map (fun _ => EmptyString) (fileInput (pane d)).
Proof.
  intros He. unfold handleFileUpload. cbn [file_text file_name].
  rewrite onload_run. cbv zeta. rewrite review_run.
  rewrite sendMessageToGemini_run in He |- *.
  cbn [sent app messages knowledgeLevel setIsLoading setMessages fst] in He |- *.
  destruct (generateContent env (sent (world d)) _) as [e0|response].
  - do 2 eexists. split; [reflexivity|].
    cbn [world pane app messages setIsLoading setMessages mentorMode isLoading log
         resetFileInput fileInput role text showToast toastMessage visualization].
    rewrite <- !List.app_assoc.
    repeat split.
  - destruct (read_response response) as [e0|r0]; [|discriminate].
    do 2 eexists. split; [reflexivity|].
    cbn [world pane app messages setIsLoading setMessages mentorMode isLoading log
         resetFileInput fileInput role text showToast toastMessage visualization].
    rewrite <- !List.app_assoc.
    repeat split.
Qed.

End Upload.

(** ** Instances *)

Lemma upload_witness :
  let d := desk EmptyString EmptyString in
  exists notice reply d' lg,
    handleFileUpload env_satisfied (Some [DRAFT]) d = (Ok tt, d')
    /\ messages (app (world d')) = (messages (app (world d)) ++ [notice; reply])%list
    /\ role notice = user /\ text notice = upload_notice "draft.txt"
    /\ role reply = model
    /\ text reply = DIAGRAM_REPLY
    /\ log (world d')
       = (log (world d)
          ++ EGenerateContent
               (review_request (app (world d)) "draft.txt" "1. read the list 2. sort it")
          :: lg)%list
    /\ mentorMode (app (world d')) = false
    /\ isLoading (app (world d')) = false
    /\ fileInput (pane d') = Some EmptyString.
Proof.
  apply (upload_is_reviewed env_satisfied "draft.txt" "1. read the list 2. sort it" []
           (desk EmptyString EmptyString)
           (mkResponse (Some [text_part DIAGRAM_REPLY; status_part "satisfied"]))
           (mkChatResponse DIAGRAM_REPLY (Some "satisfied") None)); reflexivity.
Defined.

Lemma failed_upload_witness :
  let d := desk EmptyString EmptyString in
  exists notice d',
    handleFileUpload env_down (Some [DRAFT]) d = (Ok tt, d')
    /\ messages (app (world d')) = (messages (app (world d)) ++ [notice])%list
    /\ role notice = user /\ text notice = upload_notice "draft.txt"
    /\ log (world d')
       = (log (world d)
          ++ [EGenerateContent
                (review_request (app (world d)) "draft.txt" "1. read the list 2. sort it");
              EConsoleError EmptyString])%list
    /\ showToast (app (world d')) = showToast (app (world d))
    /\ toastMessage (app (world d')) = toastMessage (app (world d))
    /\ visualization (app (world d')) = visualization (app (world d))
    /\ mentorMode (app (world d')) = mentorMode (app (world d))
    /\ isLoading (app (world d')) = false
    /\ fileInput (pane d') = Some EmptyString.
Proof.
  apply (failed_upload_is_silent env_down "draft.txt" "1. read the list 2. sort it" []
           (desk EmptyString EmptyString)
           (mkError (Some 500%Z) (Some "Internal error"))); reflexivity.
Defined.

End UploadProperties.
(* ===================================================================== *)
(** * The image canvas ([handleGenerateImage], [Append to Blueprint]) *)
(* ===================================================================== *)

Module CanvasProperties.
Import JsString Regex Types Eff Gemini App Spec Samples Catalog Desk Terms Scenes.
Import EffFacts TurnFacts BuilderFacts FeedFacts ServiceProperties UploadProperties.
Local Open Scope eff_scope.

Section Canvas.
Variable env : Env.

(** The key check: it never throws and sends nothing; it opens the key
    selection when the host says that no key is selected. *)
Lemma ensureKey_run w :
  exists n lgk,
    ensureKey env w = (Ok tt, mkWorld (app w) (sent w) n (ticks w) (log w ++ lgk)%list)
    /\ requests lgk = []
    /\ key_selections lgk = (if lacks_key env w then 1 else 0)
    /\ n = key_selections lgk + asked w.
Proof.
  unfold ensureKey, lacks_key.
  destruct (aistudio env) as [studio|].
  - unfold try_catch, bind, await_hasSelectedApiKey, await_openSelectKey,
      console_error, emit, ret.
    destruct (hasSelectedApiKey studio (asked w)) as [e|[|]]; cbn [negb].
    + exists (asked w), [EConsoleError EmptyString]. repeat split.
    + exists (asked w), []. rewrite List.app_nil_r. destruct w. repeat split.
    + destruct (openSelectKey studio (asked w)) as [e|]; cbn [app sent asked ticks log].
      * exists (S (asked w)), [EOpenSelectKey; EConsoleError EmptyString].
        rewrite <- List.app_assoc. repeat split.
      * exists (S (asked w)), [EOpenSelectKey]. repeat split.
  - exists (asked w), []. rewrite List.app_nil_r. destruct w. repeat split.
Qed.

(** The [catch] block: it never throws and sends nothing; with a host
    and a permission denial it opens the key selection, and puts the
    notice up when the selection resolves. *)
Lemma imageGenFailed_run e w :
  exists n lgf,
    imageGenFailed env e w
    = (Ok tt,
       mkWorld (match aistudio env with
                | Some studio =>
                    if permission_denied e
                    then match openSelectKey studio (asked w) with
                         | None => setShowToast true (setToastMessage ACCESS_DENIED (app w))
                         | Some _ => app w
                         end
                    else app w
                | None => app w
                end)
               (sent w) n (ticks w) (log w ++ EConsoleError "Image Gen Error" :: lgf)%list)
    /\ requests lgf = []
    /\ key_selections lgf = match aistudio env with
                            | Some _ => if permission_denied e then 1 else 0
                            | None => 0
                            end.
Proof.
  unfold imageGenFailed, bind, console_error, emit.
  destruct (aistudio env) as [studio|].
  - destruct (permission_denied e).
    + unfold try_catch, bind, await_openSelectKey, modify, console_error, emit.
      cbn [app sent asked ticks log].
      destruct (openSelectKey studio (asked w)) as [e'|]; cbn [app sent asked ticks log];
        rewrite <- ?List.app_assoc; do 2 eexists; (split; [reflexivity|]);
        split; reflexivity.
    + exists (asked w), []. repeat split.
  - exists (asked w), []. repeat split.
Qed.

(** [generateImage] starts with the request to the primary model. *)
Lemma generateImage_log p s w :
  exists n rest,
    snd (generateImage env p s w)
    = mkWorld (app w) n (asked w) (ticks w)
              (log w ++ EGenerateContent (ImageRequest PRO_MODEL p (Some s)) :: rest)%list
    /\ key_selections rest = 0.
Proof.
  pose proof (generateImage_run env p s w) as H. cbv zeta in H. rewrite H.
  destruct (generateContent env (sent w) _) as [e|r].
  - destruct (permission_denied e).
    + destruct (generateContent env (S (sent w)) _); do 2 eexists; split; reflexivity.
    + do 2 eexists; split; reflexivity.
  - do 2 eexists; split; reflexivity.
Qed.

(** What [handleGenerateImage] does with a prompt that is not blank,
    by the outcome of [generateImage]. *)
Lemma handleGenerateImage_run d :
  truthy (trim (imagePrompt (pane d))) = true ->
  let w := world d in
  let p := pane d in
  exists nk lgk,
    requests lgk = []
    /\ key_selections lgk = (if lacks_key env w then 1 else 0)
    /\ nk = key_selections lgk + asked w
    /\ let w1 := mkWorld (setIsGeneratingImage true (app w)) (sent w) nk (ticks w)
                         (log w ++ lgk)%list in
       handleGenerateImage env d =
       match generateImage env (imagePrompt p) (imageSize p) w1 with
       | (Ok (Some img), w2) =>
           if truthy img
           then
             let newItem :=
               mkVisualItem ("manual-" ++ toString (date_now env (ticks w2))) image img
                            (date_now env (S (ticks w2))) in
             (Ok tt,
              mkDesk
                (mkWorld
                   (setIsGeneratingImage false
                      (setMobileView workspace
                         (setActiveTab VISUALIZER
                            (setVisualization
                               (fun prev => mkLogicDiagram (items prev ++ [newItem])
                                                           (title prev))
                               (app w2)))))
                   (sent w2) (asked w2) (S (S (ticks w2))) (log w2))
                (setGeneratedImageUrl (Some img) p))
           else (Ok tt, mkDesk (flag_down w2) p)
       | (Ok None, w2) => (Ok tt, mkDesk (flag_down w2) p)
       | (Throw e, w2) => (Ok tt, mkDesk (flag_down (snd (imageGenFailed env e w2))) p)
       end.
Proof.
  intros Hne. cbv zeta.
  destruct (ensureKey_run (world d)) as (nk & lgk & Hk & Hreq & Hsel & Hnk).
  exists nk, lgk. split; [exact Hreq|]. split; [exact Hsel|]. split; [exact Hnk|].
  unfold handleGenerateImage, dbind at 1, get_pane. rewrite Hne. cbn [negb].
  unfold dbind at 1. rewrite lift_run, Hk. cbn [fst snd].
  unfold dbind at 1. rewrite lift_run. unfold modify at 1.
  cbn [fst snd world pane app sent asked ticks log].
  unfold dtry_finally, dtry_catch. unfold dbind at 1. rewrite lift_run.
  cbn [world pane].
  destruct (generateImage env _ _ _) as [[[img|]|e] w2]; cbn [fst snd].
  - destruct (truthy img).
    + unfold dbind, update, lift, Date_now, tick, modify.
      cbn [fst snd world pane app sent asked ticks log]. reflexivity.
    + unfold dret, lift, modify. cbn [fst snd world pane]. reflexivity.
  - unfold dret, lift, modify. cbn [fst snd world pane]. reflexivity.
  - destruct (imageGenFailed_run e w2) as (n & lgf & Hf & _ & _).
    unfold lift, modify. cbn [world pane]. rewrite Hf. reflexivity.
Qed.

(** The outcome of [handleGenerateImage] for a prompt that is not
    blank: what it leaves of the state and of the record, by the
    outcome of [generateImage]. *)
Lemma handleGenerateImage_cases d :
  truthy (trim (imagePrompt (pane d))) = true ->
  let w := world d in
  let p := pane d in
  exists before after a' p' n1 n2 n3,
    handleGenerateImage env d
    = (Ok tt,
       mkDesk (mkWorld (setIsGeneratingImage false a') n1 n2 n3
                 (log w ++ before
                  ++ EGenerateContent (ImageRequest PRO_MODEL (imagePrompt p)
                                                    (Some (imageSize p)))
                  :: after)%list)
              p')
    /\ requests before = []
    /\ key_selections before = (if lacks_key env w then 1 else 0)
    /\ match fst (generateImage env (imagePrompt p) (imageSize p) w) with
       | Ok (Some img) =>
           key_selections after = 0
           /\ if truthy img
              then exists item,
                  type item = image /\ content item = img
                  /\ a' = setMobileView workspace
                            (setActiveTab VISUALIZER
                               (setVisualization
                                  (fun prev => mkLogicDiagram (items prev ++ [item])
                                                              (title prev))
                                  (app w)))
                  /\ p' = setGeneratedImageUrl (Some img) p
              else a' = app w /\ p' = p
       | Ok None => key_selections after = 0 /\ a' = app w /\ p' = p
       | Throw e =>
           key_selections after = (if selects_key env e then 1 else 0)
           /\ a' = (if key_selected env e (key_selections before + asked w)
                    then access_denied (app w) else app w)
           /\ p' = p
       end.
Proof.
  intros Hne. cbv zeta.
  destruct (handleGenerateImage_run d Hne) as (nk & lgk & Hreq & Hsel & Hnk & Hrun).
  cbv zeta in Hrun. rewrite Hrun. clear Hrun.
  set (w1 := mkWorld (setIsGeneratingImage true (app (world d))) (sent (world d)) nk
                     (ticks (world d)) (log (world d) ++ lgk)%list).
  rewrite <- (generateImage_fst env (imagePrompt (pane d)) (imageSize (pane d))
                               (world d) w1 eq_refl).
  destruct (generateImage_log (imagePrompt (pane d)) (imageSize (pane d)) w1)
    as (n & rest & Hw2 & Hrest).
  destruct (generateImage env (imagePrompt (pane d)) (imageSize (pane d)) w1)
    as [[[img|]|e] w2]; cbn [fst snd] in *; subst w2;
    cbn [app sent asked ticks log w1 flag_down] in *.
  - destruct (truthy img).
    + set (item := mkVisualItem ("manual-" ++ toString (date_now env (ticks (world d))))
                                image img (date_now env (S (ticks (world d))))).
      exists lgk, rest.
      exists (setMobileView workspace
                (setActiveTab VISUALIZER
                   (setVisualization
                      (fun prev => mkLogicDiagram (items prev ++ [item]) (title prev))
                      (app (world d))))).
      exists (setGeneratedImageUrl (Some img) (pane d)).
      do 3 eexists. split.
      2:{ split; [exact Hreq|]. split; [exact Hsel|]. split; [exact Hrest|].
          exists item. repeat split. }
      rewrite <- List.app_assoc. reflexivity.
    + exists lgk, rest, (app (world d)), (pane d). do 3 eexists. split.
      2:{ split; [exact Hreq|]. split; [exact Hsel|]. split; [exact Hrest|]. now split. }
      rewrite <- List.app_assoc. reflexivity.
  - exists lgk, rest, (app (world d)), (pane d). do 3 eexists. split.
    2:{ split; [exact Hreq|]. split; [exact Hsel|]. split; [exact Hrest|]. now split. }
    rewrite <- List.app_assoc. reflexivity.
  - match goal with
    | |- context [imageGenFailed env e ?w2] =>
        destruct (imageGenFailed_run e w2) as (nf & lgf & Hf & Hreqf & Hself)
    end.
    rewrite Hf. cbn [snd app sent asked ticks log].
    exists lgk, (rest ++ EConsoleError "Image Gen Error" :: lgf)%list.
    exists (if key_selected env e nk then access_denied (app (world d)) else app (world d)).
    exists (pane d). do 3 eexists. split.
    2:{ split; [exact Hreq|]. split; [exact Hsel|]. split; [|split; [|reflexivity]].
        - rewrite key_selections_app, Hrest. cbn [key_selections List.filter List.length].
          fold (key_selections lgf). rewrite Hself. unfold selects_key.
          now destruct (aistudio env).
        - now rewrite Hnk. }
    rewrite <- !List.app_assoc. cbn [List.app].
    unfold key_selected, access_denied.
    destruct (aistudio env) as [studio|]; [|reflexivity].
    destruct (permission_denied e); [|reflexivity].
    destruct (openSelectKey studio nk); reflexivity.
Qed.

(** What [handleGenerateImage] leaves alone, whatever happens. *)
Lemma handleGenerateImage_frame d :
  exists d',
    handleGenerateImage env d = (Ok tt, d')
    /\ (truthy (trim (imagePrompt (pane d))) = false -> d' = d)
    /\ (truthy (trim (imagePrompt (pane d))) = true ->
        isGeneratingImage (app (world d')) = false)
    /\ messages (app (world d')) = messages (app (world d))
    /\ input (app (world d')) = input (app (world d))
    /\ isLoading (app (world d')) = isLoading (app (world d))
    /\ mentorMode (app (world d')) = mentorMode (app (world d))
    /\ knowledgeLevel (app (world d')) = knowledgeLevel (app (world d))
    /\ imagePrompt (pane d') = imagePrompt (pane d)
    /\ imageSize (pane d') = imageSize (pane d)
    /\ exists more,
         items (visualization (app (world d')))
         = (items (visualization (app (world d))) ++ more)%list.
Proof.
  destruct (truthy (trim (imagePrompt (pane d)))) eqn:Hne.
  - destruct (handleGenerateImage_cases d Hne)
      as (before & after & a' & p' & n1 & n2 & n3 & Hrun & _ & _ & Hcase).
    cbv zeta in Hrun, Hcase. rewrite Hrun. eexists. split; [reflexivity|].
    cbn [world pane app isGeneratingImage setIsGeneratingImage messages input
         isLoading mentorMode knowledgeLevel visualization].
    split; [discriminate|]. split; [reflexivity|].
    destruct (fst (generateImage env _ _ _)) as [[img|]|e].
    + destruct Hcase as [_ Hcase]. destruct (truthy img).
      * destruct Hcase as (item & _ & _ & -> & ->). repeat split. now exists [item].
      * destruct Hcase as [-> ->]. repeat split. exists []. now rewrite List.app_nil_r.
    + destruct Hcase as (_ & -> & ->). repeat split. exists []. now rewrite List.app_nil_r.
    + destruct Hcase as (_ & -> & ->).
      destruct (key_selected env e _); repeat split; exists [];
        now rewrite List.app_nil_r.
  - exists d. unfold handleGenerateImage, dbind, get_pane. rewrite Hne.
    repeat split; try discriminate. exists []. now rewrite List.app_nil_r.
Qed.

(** X11.  [handleGenerateImage] never throws.  With a blank prompt it
    does nothing at all.  Otherwise it ends with the image flag down,
    whatever happened to the key check and to the request, and it
    never touches the conversation (messages, input, busy flag, mentor
    flag) nor the prompt and the size on the canvas. *)
Theorem image_generation_is_contained d :
  exists d',
    handleGenerateImage env d = (Ok tt, d')
    /\ (truthy (trim (imagePrompt (pane d))) = false -> d' = d)
    /\ (truthy (trim (imagePrompt (pane d))) = true ->
        isGeneratingImage (app (world d')) = false)
    /\ messages (app (world d')) = messages (app (world d))
    /\ input (app (world d')) = input (app (world d))
    /\ isLoading (app (world d')) = isLoading (app (world d))
    /\ mentorMode (app (world d')) = mentorMode (app (world d))
    /\ imagePrompt (pane d') = imagePrompt (pane d)
    /\ imageSize (pane d') = imageSize (pane d).
Proof.
  destruct (handleGenerateImage_frame d)
    as (d' & H1 & H2 & H3 & H4 & H5 & H6 & H7 & _ & H8 & H9 & _).
  exists d'. repeat split; assumption.
Qed.

(** X12.  The key is checked before the image is asked for.  With a
    prompt that is not blank the request to the primary image model
    always goes out, with the prompt as typed and the chosen size;
    before it nothing is sent, and the host's key selection is opened
    exactly when the host offers one and says that no key is selected.
    A failure of the check or of the selection does not stop the
    request. *)
Theorem key_is_checked_before_the_image_request d :
  truthy (trim (imagePrompt (pane d))) = true ->
  exists before after,
    log (world (snd (handleGenerateImage env d)))
    = (log (world d) ++ before
       ++ EGenerateContent (ImageRequest PRO_MODEL (imagePrompt (pane d))
                                         (Some (imageSize (pane d))))
       :: after)%list
    /\ requests before = []
    /\ key_selections before = if lacks_key env (world d) then 1 else 0.
Proof.
  intros Hne.
  destruct (handleGenerateImage_cases d Hne)
    as (before & after & a' & p' & n1 & n2 & n3 & Hrun & Hreq & Hsel & _).
  cbv zeta in Hrun. rewrite Hrun. exists before, after. repeat split; assumption.
Qed.

(** X13.  When [generateImage] returns an image, [handleGenerateImage]
    appends it to the feed as one image item, shows it on the canvas,
    and brings the feed to the front (visualizer tab, workspace view).
    When it returns nothing, or an empty string, nothing on screen
    changes: the feed, the canvas, the tabs and the notice stay as
    they were. *)
Theorem generated_image_lands_on_canvas_and_feed d o :
  truthy (trim (imagePrompt (pane d))) = true ->
  fst (generateImage env (imagePrompt (pane d)) (imageSize (pane d)) (world d)) = Ok o ->
  let d' := snd (handleGenerateImage env d) in
  let a := app (world d) in
  let a' := app (world d') in
  showToast a' = showToast a /\ toastMessage a' = toastMessage a
  /\ match o with
     | Some (String c img) =>
         exists item,
           type item = image /\ content item = String c img
           /\ visualization a'
              = mkLogicDiagram (items (visualization a) ++ [item]) (title (visualization a))
           /\ generatedImageUrl (pane d') = Some (String c img)
           /\ activeTab a' = VISUALIZER /\ mobileView a' = workspace
     | _ =>
         visualization a' = visualization a
         /\ generatedImageUrl (pane d') = generatedImageUrl (pane d)
         /\ activeTab a' = activeTab a /\ mobileView a' = mobileView a
     end.
Proof.
  intros Hne Ho. cbv zeta.
  destruct (handleGenerateImage_cases d Hne)
    as (before & after & a' & p' & n1 & n2 & n3 & Hrun & _ & _ & Hcase).
  cbv zeta in Hrun, Hcase. rewrite Hrun, Ho in *. clear Hrun.
  cbn [snd world pane app].
  destruct o as [[|c img]|].
  - destruct Hcase as (_ & -> & ->). repeat split.
  - destruct Hcase as (_ & item & Hty & Hc & -> & ->).
    repeat split. exists item. repeat split; assumption.
  - destruct Hcase as (_ & -> & ->). repeat split.
Qed.

(** X14.  When [generateImage] throws, [handleGenerateImage] leaves
    the feed, the canvas and the tabs as they were.  After the request
    the host's key selection is opened exactly when the host offers
    one and the error is a permission denial; the notice
    [Access Denied. Please select a paid API Key.] goes up exactly when
    that selection resolves.  Without a host nothing tells the user of
    the failure. *)
Theorem failed_image_generation_asks_for_a_key d e :
  truthy (trim (imagePrompt (pane d))) = true ->
  fst (generateImage env (imagePrompt (pane d)) (imageSize (pane d)) (world d)) = Throw e ->
  let d' := snd (handleGenerateImage env d) in
  let a := app (world d) in
  let a' := app (world d') in
  exists before after,
    log (world d')
    = (log (world d) ++ before
       ++ EGenerateContent (ImageRequest PRO_MODEL (imagePrompt (pane d))
                                         (Some (imageSize (pane d))))
       :: after)%list
    /\ key_selections after = (if selects_key env e then 1 else 0)
    /\ (showToast a', toastMessage a')
       = (if key_selected env e (key_selections before + asked (world d))
          then (true, ACCESS_DENIED) else (showToast a, toastMessage a))
    /\ visualization a' = visualization a
    /\ generatedImageUrl (pane d') = generatedImageUrl (pane d)
    /\ activeTab a' = activeTab a /\ mobileView a' = mobileView a.
Proof.
  intros Hne He. cbv zeta.
  destruct (handleGenerateImage_cases d Hne)
    as (before & after & a' & p' & n1 & n2 & n3 & Hrun & _ & _ & Hcase).
  cbv zeta in Hrun, Hcase. rewrite Hrun, He in *. clear Hrun.
  destruct Hcase as (Hsel & -> & ->).
  exists before, after. cbn [snd world pane app log].
  split; [reflexivity|]. split; [exact Hsel|].
  destruct (key_selected env e _); repeat split.
Qed.

(** X15.  [handleGenerateImage] has already put the image it shows on
    the canvas into the feed, so [Append to Blueprint] puts it there a
    second time: after both, the feed ends with two image items of the
    same content. *)
Theorem appending_the_generated_image_shows_it_twice d img :
  truthy (trim (imagePrompt (pane d))) = true ->
  fst (generateImage env (imagePrompt (pane d)) (imageSize (pane d)) (world d))
  = Ok (Some img) ->
  truthy img = true ->
  let d1 := snd (handleGenerateImage env d) in
  let w2 := snd (appendToBlueprint env img (world d1)) in
  exists first second,
    generatedImageUrl (pane d1) = Some img
    /\ fst (appendToBlueprint env img (world d1)) = Ok tt
    /\ items (visualization (app w2))
       = (items (visualization (app (world d))) ++ [first; second])%list
    /\ type first = image /\ content first = img
    /\ type second = image /\ content second = img.
Proof.
  intros Hne Ho Himg. cbv zeta.
  destruct (handleGenerateImage_cases d Hne)
    as (before & after & a' & p' & n1 & n2 & n3 & Hrun & _ & _ & Hcase).
  cbv zeta in Hrun, Hcase. rewrite Hrun, Ho, Himg in *. clear Hrun.
  destruct Hcase as (_ & item & Hty & Hc & -> & ->).
  cbn [snd world pane].
  unfold appendToBlueprint, bind, Date_now, tick, modify.
  cbn [fst snd app sent asked ticks log visualization items setVisualization
       setActiveTab setMobileView setIsGeneratingImage generatedImageUrl
       setGeneratedImageUrl].
  do 2 eexists. split; [reflexivity|]. split; [reflexivity|].
  rewrite <- List.app_assoc. cbn [List.app].
  split; [reflexivity|]. repeat split; assumption.
Qed.

End Canvas.

(** ** Instances *)

Lemma key_check_witness :
  let d := desk EmptyString "a red cube" in
  exists before after,
    log (world (snd (handleGenerateImage env_studio d)))
    = (log (world d) ++ before
       ++ EGenerateContent (ImageRequest PRO_MODEL "a red cube" (Some "1K")) :: after)%list
    /\ requests before = []
    /\ key_selections before = 1.
Proof.
  apply (key_is_checked_before_the_image_request env_studio
           (desk EmptyString "a red cube")); reflexivity.
Defined.

Lemma generated_image_witness :
  let d := desk EmptyString "a red cube" in
  let d' := snd (handleGenerateImage env_image d) in
  let a := app (world d) in
  let a' := app (world d') in
  showToast a' = showToast a /\ toastMessage a' = toastMessage a
  /\ exists item,
       type item = image /\ content item = IMAGE_URL
       /\ visualization a'
          = mkLogicDiagram (items (visualization a) ++ [item]) (title (visualization a))
       /\ generatedImageUrl (pane d') = Some IMAGE_URL
       /\ activeTab a' = VISUALIZER /\ mobileView a' = workspace.
Proof.
  apply (generated_image_lands_on_canvas_and_feed env_image
           (desk EmptyString "a red cube") (Some IMAGE_URL)); reflexivity.
Defined.

Lemma failed_image_generation_witness :
  let d := desk EmptyString "a red cube" in
  let d' := snd (handleGenerateImage env_studio_denied d) in
  let a := app (world d) in
  let a' := app (world d') in
  exists before after,
    log (world d')
    = (log (world d) ++ before
       ++ EGenerateContent (ImageRequest PRO_MODEL "a red cube" (Some "1K")) :: after)%list
    /\ key_selections after = 1
    /\ (showToast a', toastMessage a')
       = (if key_selected env_studio_denied DENIED (key_selections before + 0)
          then (true, ACCESS_DENIED) else (showToast a, toastMessage a))
    /\ visualization a' = visualization a
    /\ generatedImageUrl (pane d') = generatedImageUrl (pane d)
    /\ activeTab a' = activeTab a /\ mobileView a' = mobileView a.
Proof.
  apply (failed_image_generation_asks_for_a_key env_studio_denied
           (desk EmptyString "a red cube") DENIED); reflexivity.
Defined.

Lemma appending_witness :
  let d := desk EmptyString "a red cube" in
  let d1 := snd (handleGenerateImage env_image d) in
  let w2 := snd (appendToBlueprint env_image IMAGE_URL (world d1)) in
  exists first second,
    generatedImageUrl (pane d1) = Some IMAGE_URL
    /\ fst (appendToBlueprint env_image IMAGE_URL (world d1)) = Ok tt
    /\ items (visualization (app w2))
       = (items (visualization (app (world d))) ++ [first; second])%list
    /\ type first = image /\ content first = IMAGE_URL
    /\ type second = image /\ content second = IMAGE_URL.
Proof.
  apply (appending_the_generated_image_shows_it_twice env_image
           (desk EmptyString "a red cube") IMAGE_URL); reflexivity.
Defined.

End CanvasProperties.

(* ===================================================================== *)
(** * The template catalog *)
(* ===================================================================== *)

Module CatalogProperties.
Import JsString Regex Types Eff Gemini App Spec Samples Catalog Desk Terms Scenes.
Import StringFacts RegexFacts EffFacts UploadProperties.

(** ** Lower case and trimming *)

Lemma lower_ws c : isWhiteSpace (lower c) = isWhiteSpace c.
Proof. destruct c as [[] [] [] [] [] [] [] []]; reflexivity. Qed.

Lemma toLowerCase_app a b : toLowerCase (a ++ b) = toLowerCase a ++ toLowerCase b.
Proof.
  unfold toLowerCase. induction a as [|c a IH]; simpl; [reflexivity | now rewrite IH].
Qed.

Lemma trimStart_lower s : trimStart (toLowerCase s) = toLowerCase (trimStart s).
Proof.
  unfold toLowerCase. induction s as [|c s IH]; simpl; [reflexivity|].
  rewrite lower_ws. destruct (isWhiteSpace c); [exact IH | reflexivity].
Qed.

Lemma trimEnd_lower s : trimEnd (toLowerCase s) = toLowerCase (trimEnd s).
Proof.
  unfold toLowerCase. induction s as [|c s IH]; simpl; [reflexivity|].
  rewrite IH, lower_ws. destruct (trimEnd s); simpl; [|reflexivity].
  destruct (isWhiteSpace c); reflexivity.
Qed.

Lemma trim_lower s : toLowerCase (trim s) = trim (toLowerCase s).
Proof. unfold trim. now rewrite trimStart_lower, trimEnd_lower. Qed.

(** ** The words of a text *)

Lemma words_from_ws ws s :
  forallb isWhiteSpace ws = true ->
  words_from (ws ++ s) EmptyString = words_from s EmptyString.
Proof.
  induction ws as [|a ws IH]; simpl; [reflexivity|].
  intros H. apply andb_true_iff in H as [-> H]. now apply IH.
Qed.

Lemma words_trimStart s : words (trimStart s) = words s.
Proof.
  destruct (trimStart_split s) as (ws & Hs & Hws). unfold words.
  rewrite Hs at 2. now rewrite words_from_ws.
Qed.

Lemma words_from_all_ws ws word :
  forallb isWhiteSpace ws = true ->
  words_from ws word = if (0 <? String.length word)%nat then [word] else [].
Proof.
  revert word. induction ws as [|a ws IH]; intros word; simpl; [reflexivity|].
  intros H. apply andb_true_iff in H as [-> H].
  rewrite (IH EmptyString H). simpl. reflexivity.
Qed.

Lemma trimEnd_all_ws s : trimEnd s = EmptyString -> forallb isWhiteSpace s = true.
Proof.
  induction s as [|a s IH]; simpl; [reflexivity|].
  destruct (trimEnd s); [|discriminate].
  destruct (isWhiteSpace a); [|discriminate]. intros _. now rewrite IH.
Qed.

Lemma words_from_trimEnd s : forall word,
  words_from (trimEnd s) word = words_from s word.
Proof.
  induction s as [|a s IH]; intros word; [reflexivity|].
  cbn [trimEnd]. destruct (trimEnd s) as [|b t] eqn:E.
  - pose proof (trimEnd_all_ws s E) as Hs.
    destruct (isWhiteSpace a) eqn:Ea; cbn [words_from]; rewrite Ea.
    + rewrite (words_from_all_ws s EmptyString Hs). simpl.
      destruct (0 <? String.length word)%nat; reflexivity.
    + now rewrite (words_from_all_ws s _ Hs).
  - cbn [words_from]. destruct (isWhiteSpace a).
    + rewrite <- (IH EmptyString). reflexivity.
    + rewrite <- IH. reflexivity.
Qed.

Lemma words_trim s : words (trim s) = words s.
Proof.
  unfold trim. unfold words at 1. rewrite words_from_trimEnd. apply words_trimStart.
Qed.

(** A word is not empty and holds no white space. *)
Lemma words_from_spec s : forall word kw,
  forallb (fun c => negb (isWhiteSpace c)) word = true ->
  In kw (words_from s word) ->
  kw <> EmptyString /\ forallb (fun c => negb (isWhiteSpace c)) kw = true.
Proof.
  induction s as [|a s IH]; intros word kw Hw; cbn [words_from].
  - destruct word; simpl; [intros []|]. intros [<-|[]]. split; [discriminate | exact Hw].
  - destruct (isWhiteSpace a) eqn:Ea.
    + destruct word as [|c word]; cbn [String.length Nat.ltb Nat.leb].
      * apply IH. reflexivity.
      * intros [<-|H]; [split; [discriminate | exact Hw]|].
        now apply (IH EmptyString).
    + apply IH. rewrite forallb_app, Hw. simpl. now rewrite Ea.
Qed.

Lemma words_spec s kw :
  In kw (words s) ->
  kw <> EmptyString /\ forallb (fun c => negb (isWhiteSpace c)) kw = true.
Proof. now apply words_from_spec. Qed.

(** ** [split(/\s+/)] *)

Lemma star_greedy_space ic s :
  exists l, star_greedy ic CSpace s = trimStart s :: l.
Proof.
  induction s as [|a s [l IH]]; simpl.
  - now exists [].
  - destruct (isWhiteSpace a); [|now exists []].
    rewrite IH. now eexists.
Qed.

Lemma split_from_skip ic input r p s piece :
  split_from ic input r (p ++ s) piece (String.length p)
  = split_from ic input r s piece 0.
Proof.
  induction p as [|a p IH]; [reflexivity|].
  cbn [String.append String.length split_from]. exact IH.
Qed.

(** The pieces of [split(/\s+/)] that are not empty are the words. *)
Lemma keywords_from input n : forall s piece,
  String.length s <= n ->
  List.filter (fun k => (0 <? String.length k)%nat)
              (split_from false input spacesRegex s piece 0)
  = words_from s piece.
Proof.
  induction n as [|n IH]; intros s piece Hn.
  - destruct s; [reflexivity | simpl in Hn; lia].
  - destruct s as [|a t]; [reflexivity|].
    cbn [String.length] in Hn.
    cbn [split_from spacesRegex ms plus_greedy cls_match words_from].
    destruct (isWhiteSpace a) eqn:Ea.
    + destruct (star_greedy_space false t) as [l Hl]. rewrite Hl.
      cbn [List.map].
      fold (words t). rewrite <- (words_trimStart t). unfold words.
      destruct (trimStart_split t) as (ws & Ht & Hws).
      remember (trimStart t) as u eqn:Hu. clear Hu Hl. subst t.
      rewrite length_app in Hn.
      replace (String.length (String a (ws ++ u)) - String.length u)
        with (S (String.length ws)) by (cbn [String.length]; rewrite length_app; lia).
      cbn [List.filter]. rewrite split_from_skip, IH by lia.
      destruct (0 <? String.length piece)%nat; reflexivity.
    + cbn [List.map]. apply IH. lia.
Qed.

Lemma keywords_words query : keywords_of query = words query.
Proof.
  unfold keywords_of, split, words. destruct query as [|a t]; [reflexivity|].
  now apply (keywords_from _ (String.length (String a t))).
Qed.

(** ** Occurrences in the searchable text *)

Lemma startsWith_before_space kw : forall a b,
  forallb (fun c => negb (isWhiteSpace c)) kw = true ->
  startsWith false kw (a ++ String " " b) = startsWith false kw a.
Proof.
  unfold startsWith.
  induction kw as [|k kw IH]; intros a b H; [reflexivity|].
  cbn [forallb] in H. apply andb_true_iff in H as [Hk H].
  destruct a as [|x a]; cbn [String.append strip_prefix char_eq].
  - destruct (Ascii.eqb_spec k " ") as [->|_]; [discriminate | reflexivity].
  - destruct (Ascii.eqb k x); [now apply IH | reflexivity].
Qed.

Lemma includes_cons l x s :
  includes l (String x s) = startsWith false l (String x s) || includes l s.
Proof.
  unfold includes, includes_ci. cbn [indexOf].
  destruct (startsWith false l (String x s)); [reflexivity|].
  now destruct (indexOf false l s).
Qed.

(** A word occurs in two texts joined by a space when it occurs in one
    of them. *)
Lemma includes_joined kw a b :
  kw <> EmptyString ->
  forallb (fun c => negb (isWhiteSpace c)) kw = true ->
  includes kw (a ++ " " ++ b) = includes kw a || includes kw b.
Proof.
  intros Hne Hws. change (" " ++ b) with (String " " b).
  induction a as [|x a IH].
  - cbn [String.append]. rewrite includes_cons.
    destruct kw as [|k kw]; [contradiction|].
    cbn [forallb] in Hws. apply andb_true_iff in Hws as [Hk _].
    unfold startsWith at 1. cbn [strip_prefix char_eq].
    destruct (Ascii.eqb_spec k " ") as [->|_]; [discriminate|]. reflexivity.
  - cbn [String.append]. rewrite !includes_cons, IH.
    change (String x (a ++ String " " b)) with (String x a ++ String " " b).
    rewrite (startsWith_before_space kw (String x a) b Hws).
    now rewrite orb_assoc.
Qed.

Lemma searchableText_mentions tpl kw :
  kw <> EmptyString ->
  forallb (fun c => negb (isWhiteSpace c)) kw = true ->
  includes kw (searchableText tpl) = mentions tpl kw.
Proof.
  intros Hne Hws. unfold searchableText, mentions.
  rewrite !toLowerCase_app.
  change (toLowerCase " ") with " ".
  rewrite !(includes_joined kw _ _ Hne Hws). now rewrite orb_assoc.
Qed.

Lemma forallb_ext_in A (f g : A -> bool) l :
  (forall x, In x l -> f x = g x) -> List.forallb f l = List.forallb g l.
Proof.
  induction l as [|x l IH]; intros H; [reflexivity|]. cbn [List.forallb].
  rewrite (H x (or_introl eq_refl)), IH; [reflexivity|].
  intros y Hy. apply H. now right.
Qed.

Lemma filter_filter A (f g : A -> bool) l :
  List.filter g (List.filter f l) = List.filter (fun x => f x && g x) l.
Proof.
  induction l as [|x l IH]; [reflexivity|]. cbn [List.filter].
  destruct (f x); cbn [List.filter andb]; now rewrite IH.
Qed.

(** [filteredTemplates] as one filter over the built-in templates
    followed by the templates of the session. *)
Lemma filteredTemplates_filter templateSearch selectedCategory sessionTemplates :
  filteredTemplates templateSearch selectedCategory sessionTemplates
  = List.filter (listed templateSearch selectedCategory)
                (TEMPLATES ++ sessionTemplates)%list.
Proof.
  unfold filteredTemplates, listed.
  assert (Hw : words (toLowerCase templateSearch)
               = keywords_of (toLowerCase (trim templateSearch))).
  { now rewrite keywords_words, trim_lower, words_trim. }
  set (all := (TEMPLATES ++ sessionTemplates)%list).
  set (cat := fun tpl => same_category selectedCategory ALL
                         || same_category (category tpl) selectedCategory).
  assert (Hcat : (if negb (same_category selectedCategory ALL)
                  then List.filter (fun tpl => same_category (category tpl) selectedCategory) all
                  else all) = List.filter cat all).
  { unfold cat. destruct (same_category selectedCategory ALL); cbn [negb orb].
    - clear. induction all as [|x l IH]; [reflexivity|]. cbn [List.filter]. now rewrite <- IH.
    - reflexivity. }
  rewrite Hcat.
  destruct (truthy (toLowerCase (trim templateSearch))) eqn:Hq; cbn [negb].
  - rewrite filter_filter. apply filter_ext_in. intros tpl _. fold (cat tpl). f_equal.
    rewrite Hw. apply forallb_ext_in. intros kw Hkw.
    rewrite keywords_words in Hkw. apply words_spec in Hkw as [Hne Hws].
    now apply searchableText_mentions.
  - rewrite Hw. destruct (toLowerCase (trim templateSearch)); [|discriminate].
    apply filter_ext. intros tpl. fold (cat tpl). cbn. now rewrite andb_true_r.
Qed.

Lemma same_category_eq a b : same_category a b = true <-> a = b.
Proof.
  unfold same_category. split; [|intros ->; apply String.eqb_refl].
  destruct a, b; intros H; try reflexivity; discriminate.
Qed.

Lemma listed_spec templateSearch selectedCategory tpl :
  listed templateSearch selectedCategory tpl = true <->
  (selectedCategory = ALL \/ category tpl = selectedCategory)
  /\ forall kw, In kw (words (toLowerCase templateSearch)) -> mentions tpl kw = true.
Proof.
  unfold listed. rewrite andb_true_iff, orb_true_iff, !same_category_eq, forallb_forall.
  reflexivity.
Qed.

(** X16.  The templates listed are, in the order of the built-in
    templates followed by those of the session, the ones of the
    selected category (all of them for [ALL]) that mention every word
    of the search: each white-space separated word, letter case
    apart, occurs in the title, in the description or in the content
    of the template.  A search without words lists the whole category. *)
Theorem listed_templates_mention_every_word
    templateSearch selectedCategory sessionTemplates :
  filteredTemplates templateSearch selectedCategory sessionTemplates
  = List.filter (listed templateSearch selectedCategory)
                (TEMPLATES ++ sessionTemplates)%list
  /\ (forall tpl,
        listed templateSearch selectedCategory tpl = true <->
        (selectedCategory = ALL \/ category tpl = selectedCategory)
        /\ forall kw, In kw (words (toLowerCase templateSearch)) ->
                      mentions tpl kw = true)
  /\ keywords_of (toLowerCase (trim templateSearch)) = words (toLowerCase templateSearch).
Proof.
  split; [apply filteredTemplates_filter|]. split; [intros; apply listed_spec|].
  now rewrite keywords_words, trim_lower, words_trim.
Qed.

Lemma forallb_incl A (f : A -> bool) l1 l2 :
  incl l1 l2 -> List.forallb f l2 = true -> List.forallb f l1 = true.
Proof.
  rewrite !forallb_forall. intros Hi H x Hx. apply H, Hi, Hx.
Qed.

(** X17.  Only the set of words of a search counts: two searches with
    the same words, in whatever order, letter case, spacing and
    number of repetitions, list the same templates. *)
Theorem search_depends_on_its_words_only q1 q2 selectedCategory sessionTemplates :
  (forall kw, In kw (words (toLowerCase q1)) <-> In kw (words (toLowerCase q2))) ->
  filteredTemplates q1 selectedCategory sessionTemplates
  = filteredTemplates q2 selectedCategory sessionTemplates.
Proof.
  intros H. rewrite !filteredTemplates_filter. apply filter_ext. intros tpl.
  unfold listed. f_equal.
  destruct (List.forallb (mentions tpl) (words (toLowerCase q2))) eqn:E2.
  - eapply forallb_incl; [|exact E2]. intros kw. apply H.
  - destruct (List.forallb (mentions tpl) (words (toLowerCase q1))) eqn:E1; [|reflexivity].
    rewrite <- E2. symmetry. eapply forallb_incl; [|exact E1]. intros kw. apply H.
Qed.

(** X18.  Words only narrow a search: when every word of one search
    is a word of another, each template the other lists is listed by
    the first as well. *)
Theorem more_words_list_fewer_templates q1 q2 selectedCategory sessionTemplates :
  incl (words (toLowerCase q1)) (words (toLowerCase q2)) ->
  incl (filteredTemplates q2 selectedCategory sessionTemplates)
       (filteredTemplates q1 selectedCategory sessionTemplates).
Proof.
  intros H tpl. rewrite !filteredTemplates_filter, !filter_In.
  intros [Hin Hl]. split; [exact Hin|].
  unfold listed in *. apply andb_true_iff in Hl as [-> Hl]. cbn [andb].
  now apply (forallb_incl _ _ _ _ H).
Qed.

(** ** Instances *)

Lemma search_words_witness :
  filteredTemplates "Base Case" ALL [] = filteredTemplates "  base   CASE  " ALL [].
Proof.
  apply (search_depends_on_its_words_only "Base Case" "  base   CASE  " ALL []).
  intros kw. reflexivity.
Defined.

Lemma more_words_witness :
  incl (filteredTemplates "base case" ALL []) (filteredTemplates "case" ALL []).
Proof.
  apply (more_words_list_fewer_templates "case" "base case" ALL []).
  simpl. apply incl_tl, incl_refl.
Defined.

End CatalogProperties.
(* ===================================================================== *)
(** * The synthesis of a template ([handleSynthesize]) *)
(* ===================================================================== *)

Module SynthesisProperties.
Import JsString Regex Types Eff Gemini App Spec Samples Catalog Desk Terms Scenes.
Import EffFacts UploadProperties CatalogProperties.

Section Synthesis.
Variable synthesizeTemplate : string -> M Template.

(** What [handleSynthesize] does with a search that is not blank, by
    the outcome of the service call. *)
Lemma handleSynthesize_run d :
  truthy (trim (templateSearch (pane d))) = true ->
  handleSynthesize synthesizeTemplate d =
  match synthesizeTemplate (templateSearch (pane d)) (world d) with
  | (Ok newTpl, w) =>
      (Ok tt,
       mkDesk w (setIsSynthesizing false
                   (setSessionTemplates (fun prev => newTpl :: prev)
                      (setIsSynthesizing true (pane d)))))
  | (Throw e, w) =>
      (Ok tt,
       mkDesk (mkWorld (app w) (sent w) (asked w) (ticks w)
                       (log w ++ [EConsoleError "Synthesis failed"])%list)
              (setIsSynthesizing false (setIsSynthesizing true (pane d))))
  end.
Proof.
  intros Hne. unfold handleSynthesize, dbind at 1, get_pane. rewrite Hne. cbn [negb].
  unfold dbind, dtry_finally, dtry_catch, update, lift, console_error, emit.
  cbn [world pane].
  destruct (synthesizeTemplate (templateSearch (pane d)) (world d)) as [[newTpl|e] w];
    reflexivity.
Qed.

(** X19.  [handleSynthesize] never throws, whatever the service call
    does.  With a blank search it does nothing and calls nothing.
    Otherwise it calls the service once with the search as typed and
    ends with the synthesis flag down; a template the service returns
    is put first among the templates of the session, and a failure
    leaves them as they were and only goes to the console.  The search
    and the selected category are never touched. *)
Theorem synthesis_is_contained d :
  exists d',
    handleSynthesize synthesizeTemplate d = (Ok tt, d')
    /\ (truthy (trim (templateSearch (pane d))) = false -> d' = d)
    /\ (truthy (trim (templateSearch (pane d))) = true ->
        isSynthesizing (pane d') = false
        /\ match synthesizeTemplate (templateSearch (pane d)) (world d) with
           | (Ok newTpl, w) =>
               sessionTemplates (pane d') = newTpl :: sessionTemplates (pane d)
               /\ world d' = w
           | (Throw e, w) =>
               sessionTemplates (pane d') = sessionTemplates (pane d)
               /\ app (world d') = app w
               /\ log (world d') = (log w ++ [EConsoleError "Synthesis failed"])%list
           end)
    /\ templateSearch (pane d') = templateSearch (pane d)
    /\ selectedCategory (pane d') = selectedCategory (pane d).
Proof.
  destruct (truthy (trim (templateSearch (pane d)))) eqn:Hne.
  - rewrite (handleSynthesize_run d Hne).
    destruct (synthesizeTemplate (templateSearch (pane d)) (world d)) as [[newTpl|e] w];
      eexists; (split; [reflexivity|]); (split; [discriminate|]); repeat split.
  - exists d. unfold handleSynthesize, dbind, get_pane. rewrite Hne.
    split; [reflexivity|]. split; [reflexivity|]. split; [discriminate|]. now split.
Qed.

(** X20.  A synthesized template is listed only if it matches.  After
    a synthesis that returned a template, the list for the same search
    and category is the former list with the new template, if the
    search and the category list it, put after the built-in templates
    and before the earlier templates of the session; a template that
    does not mention every word of the search does not appear. *)
Theorem synthesized_template_is_listed_if_it_matches d newTpl w :
  truthy (trim (templateSearch (pane d))) = true ->
  synthesizeTemplate (templateSearch (pane d)) (world d) = (Ok newTpl, w) ->
  let p := pane d in
  let p' := pane (snd (handleSynthesize synthesizeTemplate d)) in
  let kept tpls := List.filter (listed (templateSearch p) (selectedCategory p)) tpls in
  filteredTemplates (templateSearch p) (selectedCategory p) (sessionTemplates p)
  = (kept TEMPLATES ++ kept (sessionTemplates p))%list
  /\ filteredTemplates (templateSearch p') (selectedCategory p') (sessionTemplates p')
     = (kept TEMPLATES
        ++ (if listed (templateSearch p) (selectedCategory p) newTpl then [newTpl] else [])
        ++ kept (sessionTemplates p))%list.
Proof.
  intros Hne Hrun. cbv zeta.
  rewrite (handleSynthesize_run d Hne), Hrun. cbn [snd pane].
  cbn [templateSearch selectedCategory sessionTemplates setIsSynthesizing
       setSessionTemplates].
  rewrite !filteredTemplates_filter, !filter_app. split; [reflexivity|].
  cbn [List.filter]. now destruct (listed _ _ newTpl).
Qed.

End Synthesis.

(** ** Instances *)

Lemma synthesized_template_witness :
  let d := desk "moon tides" EmptyString in
  let p' := pane (snd (handleSynthesize synthesize_tides d)) in
  let kept tpls := List.filter (listed "moon tides" ALL) tpls in
  filteredTemplates "moon tides" ALL [] = (kept TEMPLATES ++ kept [])%list
  /\ filteredTemplates (templateSearch p') (selectedCategory p') (sessionTemplates p')
     = (kept TEMPLATES
        ++ (if listed "moon tides" ALL TIDES then [TIDES] else [])
        ++ kept [])%list.
Proof.
  apply (synthesized_template_is_listed_if_it_matches synthesize_tides
           (desk "moon tides" EmptyString) TIDES (typing EmptyString)); reflexivity.
Defined.

End SynthesisProperties.

(* ===================================================================== *)
(** * The rendering URL of a diagram *)
(* ===================================================================== *)

Module RendererProperties.
Import JsString Types Eff Visualizer StringFacts.
Local Open Scope eff_scope.

(** ** The escape idiom *)

Lemma unescape_percent b rest :
  unescape_from (percent b ++ rest) 0 = option_map (String b) (unescape_from rest 0).
Proof. destruct b as [[] [] [] [] [] [] [] []]; reflexivity. Qed.

Lemma unreserved_plain c :
  uriUnreserved c = true -> Ascii.eqb c "%" = false /\ utf8 c = String c EmptyString.
Proof.
  destruct c as [[] [] [] [] [] [] [] []]; intros H; try discriminate H; split; reflexivity.
Qed.

Lemma unescape_encoded c rest :
  unescape_from ((if uriUnreserved c then String c EmptyString else percent_all (utf8 c))
                 ++ rest) 0
  = option_map (fun t => utf8 c ++ t) (unescape_from rest 0).
Proof.
  destruct (uriUnreserved c) eqn:Hc.
  - destruct (unreserved_plain c Hc) as [Hp ->].
    cbn [String.append unescape_from]. rewrite Hp. reflexivity.
  - unfold utf8. destruct (code c <? 128)%nat; cbn [percent_all].
    + rewrite app_nil_r, unescape_percent. reflexivity.
    + rewrite app_nil_r, app_assoc, !unescape_percent.
      now destruct (unescape_from rest 0).
Qed.

Lemma unescape_encodeURIComponent s :
  unescape (encodeURIComponent s) = Some (utf8_encode s).
Proof.
  unfold unescape. induction s as [|c s IH]; [reflexivity|].
  cbn [encodeURIComponent utf8_encode]. now rewrite unescape_encoded, IH.
Qed.

(** ** UTF-8 read back *)

Lemma utf8_decode_encoded c rest :
  utf8_decode_from (utf8 c ++ rest) None
  = option_map (String c) (utf8_decode_from rest None).
Proof. destruct c as [[] [] [] [] [] [] [] []]; reflexivity. Qed.

Lemma utf8_decode_encode s : utf8_decode (utf8_encode s) = Some s.
Proof.
  unfold utf8_decode. induction s as [|c s IH]; [reflexivity|].
  cbn [utf8_encode]. now rewrite utf8_decode_encoded, IH.
Qed.

(** ** Base64 read back *)

Lemma base64Value_digit n : n < 64 -> base64Value (base64Digit n) = Some n.
Proof.
  intros H. do 64 (destruct n as [|n]; [reflexivity|]). lia.
Qed.

Lemma base64Char_digit n : base64Char (base64Digit n) = true.
Proof.
  do 64 (destruct n as [|n]; [reflexivity|]). reflexivity.
Qed.

Lemma code_bound c : code c < 256.
Proof. apply nat_ascii_bounded. Qed.

Lemma ascii_of_code c : ascii_of_nat (code c) = c.
Proof. apply ascii_nat_embedding. Qed.

Lemma ascii_of_code_eq c n : n = code c -> ascii_of_nat n = c.
Proof. intros ->. apply ascii_of_code. Qed.

Lemma base64_decode_btoa n : forall s,
  String.length s <= n -> base64_decode (btoa s) = Some s.
Proof.
  induction n as [|n IH]; intros s Hn.
  - destruct s; [reflexivity | simpl in Hn; lia].
  - destruct s as [|a [|b [|c t]]]; [reflexivity| | |].
    + pose proof (code_bound a) as Ha.
      cbn [btoa base64_decode]. rewrite !base64Value_digit by lia.
      change (base64Value "=") with (@None nat). cbv beta iota.
      change (Ascii.eqb "=" "=") with true. cbv beta iota. cbn [andb].
      f_equal. f_equal. apply ascii_of_code_eq. lia.
    + pose proof (code_bound a) as Ha. pose proof (code_bound b) as Hb.
      cbn [btoa base64_decode]. rewrite !base64Value_digit by lia.
      change (base64Value "=") with (@None nat). cbv beta iota.
      change (Ascii.eqb "=" "=") with true. cbv beta iota.
      f_equal. f_equal; [apply ascii_of_code_eq; lia|].
      f_equal. apply ascii_of_code_eq. lia.
    + pose proof (code_bound a) as Ha. pose proof (code_bound b) as Hb.
      pose proof (code_bound c) as Hc.
      cbn [btoa base64_decode]. rewrite !base64Value_digit by lia.
      rewrite IH by (cbn [String.length] in Hn; lia).
      cbv beta iota. cbn [option_map]. f_equal.
      f_equal; [apply ascii_of_code_eq; lia|].
      f_equal; [apply ascii_of_code_eq; lia|].
      f_equal. apply ascii_of_code_eq. lia.
Qed.

(** ** The shape of a payload *)

Lemma btoa_chars n : forall s,
  String.length s <= n -> forallb base64Char (btoa s) = true.
Proof.
  induction n as [|n IH]; intros s Hn.
  - destruct s; [reflexivity | simpl in Hn; lia].
  - destruct s as [|a [|b [|c t]]]; [reflexivity| | |];
      cbn [btoa forallb]; rewrite !base64Char_digit; cbn [andb]; [reflexivity..|].
    apply IH. cbn [String.length] in Hn. lia.
Qed.

Lemma btoa_length n : forall s,
  String.length s <= n -> String.length (btoa s) = 4 * ((String.length s + 2) / 3).
Proof.
  induction n as [|n IH]; intros s Hn.
  - destruct s; [reflexivity | simpl in Hn; lia].
  - destruct s as [|a [|b [|c t]]]; [reflexivity..|].
    cbn [btoa String.length] in *. rewrite IH by lia. lia.
Qed.

Lemma utf8_encode_length s :
  String.length s <= String.length (utf8_encode s) <= 2 * String.length s.
Proof.
  induction s as [|c s IH]; [simpl; lia|].
  cbn [utf8_encode String.length]. rewrite length_app. unfold utf8.
  destruct (code c <? 128)%nat; cbn [String.length]; lia.
Qed.

Lemma base64Char_plain c : base64Char c = true -> Ascii.eqb "?" c = false.
Proof.
  destruct c as [[] [] [] [] [] [] [] []]; intros H; try discriminate H; reflexivity.
Qed.

Lemma indexOf_query payload rest :
  forallb base64Char payload = true ->
  indexOf false "?" (payload ++ String "?" rest) = Some (String.length payload).
Proof.
  induction payload as [|c payload IH]; intros H; [reflexivity|].
  cbn [forallb] in H. apply andb_true_iff in H as [Hc H].
  cbn [String.append indexOf String.length].
  unfold startsWith. cbn [strip_prefix char_eq]. rewrite (base64Char_plain c Hc).
  now rewrite (IH H).
Qed.

Lemma payload_of_url payload :
  forallb base64Char payload = true ->
  payload_of ("https://mermaid.ink/img/" ++ payload ++ "?bgColor=ffffff") = Some payload.
Proof.
  intros H. unfold payload_of.
  change (strip_prefix false "https://mermaid.ink/img/"
            ("https://mermaid.ink/img/" ++ payload ++ "?bgColor=ffffff"))
    with (Some (payload ++ "?bgColor=ffffff")).
  cbv beta iota.
  rewrite (indexOf_query payload "bgColor=ffffff" H). now rewrite substring_0_app.
Qed.

(** [encode] always succeeds and leaves no trace. *)
Lemma encode_run cleanCode w :
  encode cleanCode w = (Ok (btoa (utf8_encode cleanCode)), w).
Proof. unfold encode. now rewrite unescape_encodeURIComponent. Qed.

Lemma imageUrl_mermaid item w :
  type item = mermaid ->
  imageUrl item w
  = (Ok (Some ("https://mermaid.ink/img/" ++ btoa (utf8_encode (trim (content item)))
               ++ "?bgColor=ffffff")), w).
Proof.
  intros H. unfold imageUrl. rewrite H. unfold try_catch, bind.
  now rewrite encode_run.
Qed.

Lemma read_back_url code :
  read_back ("https://mermaid.ink/img/" ++ btoa (utf8_encode code) ++ "?bgColor=ffffff")
  = Some code.
Proof.
  unfold read_back.
  rewrite payload_of_url by (now apply (btoa_chars (String.length (utf8_encode code)))).
  rewrite (base64_decode_btoa (String.length (utf8_encode code))) by reflexivity.
  apply utf8_decode_encode.
Qed.

(** X21.  The idiom [unescape(encodeURIComponent(s))] yields the UTF-8
    octets of [s], one unit per octet, for every string of units up
    to U+00FF: [unescape] undoes exactly the escapes
    [encodeURIComponent] wrote.  So [btoa] never rejects its argument,
    and the encoding of a diagram neither throws nor logs. *)
Theorem escape_idiom_yields_utf8 s w :
  unescape (encodeURIComponent s) = Some (utf8_encode s)
  /\ encode s w = (Ok (btoa (utf8_encode s)), w).
Proof. split; [apply unescape_encodeURIComponent | apply encode_run]. Qed.

(** X22.  The URL of a diagram item carries the trimmed code of the
    diagram: read out of the URL, out of base64 and out of UTF-8, the
    payload is the content of the item without the white space around
    it.  So two diagram items have the same URL only when their
    trimmed contents are the same.  The URL of an image item is its
    content.  Neither throws or logs. *)
Theorem diagram_url_carries_the_trimmed_code item w :
  match type item with
  | mermaid =>
      exists url,
        imageUrl item w = (Ok (Some url), w)
        /\ read_back url = Some (trim (content item))
  | image => imageUrl item w = (Ok (Some (content item)), w)
  end
  /\ forall other,
       type item = mermaid -> type other = mermaid ->
       fst (imageUrl other w) = fst (imageUrl item w) ->
       trim (content other) = trim (content item).
Proof.
  split.
  - destruct (type item) eqn:Hty; [|unfold imageUrl; now rewrite Hty].
    eexists. split; [now apply imageUrl_mermaid | apply read_back_url].
  - intros other H1 H2. rewrite (imageUrl_mermaid item w H1), (imageUrl_mermaid other w H2).
    cbn [fst]. intros [= H].
    pose proof (read_back_url (trim (content other))) as Ho.
    pose proof (read_back_url (trim (content item))) as Hi.
    change ("https://mermaid.ink/img/" ++ btoa (utf8_encode (trim (content other)))
            ++ "?bgColor=ffffff")
      with (String.append "https://mermaid.ink/img/"
              (btoa (utf8_encode (trim (content other))) ++ "?bgColor=ffffff")) in Ho.
    cbn [String.append] in Ho, Hi.
    rewrite H in Ho. congruence.
Qed.

(** X23.  The payload of a rendering URL is padded base64 as [btoa]
    writes it: four units for every three octets of the UTF-8
    encoding of the code, the last group padded, each unit a letter, a
    digit, [+], [/] or [=]; the encoding has one or two octets per
    unit of the code. *)
Theorem diagram_payload_is_padded_base64 cleanCode w :
  exists payload,
    encode cleanCode w = (Ok payload, w)
    /\ String.length payload = 4 * ((String.length (utf8_encode cleanCode) + 2) / 3)
    /\ forallb base64Char payload = true
    /\ String.length cleanCode <= String.length (utf8_encode cleanCode)
       <= 2 * String.length cleanCode.
Proof.
  exists (btoa (utf8_encode cleanCode)). split; [apply encode_run|].
  split; [now apply (btoa_length (String.length (utf8_encode cleanCode)))|].
  split; [now apply (btoa_chars (String.length (utf8_encode cleanCode)))|].
  apply utf8_encode_length.
Qed.

End RendererProperties.

(* ===================================================================== *)
(** * The request test of the guard, read backwards *)
(* ===================================================================== *)

Module GuardProperties.
Import JsString Regex Types Eff Gemini App Spec Samples.
Import StringFacts RegexFacts ExtractorFacts.
Local Open Scope regex_scope.

(** A greedy run went over units of its class only. *)
Lemma star_greedy_run ic k s t :
  In t (star_greedy ic k s) ->
  exists p, s = p ++ t /\ forallb (cls_match ic k) p = true.
Proof.
  induction s as [|a s IH]; simpl.
  - intros [<-|[]]. now exists EmptyString.
  - destruct (cls_match ic k a) eqn:Ea.
    + intros H. apply in_app_or in H as [H|[<-|[]]].
      * destruct (IH H) as (p & -> & Hp). exists (String a p). simpl. now rewrite Ea, Hp.
      * now exists EmptyString.
    + intros [<-|[]]. now exists EmptyString.
Qed.

(** A match found from [s] on starts at a suffix of [s]. *)
Lemma search_found ic input r s m :
  search ic input r s = Some m ->
  exists p s0, s = p ++ s0 /\ ms ic input r s0 [] <> [].
Proof.
  induction s as [|a s IH]; cbn [search].
  - destruct (ms ic input r EmptyString []) eqn:E; [discriminate|].
    intros _. exists EmptyString, EmptyString. split; [reflexivity|]. now rewrite E.
  - destruct (ms ic input r (String a s) []) eqn:E.
    + intros H. destruct (IH H) as (p & s0 & -> & Hs). now exists (String a p), s0.
    + intros _. exists EmptyString, (String a s). split; [reflexivity|]. now rewrite E.
Qed.

Lemma flat_map_witness A B (f : A -> list B) l :
  flat_map f l <> [] -> exists x, In x l /\ f x <> [].
Proof.
  induction l as [|x l IH]; [intros H; now contradiction H|].
  cbn [flat_map]. destruct (f x) eqn:E.
  - intros H. destruct (IH H) as (y & Hy & Hf). exists y. split; [now right | exact Hf].
  - intros _. exists x. split; [now left | now rewrite E].
Qed.

Section Backwards.
Variable input : string.

Lemma ms_lit_inv l s c x :
  In x (ms true input (Lit l) s c) ->
  exists p, s = p ++ snd x /\ ci_eq l p = true.
Proof.
  cbn [ms]. destruct (strip_prefix true l s) as [s'|] eqn:E; [|intros []].
  intros [<-|[]]. destruct (strip_prefix_split true l s s' E) as (p & -> & _ & Hp).
  exists p. split; [reflexivity | now apply strip_prefix_ci_eq].
Qed.

Lemma ms_group_inv n r s c y :
  In y (ms true input (Group n r) s c) ->
  exists x, In x (ms true input r s c) /\ snd y = snd x.
Proof.
  cbn [ms]. intros H. apply in_map_iff in H as (x & <- & Hx). now exists x.
Qed.

Lemma verbs_inv s c x :
  In x (ms true input (Lit "give" <|> Lit "write" <|> Lit "show") s c) ->
  exists verb0 verb, s = verb ++ snd x /\ In verb0 VERBS /\ ci_eq verb0 verb = true.
Proof.
  cbn [ms]. rewrite !in_app_iff. unfold VERBS.
  intros [H|[H|H]]; apply (ms_lit_inv _ s c x) in H as (p & Hs & Hp);
    eexists; exists p; (split; [exact Hs|]); (split; [|exact Hp]); cbn; auto.
Qed.

Lemma nouns_inv s c x :
  In x (ms true input (Lit "code" <|> Lit "answer" <|> Lit "solution" <|> Lit "full") s c) ->
  exists noun0 noun, s = noun ++ snd x /\ In noun0 NOUNS /\ ci_eq noun0 noun = true.
Proof.
  cbn [ms]. rewrite !in_app_iff. unfold NOUNS.
  intros [H|[H|[H|H]]]; apply (ms_lit_inv _ s c x) in H as (p & Hs & Hp);
    eexists; exists p; (split; [exact Hs|]); (split; [|exact Hp]); cbn; auto.
Qed.

(** Where the pattern of the guard matches, a verb is followed on the
    same line by a noun. *)
Lemma cheat_at_inv s :
  ms true input cheatRegex s [] <> [] ->
  exists verb0 verb v noun0 noun t,
    s = verb ++ v ++ noun ++ t
    /\ In verb0 VERBS /\ ci_eq verb0 verb = true
    /\ In noun0 NOUNS /\ ci_eq noun0 noun = true
    /\ same_line v = true.
Proof.
  unfold cheatRegex.
  change (ms true input (?r1 >> ?r2) ?s [])
    with (flat_map (fun x => ms true input r2 (snd x) (fst x)) (ms true input r1 s [])).
  intros H. apply flat_map_witness in H as (x1 & Hx1 & H).
  apply ms_group_inv in Hx1 as (y1 & Hy1 & E1).
  apply verbs_inv in Hy1 as (verb0 & verb & Hs & Hv & Hvc).
  change (ms true input (?r1 >> ?r2) ?s ?c)
    with (flat_map (fun x => ms true input r2 (snd x) (fst x)) (ms true input r1 s c)) in H.
  apply flat_map_witness in H as (x2 & Hx2 & H).
  cbn [ms] in Hx2. apply in_map_iff in Hx2 as (s2 & <- & Hs2).
  apply star_greedy_run in Hs2 as (v & Hv2 & Hline).
  cbn [snd fst] in H.
  destruct (ms true input (Group 2 _) s2 _) as [|x3 l3] eqn:E3; [now contradiction H|].
  assert (Hx3 : In x3 (ms true input
                         (Group 2 (Lit "code" <|> Lit "answer" <|> Lit "solution" <|> Lit "full"))
                         s2 (fst x1))) by (rewrite E3; now left).
  apply ms_group_inv in Hx3 as (y3 & Hy3 & _).
  apply nouns_inv in Hy3 as (noun0 & noun & Hs3 & Hn & Hnc).
  exists verb0, verb, v, noun0, noun, (snd y3).
  rewrite Hs, <- E1, Hv2, Hs3. repeat split; auto.
Qed.

End Backwards.

Lemma cheatRegex_matches_inv text :
  test true cheatRegex text = true -> verb_then_noun text.
Proof.
  unfold test. destruct (search true text cheatRegex text) as [m|] eqn:E; [|discriminate].
  intros _. apply search_found in E as (u & s0 & -> & Hs).
  apply cheat_at_inv in Hs
    as (verb0 & verb & v & noun0 & noun & t & -> & Hv & Hvc & Hn & Hnc & Hl).
  now exists u, verb0, verb, v, noun0, noun, t.
Qed.

(** X24.  The request test picks out exactly the texts in which a verb
    of give/write/show is followed later on the same line by one of
    code/answer/solution/full, in any letter case, and whose
    lower-case form holds none of logic, explain, diagram: the test
    holds of every such text and of no other. *)
Theorem request_test_is_exact text :
  asks_for_answer text = true <->
  verb_then_noun text
  /\ includes "logic" (toLowerCase text) = false
  /\ includes "explain" (toLowerCase text) = false
  /\ includes "diagram" (toLowerCase text) = false.
Proof.
  unfold asks_for_answer. rewrite !andb_true_iff, !negb_true_iff. split.
  - intros [[[H H1] H2] H3]. repeat split; auto. now apply cheatRegex_matches_inv.
  - intros (H & H1 & H2 & H3). repeat split; auto. now apply cheatRegex_matches.
Qed.

End GuardProperties.

(* ===================================================================== *)
(** * Sessions: the handlers one after the other *)
(* ===================================================================== *)

Module SessionProperties.
Import JsString Regex Types Eff Gemini App Spec Samples Catalog Desk Terms Scenes.
Import EffFacts TurnFacts BuilderFacts FeedFacts.
Import TurnProperties FeedProperties UploadProperties CanvasProperties SynthesisProperties.
Local Open Scope eff_scope.

Lemma grows_refl a : grows a a.
Proof. split; exists []; now rewrite List.app_nil_r. Qed.

Lemma grows_trans a1 a2 a3 : grows a1 a2 -> grows a2 a3 -> grows a1 a3.
Proof.
  intros [[m1 H1] [i1 G1]] [[m2 H2] [i2 G2]]. split.
  - exists (m1 ++ m2)%list. now rewrite H2, H1, List.app_assoc.
  - exists (i1 ++ i2)%list. now rewrite G2, G1, List.app_assoc.
Qed.

(** A field-wise reading of [grows]. *)
Lemma grows_same a a' :
  messages a' = messages a -> visualization a' = visualization a -> grows a a'.
Proof. intros H G. split; exists []; rewrite List.app_nil_r; congruence. Qed.

Section Session.
Variable env : Env.

(** [handleSendMessage] never throws, and only adds. *)
Lemma handleSendMessage_frame cp w :
  exists w',
    handleSendMessage env cp w = (Ok tt, w')
    /\ knowledgeLevel (app w') = knowledgeLevel (app w)
    /\ grows (app w) (app w').
Proof.
  pose proof (handleSendMessage_keeps env cp w) as [_ Hlv]. cbv zeta in Hlv.
  destruct (proceeds cp (app w)) eqn:Hp.
  - rewrite (handleSendMessage_proceeds env cp w Hp) in *. cbv zeta in *.
    rewrite sendMessageToGemini_run in *.
    assert (Hc : visualization (app (calling env cp w)) = visualization (app w)).
    { unfold calling. now destruct (given cp). }
    destruct (match generateContent env (sent (calling env cp w)) _ with
              | inl e => Throw e
              | inr response => match read_response response with
                                | inl e => Throw e
                                | inr r => Ok r
                                end
              end) as [r|e].
    + match goal with
      | |- context [extractVisualization env ?t ?i ?w3] =>
          pose proof (keeps_extractVisualization env t i w3) as Hk;
          destruct (extractVisualization_app env t i w3) as (new & w4 & Hrun & H0 & H1);
          rewrite Hrun in *
      end.
      cbn [snd] in *. destruct Hk as [Hm _ _ _ _ _ _ _].
      cbn [app messages setMessages] in Hm.
      eexists. split; [reflexivity|]. split; [exact Hlv|]. split.
      * cbn [app messages setIsLoading setMentorMode].
        rewrite Hm, calling_messages, <- List.app_assoc. now eexists.
      * cbn [app visualization setIsLoading setMentorMode].
        destruct new as [|it new].
        -- destruct (H0 eq_refl) as (-> & _). cbn [app visualization setMessages].
           rewrite Hc. exists []. now rewrite List.app_nil_r.
        -- destruct H1 as (-> & _); [discriminate|].
           cbn [app visualization setMessages items]. rewrite Hc. now eexists.
    + eexists. split; [reflexivity|]. split; [exact Hlv|]. split.
      * cbn [app messages setIsLoading setMessages].
        rewrite calling_messages, <- List.app_assoc. now eexists.
      * cbn [app visualization setIsLoading setMessages]. rewrite Hc.
        exists []. now rewrite List.app_nil_r.
  - destruct (handleSendMessage_stops env cp w Hp) as [H|H]; rewrite H in *;
      eexists; (split; [reflexivity|]); (split; [exact Hlv|]); now apply grows_same.
Qed.

(** [Append to Blueprint] adds one image item and nothing else. *)
Lemma appendToBlueprint_frame url w :
  exists item w',
    appendToBlueprint env url w = (Ok tt, w')
    /\ messages (app w') = messages (app w)
    /\ mentorMode (app w') = mentorMode (app w)
    /\ knowledgeLevel (app w') = knowledgeLevel (app w)
    /\ items (visualization (app w')) = (items (visualization (app w)) ++ [item])%list.
Proof.
  unfold appendToBlueprint, bind, Date_now, tick, modify. do 2 eexists.
  split; [reflexivity|]. repeat split.
Qed.

(** A synthesis whose service call leaves the component alone leaves
    it alone. *)
Lemma handleSynthesize_frame synthesizeTemplate d :
  outside_only synthesizeTemplate ->
  exists d',
    handleSynthesize synthesizeTemplate d = (Ok tt, d')
    /\ app (world d') = app (world d).
Proof.
  intros Hout. destruct (truthy (trim (templateSearch (pane d)))) eqn:Hne.
  - rewrite (handleSynthesize_run synthesizeTemplate d Hne).
    pose proof (Hout (templateSearch (pane d)) (world d)) as H.
    destruct (synthesizeTemplate (templateSearch (pane d)) (world d)) as [[newTpl|e] w];
      cbn [snd] in H; eexists; (split; [reflexivity|]); exact H.
  - exists d. unfold handleSynthesize, dbind, get_pane. rewrite Hne. now split.
Qed.

Lemma quickActions_handlers label onClick :
  In (label, onClick) (quickActions env) ->
  exists prompt, onClick = handleSendMessage env (Some prompt).
Proof.
  cbn [quickActions In].
  intros [[= _ <-]|[[= _ <-]|[[= _ <-]|[[= _ <-]|[]]]]]; now eexists.
Qed.

(** What one event does to the conversation, the feed, the mentor
    flag and the level. *)
Lemma perform_frame synthesizeTemplate action d :
  outside_only synthesizeTemplate ->
  exists d',
    perform env synthesizeTemplate action d = (Ok tt, d')
    /\ grows (app (world d)) (app (world d'))
    /\ (is_submission action = false ->
        mentorMode (app (world d')) = mentorMode (app (world d)))
    /\ (is_submission action = false -> (forall files, action <> ChooseFile files) ->
        messages (app (world d')) = messages (app (world d)))
    /\ knowledgeLevel (app (world d'))
       = match action with
         | SelectLevel level => level
         | _ => knowledgeLevel (app (world d))
         end.
Proof.
  intros Hout. unfold perform, dbind, get_desk. cbv beta iota.
  assert (Hstay : exists d',
    dret tt d = (Ok tt, d')
    /\ grows (app (world d)) (app (world d'))
    /\ mentorMode (app (world d')) = mentorMode (app (world d))
    /\ messages (app (world d')) = messages (app (world d))
    /\ knowledgeLevel (app (world d')) = knowledgeLevel (app (world d))).
  { exists d. split; [reflexivity|]. split; [apply grows_refl|]. auto. }
  assert (Hsend : forall cp, exists d',
    lift (handleSendMessage env cp) d = (Ok tt, d')
    /\ grows (app (world d)) (app (world d'))
    /\ knowledgeLevel (app (world d')) = knowledgeLevel (app (world d))).
  { intros cp. rewrite lift_run.
    destruct (handleSendMessage_frame cp (world d)) as (w' & Hrun & Hlv & Hg).
    rewrite Hrun. eexists. split; [reflexivity|]. now split. }
  destruct action; cbn [is_submission].
  - (* ChangeInput *)
    eexists. split; [reflexivity|]. split; [now apply grows_same|]. auto.
  - (* PressEnter *)
    destruct (Hsend None) as (d' & -> & Hg & Hlv). exists d'.
    split; [reflexivity|]. split; [exact Hg|]. split; [discriminate|].
    split; [discriminate | exact Hlv].
  - (* ClickSend *)
    destruct (isLoading (app (world d)) || isGeneratingImage (app (world d))
              || negb (truthy (trim (input (app (world d)))))).
    + destruct Hstay as (d' & -> & Hg & _ & _ & Hlv). exists d'.
      split; [reflexivity|]. split; [exact Hg|]. split; [discriminate|].
      split; [discriminate | exact Hlv].
    + destruct (Hsend None) as (d' & -> & Hg & Hlv). exists d'.
      split; [reflexivity|]. split; [exact Hg|]. split; [discriminate|].
      split; [discriminate | exact Hlv].
  - (* ClickChip *)
    destruct (List.find _ (quickActions env)) as [[l onClick]|] eqn:Hf.
    + apply find_some in Hf as [Hin _].
      destruct (quickActions_handlers l onClick Hin) as [prompt ->].
      destruct (chipDisabled label (app (world d))).
      * destruct Hstay as (d' & -> & Hg & _ & _ & Hlv). exists d'.
        split; [reflexivity|]. split; [exact Hg|]. split; [discriminate|].
      split; [discriminate | exact Hlv].
      * destruct (Hsend (Some prompt)) as (d' & -> & Hg & Hlv). exists d'.
        split; [reflexivity|]. split; [exact Hg|]. split; [discriminate|].
      split; [discriminate | exact Hlv].
    + destruct Hstay as (d' & -> & Hg & _ & _ & Hlv). exists d'.
      split; [reflexivity|]. split; [exact Hg|]. split; [discriminate|].
      split; [discriminate | exact Hlv].
  - (* SelectLevel *)
    eexists. split; [reflexivity|]. split; [now apply grows_same|]. auto.
  - (* SelectTab *)
    eexists. split; [reflexivity|]. split; [now apply grows_same|]. auto.
  - (* SelectView *)
    eexists. split; [reflexivity|]. split; [now apply grows_same|]. auto.
  - (* CloseToast *)
    eexists. split; [reflexivity|]. split; [now apply grows_same|]. auto.
  - (* ChangeSearch *)
    destruct (activeTab (app (world d)));
      try (destruct Hstay as (d' & -> & Hg & Hme & Hm & Hlv); exists d'; now auto).
    eexists. split; [reflexivity|]. split; [now apply grows_same|]. auto.
  - (* SelectCategory *)
    destruct (activeTab (app (world d)));
      try (destruct Hstay as (d' & -> & Hg & Hme & Hm & Hlv); exists d'; now auto).
    eexists. split; [reflexivity|]. split; [now apply grows_same|]. auto.
  - (* ClickSynthesize *)
    destruct (activeTab (app (world d)));
      try (destruct Hstay as (d' & -> & Hg & Hme & Hm & Hlv); exists d'; now auto).
    destruct ((List.length _ =? 0)%nat && _ && _).
    + destruct (handleSynthesize_frame synthesizeTemplate d Hout) as (d' & -> & Happ).
      exists d'. rewrite Happ. split; [reflexivity|]. split; [apply grows_refl|]. auto.
    + destruct Hstay as (d' & -> & Hg & Hme & Hm & Hlv). exists d'. now auto.
  - (* ChooseFile *)
    destruct (activeTab (app (world d)));
      try (destruct Hstay as (d' & -> & Hg & Hme & Hm & Hlv); exists d'; now auto).
    destruct (handleFileUpload_frame env files d) as (d' & -> & Hme & Hlv & Hm & Hi).
    exists d'. split; [reflexivity|]. split; [now split|]. split; [auto|].
    split; [|exact Hlv]. intros _ H. now contradiction (H files).
  - (* ChangeImagePrompt *)
    destruct (activeTab (app (world d)));
      try (destruct Hstay as (d' & -> & Hg & Hme & Hm & Hlv); exists d'; now auto).
    eexists. split; [reflexivity|]. split; [now apply grows_same|]. auto.
  - (* ChangeImageSize *)
    destruct (activeTab (app (world d)));
      try (destruct Hstay as (d' & -> & Hg & Hme & Hm & Hlv); exists d'; now auto).
    eexists. split; [reflexivity|]. split; [now apply grows_same|]. auto.
  - (* ClickRender *)
    destruct (activeTab (app (world d)));
      try (destruct Hstay as (d' & -> & Hg & Hme & Hm & Hlv); exists d'; now auto).
    destruct (isGeneratingImage (app (world d)) || negb (truthy (trim (imagePrompt (pane d))))).
    + destruct Hstay as (d' & -> & Hg & Hme & Hm & Hlv). exists d'. now auto.
    + destruct (handleGenerateImage_frame env d)
        as (d' & -> & _ & _ & Hm & _ & _ & Hme & Hlv & _ & _ & Hi).
      exists d'. split; [reflexivity|]. split; [|now auto].
      split; [|exact Hi]. exists []. now rewrite List.app_nil_r.
  - (* ClickAppend *)
    destruct (activeTab (app (world d)));
      try (destruct Hstay as (d' & -> & Hg & Hme & Hm & Hlv); exists d'; now auto).
    destruct (isGeneratingImage (app (world d))).
    + destruct Hstay as (d' & -> & Hg & Hme & Hm & Hlv). exists d'. now auto.
    + destruct (generatedImageUrl (pane d)) as [url|].
      * destruct (truthy url).
        -- rewrite lift_run.
           destruct (appendToBlueprint_frame url (world d))
             as (item & w' & -> & Hm & Hme & Hlv & Hi).
           eexists. split; [reflexivity|]. cbn [world fst snd].
           split; [split; [exists []; rewrite List.app_nil_r; exact Hm
                          | eexists; exact Hi]|].
           split; [intros _; exact Hme|]. split; [intros _ _; exact Hm | exact Hlv].
        -- destruct Hstay as (d' & -> & Hg & Hme & Hm & Hlv). exists d'. now auto.
      * destruct Hstay as (d' & -> & Hg & Hme & Hm & Hlv). exists d'. now auto.
Qed.

(** X25.  Whatever the user does, and in whatever order, no handler
    throws, and the conversation and the feed only grow: after any
    sequence of events of the page, each handled to its end before
    the next, the earlier messages and the earlier items of the feed
    are all still there, in place, with the new ones after them. *)
Theorem session_only_adds synthesizeTemplate actions d :
  outside_only synthesizeTemplate ->
  exists d',
    session env synthesizeTemplate actions d = (Ok tt, d')
    /\ grows (app (world d)) (app (world d')).
Proof.
  intros Hout. revert d. induction actions as [|action actions IH]; intros d.
  - exists d. split; [reflexivity | apply grows_refl].
  - cbn [session]. unfold dbind.
    destruct (perform_frame synthesizeTemplate action d Hout) as (d1 & -> & Hg1 & _).
    destruct (IH d1) as (d' & -> & Hg). exists d'. split; [reflexivity|].
    now apply (grows_trans _ (app (world d1))).
Qed.

(** X26.  Only a message submitted to the chat moves the mentor flag:
    no upload, image, template or navigation event ever changes it.
    Only a submission or an upload changes the messages.  Only the
    level switch changes the knowledge level, and it sets it to the
    level chosen. *)
Theorem only_a_chat_turn_moves_the_mentor synthesizeTemplate action d :
  outside_only synthesizeTemplate ->
  let a := app (world d) in
  let a' := app (world (snd (perform env synthesizeTemplate action d))) in
  (is_submission action = false -> mentorMode a' = mentorMode a)
  /\ (is_submission action = false -> (forall files, action <> ChooseFile files) ->
      messages a' = messages a)
  /\ knowledgeLevel a' = match action with
                         | SelectLevel level => level
                         | _ => knowledgeLevel a
                         end.
Proof.
  intros Hout. cbv zeta.
  destruct (perform_frame synthesizeTemplate action d Hout) as (d' & -> & _ & H).
  exact H.
Qed.

End Session.

(** ** Instances *)

Lemma session_witness :
  let d := desk EmptyString EmptyString in
  exists d',
    session env_image synthesize_tides VISIT d = (Ok tt, d')
    /\ grows (app (world d)) (app (world d')).
Proof.
  apply (session_only_adds env_image synthesize_tides VISIT (desk EmptyString EmptyString)).
  intros query w. reflexivity.
Defined.

Lemma mentor_frame_witness :
  let action := ChooseFile (Some [DRAFT]) in
  let a := app (world upload_desk) in
  let a' := app (world (snd (perform env_satisfied synthesize_tides action upload_desk))) in
  List.map text (messages a')
  = [text welcome; upload_notice "draft.txt"; DIAGRAM_REPLY]
  /\ mentorMode a' = mentorMode a
  /\ knowledgeLevel a' = knowledgeLevel a.
Proof.
  cbv zeta. split; [reflexivity|].
  destruct (only_a_chat_turn_moves_the_mentor env_satisfied synthesize_tides
              (ChooseFile (Some [DRAFT])) upload_desk)
    as (Hmentor & _ & Hlevel).
  { intros query w. reflexivity. }
  split; [apply Hmentor; reflexivity | exact Hlevel].
Defined.

End SessionProperties.
